(* ========================================================================= *)
(*  Arcane Gamemaster: dice engine and combat engine.                        *)
(*                                                                           *)
(*  A shallow embedding of DiceEngine.ts (parseDiceNotation, randomInt,      *)
(*  rollDie and the rolls of the DiceEngine class), of CombatEngine.ts (the  *)
(*  CombatEngine class and its helpers) and of the utility functions of      *)
(*  types.ts they call, and the properties of the specification and of the   *)
(*  code that concern them.                                                  *)
(*                                                                           *)
(*  Conventions of the embedding                                             *)
(*  - A JavaScript number is a Z: every number the engine handles is an      *)
(*    integer, and the engine only adds, subtracts, compares and takes       *)
(*    remainders, which are exact on integers below 2^53.  An array index    *)
(*    (currentTurnIndex, the result of findIndex) is a nat.  The numbers     *)
(*    parseInt reads off a notation are the exception: they are doubles,     *)
(*    rounded above 2^53 and infinite from 2^1024 on (JsNumber).             *)
(*  - A JavaScript string is a string; a character is one code unit in the   *)
(*    range 0..255.                                                          *)
(*  - A thrown exception is the Throw branch of result.                      *)
(*  - The engine reads randomness and fresh identifiers from its             *)
(*    environment; here they are arguments: rng k is the k-th word that      *)
(*    crypto.getRandomValues delivers, and uuid is what uuidv4() returns.    *)
(*  - An object spread {...x, f: v} is a setter with_f v x.                  *)
(* ========================================================================= *)

From Stdlib Require Import ZArith Lia Ascii String DecimalString.
From Stdlib Require Import Sorting.Sorted Sorting.Permutation.
From stdpp Require Import base decidable option list strings.

Local Open Scope Z_scope.

(* ------------------------------------------------------------------------- *)
(*  Exceptions                                                               *)
(* ------------------------------------------------------------------------- *)

(** The number [parseInt] returns on a run of digits, with a sign or without:
    an integer that a double holds, or an infinity when the digits are too
    many for a double. *)
Inductive JsNumber : Type :=
  | Finite (z : Z)
  | PosInfinity
  | NegInfinity.

(** The errors the engine raises: [new Error(`Combatant not found: ...`)],
    [new Error(`Invalid dice notation: ...`)], [new Error(`Invalid dice
    count: ...`)], [new Error(`Invalid dice sides: ...`)], the last two with
    the number that was parsed; [TypeError] is what JavaScript raises when a
    property of [undefined] is read.  The last two are not JavaScript errors:
    [OutOfFuel] marks a recursion of the model that was given too little
    fuel (see [nextTurn_returns]), and [NotFinite] marks a ParsedDice whose
    modifier or keep count is an infinity, which the code returns and which
    the ParsedDice of the embedding, made of integers, does not hold. *)
Inductive Error : Type :=
  | CombatantNotFound (targetId : string)
  | InvalidNotation (notation : string)
  | InvalidDiceCount (count : JsNumber)
  | InvalidDiceSides (sides : JsNumber)
  | TypeError
  | OutOfFuel
  | NotFinite.

Inductive result (A : Type) : Type :=
  | Ok (a : A)
  | Throw (e : Error).
Arguments Ok {A} a.
Arguments Throw {A} e.

Definition bind {A B : Type} (r : result A) (k : A -> result B) : result B :=
  match r with
  | Ok a => k a
  | Throw e => Throw e
  end.

Notation "r >>= k" := (bind r k) (at level 50, left associativity).

(* ------------------------------------------------------------------------- *)
(*  models/types.ts: the data model                                          *)
(* ------------------------------------------------------------------------- *)

Inductive Ability : Type := STR | DEX | CON | INT | WIS | CHA.

Inductive ConditionType : Type :=
  | blinded | charmed | deafened | exhaustion | frightened | grappled
  | incapacitated | invisible | paralyzed | petrified | poisoned | prone
  | restrained | stunned | unconscious | concentrating.

Inductive DamageType : Type :=
  | acid | bludgeoning | cold | fire | force | lightning | necrotic
  | piercing | poison | psychic | radiant | slashing | thunder.

Inductive CombatOutcome : Type :=
  | victory | defeat | outcome_fled | negotiated.

Inductive RestType : Type := short | long.

Inductive DurationKind : Type := rounds | untilSave | untilDispelled | untilRest.

Inductive CombatantType : Type := player_character | enemy | ally | neutral.

Inductive CombatantStatus : Type := active | defeated | fled.

#[global] Instance Ability_eq_dec : EqDecision Ability.
Proof. solve_decision. Defined.
#[global] Instance ConditionType_eq_dec : EqDecision ConditionType.
Proof. solve_decision. Defined.
#[global] Instance RestType_eq_dec : EqDecision RestType.
Proof. solve_decision. Defined.
#[global] Instance DurationKind_eq_dec : EqDecision DurationKind.
Proof. solve_decision. Defined.
#[global] Instance CombatantType_eq_dec : EqDecision CombatantType.
Proof. solve_decision. Defined.
#[global] Instance CombatantStatus_eq_dec : EqDecision CombatantStatus.
Proof. solve_decision. Defined.

(** interface DurationType: [value], [ability] and [restType] are optional. *)
Record DurationType : Type := {
  dur_type : DurationKind;
  dur_value : option Z;
  dur_ability : option Ability;
  dur_restType : option RestType
}.

(** interface ActiveCondition. *)
Record ActiveCondition : Type := {
  cond_name : ConditionType;
  cond_source : string;
  duration : DurationType
}.

Record Position : Type := { pos_x : Z; pos_y : Z }.

Record AbilityScores : Type := {
  strength : Z;
  dexterity : Z;
  constitution : Z;
  intelligence : Z;
  wisdom : Z;
  charisma : Z
}.

(** interface Character, the fields the combat engine reads. *)
Record Character : Type := {
  char_id : string;
  char_name : string;
  char_abilityScores : AbilityScores;
  char_maxHp : Z;
  char_currentHp : Z;
  char_tempHp : Z;
  char_armorClass : Z;
  char_speed : Z;
  char_conditions : list ActiveCondition
}.

(** interface MonsterStatBlock, the fields the combat engine reads;
    [mon_walk] is [speed.walk]. *)
Record MonsterStatBlock : Type := {
  mon_name : string;
  mon_armorClass : Z;
  hitPoints : Z;
  mon_walk : Z;
  mon_abilityScores : AbilityScores
}.

Record TurnResources : Type := {
  hasAction : bool;
  hasBonusAction : bool;
  hasReaction : bool;
  movementRemaining : Z
}.

(** The [initiative] object of a Combatant. *)
Record Initiative : Type := {
  init_roll : Z;
  init_modifier : Z;
  init_total : Z
}.

(** interface InitiativeResult. *)
Record InitiativeResult : Type := {
  combatantId : string;
  combatantName : string;
  roll : Z;
  modifier : Z;
  total : Z
}.

(** interface Combatant. *)
Record Combatant : Type := {
  id : string;
  name : string;
  type : CombatantType;
  initiative : Initiative;
  currentHp : Z;
  maxHp : Z;
  tempHp : Z;
  armorClass : Z;
  speed : Z;
  conditions : list ActiveCondition;
  status : CombatantStatus;
  position : option Position;
  turnResources : TurnResources;
  sourceId : option string;
  isPlayer : bool
}.

(** interface Combat. *)
Record Combat : Type := {
  combat_id : string;
  round : Z;
  initiativeOrder : list Combatant;
  currentTurnIndex : nat;
  surprisedCombatantIds : list string;
  environmentalEffects : list string;
  isActive : bool
}.

(* Object spreads. *)

Definition with_value (v : option Z) (d : DurationType) : DurationType :=
  {| dur_type := dur_type d; dur_value := v;
     dur_ability := dur_ability d; dur_restType := dur_restType d |}.

Definition with_duration (d : DurationType) (c : ActiveCondition) : ActiveCondition :=
  {| cond_name := cond_name c; cond_source := cond_source c; duration := d |}.

Definition with_hasAction (b : bool) (t : TurnResources) : TurnResources :=
  {| hasAction := b; hasBonusAction := hasBonusAction t;
     hasReaction := hasReaction t; movementRemaining := movementRemaining t |}.

Definition with_hasBonusAction (b : bool) (t : TurnResources) : TurnResources :=
  {| hasAction := hasAction t; hasBonusAction := b;
     hasReaction := hasReaction t; movementRemaining := movementRemaining t |}.

Definition with_hasReaction (b : bool) (t : TurnResources) : TurnResources :=
  {| hasAction := hasAction t; hasBonusAction := hasBonusAction t;
     hasReaction := b; movementRemaining := movementRemaining t |}.

Definition with_movementRemaining (m : Z) (t : TurnResources) : TurnResources :=
  {| hasAction := hasAction t; hasBonusAction := hasBonusAction t;
     hasReaction := hasReaction t; movementRemaining := m |}.

(** [{...c, currentHp, tempHp, status, conditions}] of applyDamage. *)
Definition with_damage (hp temp : Z) (st : CombatantStatus)
    (conds : list ActiveCondition) (c : Combatant) : Combatant :=
  {| id := id c; name := name c; type := type c; initiative := initiative c;
     currentHp := hp; maxHp := maxHp c; tempHp := temp;
     armorClass := armorClass c; speed := speed c; conditions := conds;
     status := st; position := position c; turnResources := turnResources c;
     sourceId := sourceId c; isPlayer := isPlayer c |}.

(** [{...c, currentHp, conditions, status}] of applyHealing. *)
Definition with_healing (hp : Z) (conds : list ActiveCondition)
    (st : CombatantStatus) (c : Combatant) : Combatant :=
  with_damage hp (tempHp c) st conds c.

Definition with_conditions (conds : list ActiveCondition) (c : Combatant) : Combatant :=
  with_damage (currentHp c) (tempHp c) (status c) conds c.

Definition with_status (st : CombatantStatus) (c : Combatant) : Combatant :=
  with_damage (currentHp c) (tempHp c) st (conditions c) c.

Definition with_tempHp (temp : Z) (c : Combatant) : Combatant :=
  with_damage (currentHp c) temp (status c) (conditions c) c.

Definition with_turnResources (t : TurnResources) (c : Combatant) : Combatant :=
  {| id := id c; name := name c; type := type c; initiative := initiative c;
     currentHp := currentHp c; maxHp := maxHp c; tempHp := tempHp c;
     armorClass := armorClass c; speed := speed c; conditions := conditions c;
     status := status c; position := position c; turnResources := t;
     sourceId := sourceId c; isPlayer := isPlayer c |}.

Definition with_name (n : string) (c : Combatant) : Combatant :=
  {| id := id c; name := n; type := type c; initiative := initiative c;
     currentHp := currentHp c; maxHp := maxHp c; tempHp := tempHp c;
     armorClass := armorClass c; speed := speed c; conditions := conditions c;
     status := status c; position := position c;
     turnResources := turnResources c;
     sourceId := sourceId c; isPlayer := isPlayer c |}.

Definition with_initiativeOrder (order : list Combatant) (c : Combat) : Combat :=
  {| combat_id := combat_id c; round := round c; initiativeOrder := order;
     currentTurnIndex := currentTurnIndex c;
     surprisedCombatantIds := surprisedCombatantIds c;
     environmentalEffects := environmentalEffects c; isActive := isActive c |}.

Definition with_isActive (b : bool) (c : Combat) : Combat :=
  {| combat_id := combat_id c; round := round c;
     initiativeOrder := initiativeOrder c;
     currentTurnIndex := currentTurnIndex c;
     surprisedCombatantIds := surprisedCombatantIds c;
     environmentalEffects := environmentalEffects c; isActive := b |}.

Definition with_environmentalEffects (e : list string) (c : Combat) : Combat :=
  {| combat_id := combat_id c; round := round c;
     initiativeOrder := initiativeOrder c;
     currentTurnIndex := currentTurnIndex c;
     surprisedCombatantIds := surprisedCombatantIds c;
     environmentalEffects := e; isActive := isActive c |}.

(** [{...c, round, currentTurnIndex, initiativeOrder}] of nextTurn;
    processEndOfRound uses it with the index unchanged. *)
Definition with_turn (r : Z) (i : nat) (order : list Combatant) (c : Combat) : Combat :=
  {| combat_id := combat_id c; round := r; initiativeOrder := order;
     currentTurnIndex := i;
     surprisedCombatantIds := surprisedCombatantIds c;
     environmentalEffects := environmentalEffects c; isActive := isActive c |}.

(* ------------------------------------------------------------------------- *)
(*  CombatEngine.ts                                                          *)
(* ------------------------------------------------------------------------- *)

Definition createDefaultTurnResources (speed : Z) : TurnResources :=
  {| hasAction := true; hasBonusAction := true; hasReaction := true;
     movementRemaining := speed |}.

(** [order.findIndex((c) => c.id === targetId)] together with the element
    found; [None] is the index -1. *)
Definition findCombatant (targetId : string) (order : list Combatant)
    : option (nat * Combatant) :=
  list_find (fun c => id c = targetId) order.

Record DamageResult : Type := {
  dmg_combat : Combat;
  actualDamage : Z;
  wasKnockedOut : bool;
  wasDowned : bool
}.

(** The depletion of temporary HP in applyDamage: from the clamped amount and
    the target's tempHp to (remainingDamage, actualDamage, newTempHp). *)
Definition depleteTempHp (remainingDamage tempHp0 : Z) : Z * Z * Z :=
  let actualDamage := 0 in
  let newTempHp := tempHp0 in
  if 0 <? newTempHp then
    if newTempHp <=? remainingDamage
    then (remainingDamage - newTempHp, actualDamage + newTempHp, 0)
    else (0, actualDamage + remainingDamage, newTempHp - remainingDamage)
  else (remainingDamage, actualDamage, newTempHp).

Definition unconsciousFromDamage : ActiveCondition :=
  {| cond_name := unconscious; cond_source := "damage";
     duration := {| dur_type := untilDispelled; dur_value := None;
                    dur_ability := None; dur_restType := None |} |}.

Definition applyDamage (combat : Combat) (targetId : string) (amount : Z)
    (damageType : DamageType) (source : string) : result DamageResult :=
  match findCombatant targetId (initiativeOrder combat) with
  | None => Throw (CombatantNotFound targetId)
  | Some (targetIndex, target) =>
      let '(remainingDamage, actualDamage, newTempHp) :=
        depleteTempHp (Z.max 0 amount) (tempHp target) in
      let newCurrentHp := currentHp target - remainingDamage in
      let actualDamage := actualDamage + remainingDamage in
      let newCurrentHp := Z.max 0 newCurrentHp in
      let wasKnockedOut := (0 <? currentHp target) && (newCurrentHp =? 0) in
      let wasDowned := wasKnockedOut && isPlayer target in
      let newStatus :=
        if newCurrentHp =? 0
        then (if isPlayer target then active else defeated)
        else status target in
      let newConditions :=
        if wasDowned
        then conditions target ++ [unconsciousFromDamage]
        else conditions target in
      let updatedOrder :=
        <[targetIndex := with_damage newCurrentHp newTempHp newStatus
                           newConditions target]> (initiativeOrder combat) in
      Ok {| dmg_combat := with_initiativeOrder updatedOrder combat;
            actualDamage := actualDamage;
            wasKnockedOut := wasKnockedOut;
            wasDowned := wasDowned |}
  end.

Record HealingResult : Type := {
  heal_combat : Combat;
  actualHealing : Z;
  wasRevived : bool
}.

Definition applyHealing (combat : Combat) (targetId : string) (amount : Z)
    (source : string) : result HealingResult :=
  match findCombatant targetId (initiativeOrder combat) with
  | None => Throw (CombatantNotFound targetId)
  | Some (targetIndex, target) =>
      let wasAtZero := currentHp target =? 0 in
      let newCurrentHp := Z.min (maxHp target) (currentHp target + amount) in
      let actualHealing := newCurrentHp - currentHp target in
      let newConditions :=
        if wasAtZero && (0 <? newCurrentHp)
        then List.filter (fun c => negb (bool_decide (cond_name c = unconscious)))
               (conditions target)
        else conditions target in
      let updatedOrder :=
        <[targetIndex := with_healing newCurrentHp newConditions
                           (if 0 <? newCurrentHp then active else status target)
                           target]> (initiativeOrder combat) in
      Ok {| heal_combat := with_initiativeOrder updatedOrder combat;
            actualHealing := actualHealing;
            wasRevived := wasAtZero && (0 <? newCurrentHp) |}
  end.

(** [condition.duration.value! > (existing.duration.value || 0)]: an absent
    incoming value compares false, an absent or zero existing value is 0. *)
Definition longerThan (incoming existing : DurationType) : bool :=
  match dur_value incoming with
  | Some v => default 0 (dur_value existing) <? v
  | None => false
  end.

Definition addCondition (combat : Combat) (targetId : string)
    (condition : ActiveCondition) : result Combat :=
  match findCombatant targetId (initiativeOrder combat) with
  | None => Throw (CombatantNotFound targetId)
  | Some (targetIndex, target) =>
      match list_find (fun c => cond_name c = cond_name condition)
              (conditions target) with
      | Some (existingIndex, existing) =>
          if bool_decide (dur_type (duration condition) = rounds)
             && bool_decide (dur_type (duration existing) = rounds)
             && longerThan (duration condition) (duration existing)
          then
            let updatedConditions :=
              <[existingIndex := condition]> (conditions target) in
            let updatedOrder :=
              <[targetIndex := with_conditions updatedConditions target]>
                (initiativeOrder combat) in
            Ok (with_initiativeOrder updatedOrder combat)
          else Ok combat
      | None =>
          let updatedConditions := conditions target ++ [condition] in
          let updatedOrder :=
            <[targetIndex := with_conditions updatedConditions target]>
              (initiativeOrder combat) in
          Ok (with_initiativeOrder updatedOrder combat)
      end
  end.

Definition removeCondition (combat : Combat) (targetId : string)
    (conditionName : ConditionType) : result Combat :=
  match findCombatant targetId (initiativeOrder combat) with
  | None => Throw (CombatantNotFound targetId)
  | Some (targetIndex, target) =>
      let updatedConditions :=
        List.filter (fun c => negb (bool_decide (cond_name c = conditionName)))
          (conditions target) in
      let updatedOrder :=
        <[targetIndex := with_conditions updatedConditions target]>
          (initiativeOrder combat) in
      Ok (with_initiativeOrder updatedOrder combat)
  end.

(** The shape shared by useAction, useBonusAction, useReaction, useMovement,
    flee and addTempHp: an unknown id leaves the combat as it is. *)
Definition updateCombatant (combat : Combat) (combatantId : string)
    (f : Combatant -> Combatant) : Combat :=
  match findCombatant combatantId (initiativeOrder combat) with
  | None => combat
  | Some (index, combatant) =>
      with_initiativeOrder (<[index := f combatant]> (initiativeOrder combat))
        combat
  end.

Definition useAction (combat : Combat) (combatantId : string) : Combat :=
  updateCombatant combat combatantId
    (fun c => with_turnResources (with_hasAction false (turnResources c)) c).

Definition useBonusAction (combat : Combat) (combatantId : string) : Combat :=
  updateCombatant combat combatantId
    (fun c => with_turnResources (with_hasBonusAction false (turnResources c)) c).

Definition useReaction (combat : Combat) (combatantId : string) : Combat :=
  updateCombatant combat combatantId
    (fun c => with_turnResources (with_hasReaction false (turnResources c)) c).

Definition useMovement (combat : Combat) (combatantId : string) (amount : Z)
    : Combat :=
  updateCombatant combat combatantId
    (fun c =>
       let newRemaining := Z.max 0 (movementRemaining (turnResources c) - amount) in
       with_turnResources (with_movementRemaining newRemaining (turnResources c)) c).

Definition flee (combat : Combat) (combatantId : string) : Combat :=
  updateCombatant combat combatantId (with_status fled).

Definition addTempHp (combat : Combat) (targetId : string) (amount : Z) : Combat :=
  updateCombatant combat targetId
    (fun c => with_tempHp (Z.max (tempHp c) amount) c).

Definition addEnvironmentalEffect (combat : Combat) (effect : string) : Combat :=
  with_environmentalEffects (environmentalEffects combat ++ [effect]) combat.

Definition removeEnvironmentalEffect (combat : Combat) (effect : string) : Combat :=
  with_environmentalEffects
    (List.filter (fun e => negb (bool_decide (e = effect)))
       (environmentalEffects combat))
    combat.

Record EndResult : Type := {
  end_combat : Combat;
  xpEarned : Z;
  survivingPlayers : list string
}.

Definition endCombat (combat : Combat) (outcome : CombatOutcome) : EndResult :=
  let defeatedEnemies :=
    List.filter (fun c => bool_decide (type c = enemy)
                          && bool_decide (status c = defeated))
      (initiativeOrder combat) in
  {| end_combat := with_isActive false combat;
     xpEarned := Z.of_nat (length defeatedEnemies) * 50;
     survivingPlayers :=
       fmap id (List.filter (fun c => isPlayer c && bool_decide (status c = active))
                 (initiativeOrder combat)) |}.

Definition checkCombatEnd (combat : Combat) : bool * option CombatOutcome :=
  let activePlayers :=
    List.filter (fun c => isPlayer c && bool_decide (status c = active)
                          && (0 <? currentHp c))
      (initiativeOrder combat) in
  let activeEnemies :=
    List.filter (fun c => bool_decide (type c = enemy)
                          && bool_decide (status c = active))
      (initiativeOrder combat) in
  match activeEnemies, activePlayers with
  | [], _ :: _ => (true, Some victory)
  | _ :: _, [] => (true, Some defeat)
  | [], [] => (true, Some defeat)
  | _ :: _, _ :: _ => (false, None)
  end.

Definition getCombatant (combat : Combat) (id0 : string) : option Combatant :=
  snd <$> findCombatant id0 (initiativeOrder combat).

Definition hasCondition (combat : Combat) (combatantId : string)
    (conditionName : ConditionType) : bool :=
  match getCombatant combat combatantId with
  | None => false
  | Some combatant =>
      existsb (fun c => bool_decide (cond_name c = conditionName))
        (conditions combatant)
  end.

(** [null] is [None]. *)
Definition getCurrentCombatant (combat : Combat) : option Combatant :=
  if negb (isActive combat) || (length (initiativeOrder combat) =? 0)%nat
  then None
  else initiativeOrder combat !! currentTurnIndex combat.

(** JavaScript truthiness of an optional number: defined and not 0. *)
Definition truthy (v : option Z) : bool :=
  match v with
  | Some n => negb (n =? 0)
  | None => false
  end.

(** The [.map] callback of processEndOfRound. *)
Definition tickCondition (condition : ActiveCondition) : ActiveCondition :=
  if bool_decide (dur_type (duration condition) = rounds)
     && truthy (dur_value (duration condition))
  then with_duration
         (with_value (Some (default 0 (dur_value (duration condition)) - 1))
            (duration condition))
         condition
  else condition.

(** The [.filter] callback of processEndOfRound. *)
Definition stillRunning (condition : ActiveCondition) : bool :=
  negb (bool_decide (dur_type (duration condition) = rounds))
  || (truthy (dur_value (duration condition))
      && (0 <? default 0 (dur_value (duration condition)))).

Definition processEndOfRound (combat : Combat) : Combat :=
  let updatedOrder :=
    fmap (fun combatant =>
           with_conditions
             (List.filter stillRunning (fmap tickCondition (conditions combatant)))
             combatant)
      (initiativeOrder combat) in
  with_turn (round combat + 1) (currentTurnIndex combat) updatedOrder combat.

(** The do-while loop of nextTurn.  [len] is [combat.initiativeOrder.length];
    [remaining] is [maxIterations - iterations] after the increment of this
    pass, so that [iterations < maxIterations] reads [remaining <> 0].  The
    result is (nextIndex, newRound, updatedCombat) at the exit of the loop. *)
Fixpoint nextTurn_loop (len remaining nextIndex : nat) (newRound : Z)
    (updatedCombat : Combat) : result (nat * Z * Combat) :=
  let nextIndex := (S nextIndex mod len)%nat in
  let updatedCombat :=
    if (nextIndex =? 0)%nat then processEndOfRound updatedCombat
    else updatedCombat in
  let newRound :=
    if (nextIndex =? 0)%nat then round updatedCombat else newRound in
  match initiativeOrder updatedCombat !! nextIndex with
  | None => Throw TypeError
  | Some landed =>
      match remaining with
      | S remaining' =>
          if negb (bool_decide (status landed = active))
          then nextTurn_loop len remaining' nextIndex newRound updatedCombat
          else Ok (nextIndex, newRound, updatedCombat)
      | O => Ok (nextIndex, newRound, updatedCombat)
      end
  end.

(** nextTurn, its recursion on a surprised combatant bounded by [fuel]. *)
Fixpoint nextTurn_fuel (fuel : nat) (combat : Combat) : result Combat :=
  match fuel with
  | O => Throw OutOfFuel
  | S fuel' =>
      if negb (isActive combat) then Ok combat
      else
        let activeCombatants :=
          List.filter (fun c => bool_decide (status c = active))
            (initiativeOrder combat) in
        if (length activeCombatants =? 0)%nat
        then Ok (with_isActive false combat)
        else
          let maxIterations := length (initiativeOrder combat) in
          nextTurn_loop maxIterations (maxIterations - 1)
            (currentTurnIndex combat) (round combat) combat
          >>= fun '(nextIndex, newRound, updatedCombat) =>
          match initiativeOrder updatedCombat !! nextIndex with
          | None => Throw TypeError
          | Some currentCombatant =>
              let updatedOrder :=
                <[nextIndex := with_turnResources
                                 (createDefaultTurnResources (speed currentCombatant))
                                 currentCombatant]>
                  (initiativeOrder updatedCombat) in
              let isSurprised :=
                (newRound =? 1)
                && bool_decide (id currentCombatant
                                  ∈ surprisedCombatantIds updatedCombat) in
              let next := with_turn newRound nextIndex updatedOrder updatedCombat in
              if isSurprised then nextTurn_fuel fuel' next else Ok next
          end
  end.

(** The recursion of nextTurn is at most one call per combatant deep, plus
    the first call ([nextTurn_returns]). *)
Definition nextTurn (combat : Combat) : result Combat :=
  nextTurn_fuel (length (initiativeOrder combat) + 1) combat.

(* ------------------------------------------------------------------------- *)
(*  models/types.ts: utility functions                                       *)
(* ------------------------------------------------------------------------- *)

(** [Math.floor((score - 10) / 2)]. *)
Definition getAbilityModifier (score : Z) : Z := (score - 10) / 2.

(* ------------------------------------------------------------------------- *)
(*  Strings                                                                  *)
(* ------------------------------------------------------------------------- *)

(** [\s] on the code units 0..255: tab, line feed, vertical tab, form feed,
    carriage return, space and no-break space. *)
Definition isWhitespace (c : ascii) : bool :=
  let n := N_of_ascii c in
  ((9 <=? n) && (n <=? 13) || (n =? 32) || (n =? 160))%N.

(** [\d]. *)
Definition isDigit (c : ascii) : bool :=
  let n := N_of_ascii c in
  ((48 <=? n) && (n <=? 57))%N.

(** toLowerCase on one code unit in 0..255: A-Z, and the Latin-1 capitals
    U+00C0..U+00DE but the multiplication sign U+00D7. *)
Definition lowerCodeUnit (c : ascii) : ascii :=
  let n := N_of_ascii c in
  if ((65 <=? n) && (n <=? 90)
      || (192 <=? n) && (n <=? 222) && negb (n =? 215))%N
  then ascii_of_N (n + 32)
  else c.

Fixpoint toLowerCase (s : string) : string :=
  match s with
  | EmptyString => EmptyString
  | String c s' => String (lowerCodeUnit c) (toLowerCase s')
  end.

(** [s.replace(/\s/g, '')]. *)
Fixpoint removeWhitespace (s : string) : string :=
  match s with
  | EmptyString => EmptyString
  | String c s' =>
      if isWhitespace c then removeWhitespace s'
      else String c (removeWhitespace s')
  end.

(** [s.replace(/\s+/g, '_')]: [inRun] says that the code unit before was
    whitespace, whose run has been replaced already. *)
Fixpoint underscoreRuns (inRun : bool) (s : string) : string :=
  match s with
  | EmptyString => EmptyString
  | String c s' =>
      if isWhitespace c
      then (if inRun then underscoreRuns true s'
            else String "_" (underscoreRuns true s'))
      else String c (underscoreRuns false s')
  end.

(** The decimal numeral of a template literal [${n}], n a natural number. *)
Definition decimal (n : nat) : string :=
  NilEmpty.string_of_uint (Nat.to_uint n).

(* ------------------------------------------------------------------------- *)
(*  DiceEngine.ts: random numbers                                            *)
(* ------------------------------------------------------------------------- *)

(** What a Uint32Array element holds of the word written to it. *)
Definition Uint32 (word : Z) : Z := word mod 2 ^ 32.

(** randomInt where [crypto.getRandomValues] exists, [word] being what it
    delivers; [%] is the remainder that takes the sign of the dividend.  (The
    other branch, [Math.floor(Math.random() * (max - min + 1)) + min], is
    floating point and is not modelled.) *)
Definition randomInt (min max : Z) (word : Z) : Z :=
  let range := max - min + 1 in
  min + Z.rem (Uint32 word) range.

Definition rollDie (sides : Z) (word : Z) : Z := randomInt 1 sides word.

(* ------------------------------------------------------------------------- *)
(*  DiceEngine.ts: rollInitiative                                            *)
(* ------------------------------------------------------------------------- *)

(** [Array.prototype.sort(compareFn)]: ECMAScript (2019) specifies the sort
    as stable, and for a comparator that is a consistent ordering the result
    is the one list that is ordered by it and keeps equal elements in their
    first order; insertion of each element before the elements that are not
    smaller computes that list. *)
Section ArraySort.
Context {A : Type} (compareFn : A -> A -> Z).

Fixpoint insertSorted (x : A) (l : list A) : list A :=
  match l with
  | [] => [x]
  | y :: l' =>
      if compareFn x y <=? 0 then x :: y :: l'
      else y :: insertSorted x l'
  end.

Definition sort (l : list A) : list A := foldr insertSorted [] l.
End ArraySort.

(** An element of the argument of rollInitiative. *)
Record InitiativeRequest : Type := {
  req_id : string;
  req_name : string;
  dexterityModifier : Z
}.

(** The comparator of rollInitiative. *)
Definition compareInitiative (a b : InitiativeResult) : Z :=
  if negb (total b =? total a) then total b - total a
  else modifier b - modifier a.

(** The [.map] of rollInitiative: the k-th combatant's d20 is read from the
    k-th word of the generator. *)
Definition rollAll (rng : nat -> Z) (combatants : list InitiativeRequest)
    : list InitiativeResult :=
  imap (fun k c =>
          let roll := rollDie 20 (rng k) in
          {| combatantId := req_id c;
             combatantName := req_name c;
             roll := roll;
             modifier := dexterityModifier c;
             total := roll + dexterityModifier c |})
    combatants.

Definition rollInitiative (rng : nat -> Z) (combatants : list InitiativeRequest)
    : list InitiativeResult :=
  sort compareInitiative (rollAll rng combatants).

(* ------------------------------------------------------------------------- *)
(*  CombatEngine.ts: startCombat                                             *)
(* ------------------------------------------------------------------------- *)

Definition createCombatantFromCharacter (character : Character)
    (initiative0 : InitiativeResult) : Combatant :=
  {| id := char_id character;
     name := char_name character;
     type := player_character;
     initiative := {| init_roll := roll initiative0;
                      init_modifier := modifier initiative0;
                      init_total := total initiative0 |};
     currentHp := char_currentHp character;
     maxHp := char_maxHp character;
     tempHp := char_tempHp character;
     armorClass := char_armorClass character;
     speed := char_speed character;
     conditions := char_conditions character;
     status := if 0 <? char_currentHp character then active else defeated;
     position := None;
     turnResources := createDefaultTurnResources (char_speed character);
     sourceId := Some (char_id character);
     isPlayer := true |}.

(** [uuid] is what [uuidv4()] returns when it is called, which is when
    [instanceId] is absent or empty. *)
Definition createCombatantFromMonster (uuid : string)
    (monster : MonsterStatBlock) (initiative0 : InitiativeResult)
    (type0 : CombatantType) (instanceId : option string) : Combatant :=
  let generated :=
    underscoreRuns false (toLowerCase (mon_name monster))
    +:+ "_" +:+ substring 0 8 uuid in
  let id0 :=
    match instanceId with
    | Some s => if bool_decide (s = "") then generated else s
    | None => generated
    end in
  let dexMod := getAbilityModifier (dexterity (mon_abilityScores monster)) in
  {| id := id0;
     name := mon_name monster;
     type := type0;
     initiative := {| init_roll := roll initiative0;
                      init_modifier := dexMod;
                      init_total := total initiative0 |};
     currentHp := hitPoints monster;
     maxHp := hitPoints monster;
     tempHp := 0;
     armorClass := mon_armorClass monster;
     speed := mon_walk monster;
     conditions := [];
     status := active;
     position := None;
     turnResources := createDefaultTurnResources (mon_walk monster);
     sourceId := Some (mon_name monster);
     isPlayer := false |}.

(** [Character | MonsterStatBlock]; the test ['characterClass' in source]
    reads the tag. *)
Inductive Source : Type :=
  | CharacterSource (character : Character)
  | MonsterSource (monster : MonsterStatBlock).

(** An element of [initiativeCombatants]. *)
Record InitiativeCombatant : Type := {
  ic_id : string;
  ic_name : string;
  ic_dexterityModifier : Z;
  ic_source : Source;
  ic_type : CombatantType
}.

Definition characterEntries (characters : list Character)
    : list InitiativeCombatant :=
  fmap (fun character =>
         {| ic_id := char_id character;
            ic_name := char_name character;
            ic_dexterityModifier :=
              getAbilityModifier (dexterity (char_abilityScores character));
            ic_source := CharacterSource character;
            ic_type := player_character |})
    characters.

(** The display name of [monsters[i]]. *)
Definition enemyName (monsters : list MonsterStatBlock) (i : nat)
    (monster : MonsterStatBlock) : string :=
  if (1 <? length monsters)%nat
     && (1 <? length (List.filter
                        (fun m => bool_decide (mon_name m = mon_name monster))
                        monsters))%nat
  then mon_name monster +:+ " " +:+ decimal (i + 1)
  else mon_name monster.

Definition enemyEntries (monsters : list MonsterStatBlock)
    : list InitiativeCombatant :=
  imap (fun i monster =>
          {| ic_id := underscoreRuns false (toLowerCase (mon_name monster))
                      +:+ "_" +:+ decimal (i + 1);
             ic_name := enemyName monsters i monster;
             ic_dexterityModifier :=
               getAbilityModifier (dexterity (mon_abilityScores monster));
             ic_source := MonsterSource monster;
             ic_type := enemy |})
    monsters.

Definition allyEntries (allyMonsters : list MonsterStatBlock)
    : list InitiativeCombatant :=
  imap (fun i monster =>
          {| ic_id := "ally_"
                      +:+ underscoreRuns false (toLowerCase (mon_name monster))
                      +:+ "_" +:+ decimal (i + 1);
             ic_name := mon_name monster +:+ " (Ally)";
             ic_dexterityModifier :=
               getAbilityModifier (dexterity (mon_abilityScores monster));
             ic_source := MonsterSource monster;
             ic_type := ally |})
    allyMonsters.

(** [initiativeCombatants] once the three loops of startCombat have pushed
    the player characters, the enemy monsters and the ally monsters. *)
Definition initiativeCombatants (characters : list Character)
    (monsters allyMonsters : list MonsterStatBlock) : list InitiativeCombatant :=
  characterEntries characters ++ enemyEntries monsters
  ++ allyEntries allyMonsters.

(** The callback of [initiativeCombatants.map] in the call of
    rollInitiative. *)
Definition requestOf (c : InitiativeCombatant) : InitiativeRequest :=
  {| req_id := ic_id c; req_name := ic_name c;
     dexterityModifier := ic_dexterityModifier c |}.

Fixpoint mapResult {A B : Type} (f : A -> result B) (l : list A)
    : result (list B) :=
  match l with
  | [] => Ok []
  | x :: l' => f x >>= fun y => mapResult f l' >>= fun ys => Ok (y :: ys)
  end.

(** The callback that turns an initiative result into a combatant;
    [find(...)!] of an id that no entry has is [undefined], whose [.source]
    is a TypeError. *)
Definition combatantOf (uuid : string)
    (initiativeCombatants : list InitiativeCombatant)
    (result0 : InitiativeResult) : result Combatant :=
  match list_find (fun c => ic_id c = combatantId result0)
          initiativeCombatants with
  | None => Throw TypeError
  | Some (_, source) =>
      match ic_source source with
      | CharacterSource character =>
          Ok (createCombatantFromCharacter character result0)
      | MonsterSource monster =>
          Ok (with_name (ic_name source)
                (createCombatantFromMonster uuid monster result0
                   (ic_type source) (Some (ic_id source))))
      end
  end.

(** startCombat(characters, monsters, {allyMonsters, surprisedIds}).  Every
    [instanceId] it passes ends in a numeral, so that [uuidv4()] is called
    once, for the id of the combat. *)
Definition startCombat (rng : nat -> Z) (uuid : string)
    (characters : list Character) (monsters allyMonsters : list MonsterStatBlock)
    (surprisedIds : list string) : result Combat :=
  let initiativeCombatants0 :=
    initiativeCombatants characters monsters allyMonsters in
  let initiativeResults :=
    rollInitiative rng (fmap requestOf initiativeCombatants0) in
  mapResult (combatantOf uuid initiativeCombatants0) initiativeResults
  >>= fun combatants =>
  Ok {| combat_id := uuid;
        round := 1;
        initiativeOrder := combatants;
        currentTurnIndex := 0;
        surprisedCombatantIds := surprisedIds;
        environmentalEffects := [];
        isActive := true |}.

(* ------------------------------------------------------------------------- *)
(*  DiceEngine.ts: parseDiceNotation                                         *)
(* ------------------------------------------------------------------------- *)

Record ParsedDice : Type := {
  count : Z;
  sides : Z;
  dice_modifier : Z;
  keepHighest : option Z;
  keepLowest : option Z
}.

Fixpoint allDigits (s : string) : bool :=
  match s with
  | EmptyString => true
  | String c s' => isDigit c && allDigits s'
  end.

(** A greedy [\d*]: the longest prefix of digits, and what follows it. *)
Fixpoint takeDigits (s : string) : string * string :=
  match s with
  | EmptyString => (EmptyString, EmptyString)
  | String c s' =>
      if isDigit c
      then (String c (fst (takeDigits s')), snd (takeDigits s'))
      else (EmptyString, s)
  end.

(** A literal of the pattern: what follows [p] at the head of [s]. *)
Fixpoint dropPrefix (p s : string) : option string :=
  match p, s with
  | EmptyString, _ => Some s
  | String a p', String b s' =>
      if bool_decide (a = b) then dropPrefix p' s' else None
  | String _ _, EmptyString => None
  end.

(** The capture groups of a match of the regular expression of
    parseDiceNotation, which is anchored at both ends: a run of digits that
    may be empty (group 1, countStr), the letter d, a run of digits (group 2,
    sidesStr), optionally kh and a run of digits (group 4, keepHighStr) or kl
    and a run of digits (group 5, keepLowStr), optionally a sign and a run of
    digits (group 6, modifierStr).  A group that took no part in the match
    is [undefined], here [None]. *)
Record NotationMatch : Type := {
  countStr : string;
  sidesStr : string;
  keepHighStr : option string;
  keepLowStr : option string;
  modifierStr : option string
}.

(** [(kh(\d+)|kl(\d+))?] at the head of [s]: the two inner groups and what
    follows.  After [kh] or [kl] without a digit the group is skipped by the
    regular expression, and what follows the group starts with [k], which
    neither [[+-]] nor the end of the input matches: no match. *)
Definition matchKeep (s : string)
    : option (option string * option string * string) :=
  match dropPrefix "kh" s with
  | Some s' =>
      let '(n, rest) := takeDigits s' in
      if bool_decide (n = "") then None else Some (Some n, None, rest)
  | None =>
      match dropPrefix "kl" s with
      | Some s' =>
          let '(n, rest) := takeDigits s' in
          if bool_decide (n = "") then None else Some (None, Some n, rest)
      | None => Some (None, None, s)
      end
  end.

(** [([+-]\d+)?$] on all of [s]. *)
Definition matchModifier (s : string) : option (option string) :=
  match s with
  | EmptyString => Some None
  | String c ds =>
      if (bool_decide (c = "+"%char) || bool_decide (c = "-"%char))
         && negb (bool_decide (ds = "")) && allDigits ds
      then Some (Some s)
      else None
  end.

(** [normalized.match] of that regular expression.  No
    character that may follow a run of digits in the pattern is a digit, so
    the greedy runs are the only ones that match and the matcher never has to
    go back. *)
Definition matchNotation (normalized : string) : option NotationMatch :=
  let '(countStr0, afterCount) := takeDigits normalized in
  match dropPrefix "d" afterCount with
  | None => None
  | Some afterD =>
      let '(sidesStr0, afterSides) := takeDigits afterD in
      if bool_decide (sidesStr0 = "") then None
      else
        match matchKeep afterSides with
        | None => None
        | Some (keepHighStr0, keepLowStr0, afterKeep) =>
            match matchModifier afterKeep with
            | None => None
            | Some modifierStr0 =>
                Some {| countStr := countStr0; sidesStr := sidesStr0;
                        keepHighStr := keepHighStr0; keepLowStr := keepLowStr0;
                        modifierStr := modifierStr0 |}
            end
        end
  end.

Definition digitValue (c : ascii) : Z := Z.of_N (N_of_ascii c) - 48.

Fixpoint parseDigits (acc : Z) (s : string) : Z :=
  match s with
  | EmptyString => acc
  | String c s' => parseDigits (10 * acc + digitValue c) s'
  end.

(** The integer nearest to [n], for [n] that is not negative, among the
    integers a double holds: every integer below 2^53 and, from there on,
    those with a significand of 53 bits, [q * 2^e] with
    [2^52 <= q <= 2^53]; of two that are equally near, the one whose
    significand is even (IEEE 754 round to nearest, ties to even). *)
Definition roundToDouble (n : Z) : Z :=
  if n <? 2 ^ 53 then n
  else
    let e := Z.log2 n - 52 in
    let q := n / 2 ^ e in
    let r := n mod 2 ^ e in
    let half := 2 ^ (e - 1) in
    let q' :=
      if r <? half then q
      else if half <? r then q + 1
      else if Z.even q then q else q + 1 in
    q' * 2 ^ e.

(** The Number value of the integer [n]: the nearest double, an infinity
    when that is 2^1024 or more in magnitude. *)
Definition toNumber (n : Z) : JsNumber :=
  let v := roundToDouble (Z.abs n) in
  if v <? 2 ^ 1024 then Finite (Z.sgn n * v)
  else if n <? 0 then NegInfinity else PosInfinity.

(** [parseInt(s, 10)] on what the groups of the pattern capture: a run of
    digits, with a sign before it in the modifier; the result is the Number
    value of the integer the digits write.  (ECMAScript lets an
    implementation read the digits after the 20th as zeros; V8 reads them
    all, which is what is modelled.  The negative zero that parseInt
    returns for -0 is the integer 0.  On the empty string parseInt is NaN;
    parseDiceNotation never calls it there.) *)
Definition parseInt (s : string) : JsNumber :=
  match s with
  | EmptyString => Finite 0
  | String c s' =>
      if bool_decide (c = "-"%char) then toNumber (- parseDigits 0 s')
      else if bool_decide (c = "+"%char) then toNumber (parseDigits 0 s')
      else toNumber (parseDigits 0 s)
  end.

(** [x < 1 || x > 100]. *)
Definition outsideDice (x : JsNumber) : bool :=
  match x with
  | Finite z => (z <? 1) || (100 <? z)
  | PosInfinity => true
  | NegInfinity => true
  end.

(** A number of the ParsedDice as the integer it is, when it is one. *)
Definition theInteger (x : JsNumber) : result Z :=
  match x with
  | Finite z => Ok z
  | PosInfinity => Throw NotFinite
  | NegInfinity => Throw NotFinite
  end.

(** The same for a number that may be [undefined]. *)
Definition theIntegerIfAny (x : option JsNumber) : result (option Z) :=
  match x with
  | Some y => theInteger y >>= fun z => Ok (Some z)
  | None => Ok None
  end.

Definition parseDiceNotation (notation : string) : result ParsedDice :=
  let normalized := removeWhitespace (toLowerCase notation) in
  match matchNotation normalized with
  | None => Throw (InvalidNotation notation)
  | Some m =>
      let count0 :=
        if bool_decide (countStr m = "") then Finite 1
        else parseInt (countStr m) in
      let sides0 := parseInt (sidesStr m) in
      let modifier0 :=
        match modifierStr m with
        | Some s => parseInt s
        | None => Finite 0
        end in
      let keepHighest0 := parseInt <$> keepHighStr m in
      let keepLowest0 := parseInt <$> keepLowStr m in
      if outsideDice count0
      then Throw (InvalidDiceCount count0)
      else if outsideDice sides0
      then Throw (InvalidDiceSides sides0)
      else
        theInteger count0 >>= fun count1 =>
        theInteger sides0 >>= fun sides1 =>
        theInteger modifier0 >>= fun modifier1 =>
        theIntegerIfAny keepHighest0 >>= fun keepHighest1 =>
        theIntegerIfAny keepLowest0 >>= fun keepLowest1 =>
        Ok {| count := count1; sides := sides1; dice_modifier := modifier1;
              keepHighest := keepHighest1; keepLowest := keepLowest1 |}
  end.

(* ------------------------------------------------------------------------- *)
(*  models/types.ts: more of the data model                                  *)
(* ------------------------------------------------------------------------- *)

Inductive AdvantageStatus : Type := advantage | disadvantage | normal.

(** The keys of SKILLS. *)
Inductive Skill : Type :=
  | acrobatics | animal_handling | arcana | athletics | deception | history
  | insight | intimidation | investigation | medicine | nature | perception
  | performance | persuasion | religion | sleight_of_hand | stealth | survival.

#[global] Instance AdvantageStatus_eq_dec : EqDecision AdvantageStatus.
Proof. solve_decision. Defined.
#[global] Instance Skill_eq_dec : EqDecision Skill.
Proof. solve_decision. Defined.

(** [SKILLS[skill]]. *)
Definition SKILLS (skill : Skill) : Ability :=
  match skill with
  | acrobatics => DEX
  | animal_handling => WIS
  | arcana => INT
  | athletics => STR
  | deception => CHA
  | history => INT
  | insight => WIS
  | intimidation => CHA
  | investigation => INT
  | medicine => WIS
  | nature => INT
  | perception => WIS
  | performance => CHA
  | persuasion => CHA
  | religion => INT
  | sleight_of_hand => DEX
  | stealth => DEX
  | survival => WIS
  end.

(** [abilityScores[ability]]. *)
Definition scoreOf (scores : AbilityScores) (ability : Ability) : Z :=
  match ability with
  | STR => strength scores
  | DEX => dexterity scores
  | CON => constitution scores
  | INT => intelligence scores
  | WIS => wisdom scores
  | CHA => charisma scores
  end.

(** [Math.ceil(level / 4) + 1]; the ceiling of a quotient of integers is
    minus the floor of the quotient of the negated numerator. *)
Definition getProficiencyBonus (level : Z) : Z := - (- level / 4) + 1.

(** The [proficiencies] object of a Character. *)
Record Proficiencies : Type := {
  savingThrows : list Ability;
  skills : list Skill;
  expertise : list Skill
}.

(** interface Character, the fields the dice engine reads. *)
Record CharacterSheet : Type := {
  sheet_id : string;
  sheet_name : string;
  sheet_level : Z;
  sheet_abilityScores : AbilityScores;
  proficiencies : Proficiencies
}.

(* ------------------------------------------------------------------------- *)
(*  DiceEngine.ts: the rolls                                                 *)
(* ------------------------------------------------------------------------- *)

(** A loop that pushes [n] times [rollDie(sides)]: the i-th die is read from
    the word [rng (start + i)]. *)
Definition rollDice (rng : nat -> Z) (start n : nat) (sides0 : Z) : list Z :=
  (fun i => rollDie sides0 (rng (start + i)%nat)) <$> seq 0 n.

(** [rolls.reduce((acc, val) => acc + val, 0)]. *)
Definition sumOf (rolls0 : list Z) : Z := foldl Z.add 0 rolls0.




Record D20Result : Type := {
  d20_roll : Z;
  d20_rolls : list Z;
  hadAdvantage : bool;
  hadDisadvantage : bool
}.

(** DiceEngine.rollD20: the first die is read from [word1], and the second,
    which a normal roll does not throw, from [word2]. *)
Definition rollD20 (word1 word2 : Z) (advantageStatus : AdvantageStatus)
    : D20Result :=
  let roll1 := rollDie 20 word1 in
  match advantageStatus with
  | normal =>
      {| d20_roll := roll1; d20_rolls := [roll1];
         hadAdvantage := false; hadDisadvantage := false |}
  | advantage =>
      let roll2 := rollDie 20 word2 in
      {| d20_roll := Z.max roll1 roll2; d20_rolls := [roll1; roll2];
         hadAdvantage := true; hadDisadvantage := false |}
  | disadvantage =>
      let roll2 := rollDie 20 word2 in
      {| d20_roll := Z.min roll1 roll2; d20_rolls := [roll1; roll2];
         hadAdvantage := false; hadDisadvantage := true |}
  end.

(** [let success = total >= dc; if (isCriticalSuccess) success = true;
    if (isCriticalFailure) success = false], shared by the ability check,
    the saving throw and the attack. *)
Definition succeeds (roll0 total0 dc : Z) : bool :=
  let success := dc <=? total0 in
  let success := if roll0 =? 20 then true else success in
  if roll0 =? 1 then false else success.

Record AbilityCheckResult : Type := {
  chk_characterId : string;
  chk_characterName : string;
  chk_ability : Ability;
  chk_skill : option Skill;
  chk_roll : Z;
  chk_modifier : Z;
  chk_proficiencyBonus : Z;
  chk_total : Z;
  chk_dc : Z;
  chk_success : bool;
  chk_isCriticalSuccess : bool;
  chk_isCriticalFailure : bool;
  chk_hadAdvantage : bool;
  chk_hadDisadvantage : bool
}.

(** DiceEngine.rollAbilityCheck(character, ability, dc, {skill,
    advantageStatus}). *)
Definition rollAbilityCheck (word1 word2 : Z) (character : CharacterSheet)
    (ability : Ability) (dc : Z) (skill : option Skill)
    (advantageStatus : AdvantageStatus) : AbilityCheckResult :=
  let d20Result := rollD20 word1 word2 advantageStatus in
  let abilityMod :=
    getAbilityModifier (scoreOf (sheet_abilityScores character) ability) in
  let profBonus := getProficiencyBonus (sheet_level character) in
  let skillModifier :=
    match skill with
    | Some s =>
        if negb (bool_decide (SKILLS s = ability))
        then getAbilityModifier
               (scoreOf (sheet_abilityScores character) (SKILLS s))
        else abilityMod
    | None => abilityMod
    end in
  let proficiencyBonus :=
    match skill with
    | Some s =>
        if bool_decide (s ∈ expertise (proficiencies character))
        then profBonus * 2
        else if bool_decide (s ∈ skills (proficiencies character))
        then profBonus
        else 0
    | None => 0
    end in
  let total0 := d20_roll d20Result + skillModifier + proficiencyBonus in
  {| chk_characterId := sheet_id character;
     chk_characterName := sheet_name character;
     chk_ability := ability;
     chk_skill := skill;
     chk_roll := d20_roll d20Result;
     chk_modifier := skillModifier;
     chk_proficiencyBonus := proficiencyBonus;
     chk_total := total0;
     chk_dc := dc;
     chk_success := succeeds (d20_roll d20Result) total0 dc;
     chk_isCriticalSuccess := d20_roll d20Result =? 20;
     chk_isCriticalFailure := d20_roll d20Result =? 1;
     chk_hadAdvantage := hadAdvantage d20Result;
     chk_hadDisadvantage := hadDisadvantage d20Result |}.

Record SavingThrowResult : Type := {
  sav_characterId : string;
  sav_characterName : string;
  sav_ability : Ability;
  sav_roll : Z;
  sav_modifier : Z;
  sav_proficiencyBonus : Z;
  sav_total : Z;
  sav_dc : Z;
  sav_success : bool;
  sav_isCriticalSuccess : bool;
  sav_isCriticalFailure : bool;
  sav_hadAdvantage : bool;
  sav_hadDisadvantage : bool
}.

(** DiceEngine.rollSavingThrow. *)
Definition rollSavingThrow (word1 word2 : Z) (character : CharacterSheet)
    (ability : Ability) (dc : Z) (advantageStatus : AdvantageStatus)
    : SavingThrowResult :=
  let d20Result := rollD20 word1 word2 advantageStatus in
  let abilityMod :=
    getAbilityModifier (scoreOf (sheet_abilityScores character) ability) in
  let profBonus := getProficiencyBonus (sheet_level character) in
  let proficiencyBonus :=
    if bool_decide (ability ∈ savingThrows (proficiencies character))
    then profBonus else 0 in
  let total0 := d20_roll d20Result + abilityMod + proficiencyBonus in
  {| sav_characterId := sheet_id character;
     sav_characterName := sheet_name character;
     sav_ability := ability;
     sav_roll := d20_roll d20Result;
     sav_modifier := abilityMod;
     sav_proficiencyBonus := proficiencyBonus;
     sav_total := total0;
     sav_dc := dc;
     sav_success := succeeds (d20_roll d20Result) total0 dc;
     sav_isCriticalSuccess := d20_roll d20Result =? 20;
     sav_isCriticalFailure := d20_roll d20Result =? 1;
     sav_hadAdvantage := hadAdvantage d20Result;
     sav_hadDisadvantage := hadDisadvantage d20Result |}.

Record AttackRollResult : Type := {
  atk_attackerId : string;
  atk_attackerName : string;
  atk_targetId : string;
  atk_targetName : string;
  atk_weapon : string;
  atk_roll : Z;
  atk_attackBonus : Z;
  atk_total : Z;
  atk_targetAC : Z;
  hits : bool;
  isCriticalHit : bool;
  isCriticalMiss : bool;
  atk_hadAdvantage : bool;
  atk_hadDisadvantage : bool
}.

(** DiceEngine.rollAttack. *)
Definition rollAttack (word1 word2 : Z)
    (attackerId attackerName targetId targetName : string)
    (targetAC attackBonus : Z) (weapon : string)
    (advantageStatus : AdvantageStatus) : AttackRollResult :=
  let d20Result := rollD20 word1 word2 advantageStatus in
  let total0 := d20_roll d20Result + attackBonus in
  {| atk_attackerId := attackerId;
     atk_attackerName := attackerName;
     atk_targetId := targetId;
     atk_targetName := targetName;
     atk_weapon := weapon;
     atk_roll := d20_roll d20Result;
     atk_attackBonus := attackBonus;
     atk_total := total0;
     atk_targetAC := targetAC;
     hits := succeeds (d20_roll d20Result) total0 targetAC;
     isCriticalHit := d20_roll d20Result =? 20;
     isCriticalMiss := d20_roll d20Result =? 1;
     atk_hadAdvantage := hadAdvantage d20Result;
     atk_hadDisadvantage := hadDisadvantage d20Result |}.





Record DeathSaveResult : Type := {
  ds_roll : Z;
  ds_success : bool;
  stable : bool;
  dead : bool;
  newSuccesses : Z;
  newFailures : Z
}.

(** DiceEngine.rollDeathSave. *)
Definition rollDeathSave (word : Z) (currentSuccesses currentFailures : Z)
    : DeathSaveResult :=
  let roll0 := rollDie 20 word in
  if roll0 =? 20 then
    {| ds_roll := roll0; ds_success := true; stable := true; dead := false;
       newSuccesses := 3; newFailures := currentFailures |}
  else if roll0 =? 1 then
    let newFailures0 := currentFailures + 2 in
    {| ds_roll := roll0; ds_success := false; stable := false;
       dead := 3 <=? newFailures0;
       newSuccesses := currentSuccesses;
       newFailures := Z.min newFailures0 3 |}
  else if 10 <=? roll0 then
    let newSuccesses0 := currentSuccesses + 1 in
    {| ds_roll := roll0; ds_success := true;
       stable := 3 <=? newSuccesses0; dead := false;
       newSuccesses := Z.min newSuccesses0 3;
       newFailures := currentFailures |}
  else
    let newFailures0 := currentFailures + 1 in
    {| ds_roll := roll0; ds_success := false; stable := false;
       dead := 3 <=? newFailures0;
       newSuccesses := currentSuccesses;
       newFailures := Z.min newFailures0 3 |}.

Record AbilityScoreRoll : Type := {
  as_rolls : list Z;
  dropped : Z;
  as_total : Z
}.

(** DiceEngine.rollAbilityScore, its four dice read from the words
    [start .. start + 3].  An index outside an array reads [undefined]; the
    sorted array has four elements, so none is, and [!!!] never takes its
    default. *)
Definition rollAbilityScore (rng : nat -> Z) (start : nat) : AbilityScoreRoll :=
  let rolls0 := sort (fun a b => b - a) (rollDice rng start 4 6) in
  {| as_rolls := rolls0;
     dropped := rolls0 !!! 3%nat;
     as_total := rolls0 !!! 0%nat + rolls0 !!! 1%nat + rolls0 !!! 2%nat |}.

(** DiceEngine.rollAbilityScoreSet: (scores, details). *)
Definition rollAbilityScoreSet (rng : nat -> Z)
    : list Z * list AbilityScoreRoll :=
  let details :=
    (fun i => rollAbilityScore rng (4 * i)) <$> seq 0 6 in
  (as_total <$> details, details).

(* ------------------------------------------------------------------------- *)
(*  CombatEngine.ts: the remaining queries                                   *)
(* ------------------------------------------------------------------------- *)

Definition getActiveCombatantsByType (combat : Combat) (type0 : CombatantType)
    : list Combatant :=
  List.filter (fun c => bool_decide (type c = type0)
                        && bool_decide (status c = active))
    (initiativeOrder combat).

(* ------------------------------------------------------------------------- *)
(*  The notation as the specification words it                               *)
(* ------------------------------------------------------------------------- *)

(** [kh<N>|kl<N>], or neither. *)
Inductive Keep : Type :=
  | KeepAll
  | KeepHigh (n : string)
  | KeepLow (n : string).

(** The parts of [[count]d<sides>[kh<N>|kl<N>][+|-modifier]]: the numerals
    as they are written; the sign of the modifier is [true] for [-]. *)
Record Notation : Type := {
  n_count : option string;
  n_sides : string;
  n_keep : Keep;
  n_modifier : option (bool * string)
}.

(** A numeral: one decimal digit or more. *)
Definition numeral (s : string) : Prop := s <> "" /\ allDigits s = true.

Definition wellFormed (n : Notation) : Prop :=
  match n_count n with Some c => numeral c | None => True end
  /\ numeral (n_sides n)
  /\ match n_keep n with
     | KeepAll => True
     | KeepHigh k => numeral k
     | KeepLow k => numeral k
     end
  /\ match n_modifier n with Some (_, m) => numeral m | None => True end.

Definition writtenKeep (k : Keep) : string :=
  match k with
  | KeepAll => ""
  | KeepHigh n => "kh" +:+ n
  | KeepLow n => "kl" +:+ n
  end.

Definition writtenModifier (m : option (bool * string)) : string :=
  match m with
  | None => ""
  | Some (true, ds) => "-" +:+ ds
  | Some (false, ds) => "+" +:+ ds
  end.

(** The text of a notation. *)
Definition written (n : Notation) : string :=
  default "" (n_count n) +:+ "d" +:+ n_sides n
  +:+ writtenKeep (n_keep n) +:+ writtenModifier (n_modifier n).

(** The number a numeral denotes: each digit weighs ten to the power of the
    number of digits after it. *)
Fixpoint numeralValue (s : string) : Z :=
  match s with
  | EmptyString => 0
  | String c s' => digitValue c * 10 ^ Z.of_nat (String.length s') + numeralValue s'
  end.

(** What the specification has parse return for a notation. *)
Definition countOf (n : Notation) : Z :=
  match n_count n with Some c => numeralValue c | None => 1 end.

Definition sidesOf (n : Notation) : Z := numeralValue (n_sides n).

Definition parsedOf (n : Notation) : ParsedDice :=
  {| count := countOf n;
     sides := sidesOf n;
     dice_modifier :=
       match n_modifier n with
       | None => 0
       | Some (true, m) => - numeralValue m
       | Some (false, m) => numeralValue m
       end;
     keepHighest :=
       match n_keep n with KeepHigh k => Some (numeralValue k) | _ => None end;
     keepLowest :=
       match n_keep n with KeepLow k => Some (numeralValue k) | _ => None end |}.

(** [notation], lowercased and without whitespace, is the text of the
    well-formed notation [n]. *)
Definition denotes (notation : string) (n : Notation) : Prop :=
  wellFormed n /\ removeWhitespace (toLowerCase notation) = written n.

(** The numeral is read as a finite number: the double nearest to what it
    writes is below 2^1024. *)
Definition finiteNumeral (s : string) : bool :=
  roundToDouble (numeralValue s) <? 2 ^ 1024.

(** The numerals of the keep count and of the modifier are read as finite
    numbers. *)
Definition finiteNumerals (n : Notation) : bool :=
  match n_keep n with
  | KeepAll => true
  | KeepHigh k => finiteNumeral k
  | KeepLow k => finiteNumeral k
  end
  && match n_modifier n with
     | Some (_, m) => finiteNumeral m
     | None => true
     end.

(** The numerals of the keep count and of the modifier write integers that
    a double holds as they are: none is above 2^53. *)
Definition exactNumerals (n : Notation) : Prop :=
  match n_keep n with
  | KeepAll => True
  | KeepHigh k => numeralValue k <= 2 ^ 53
  | KeepLow k => numeralValue k <= 2 ^ 53
  end
  /\ match n_modifier n with
     | Some (_, m) => numeralValue m <= 2 ^ 53
     | None => True
     end.

(** What the code returns for a notation whose count and sides are within
    1..100 and whose other numerals are read as finite numbers: the modifier
    and the keep count are the doubles nearest to what is written. *)
Definition returnedFor (n : Notation) : ParsedDice :=
  {| count := countOf n;
     sides := sidesOf n;
     dice_modifier :=
       match n_modifier n with
       | None => 0
       | Some (true, m) => - roundToDouble (numeralValue m)
       | Some (false, m) => roundToDouble (numeralValue m)
       end;
     keepHighest :=
       match n_keep n with
       | KeepHigh k => Some (roundToDouble (numeralValue k))
       | _ => None
       end;
     keepLowest :=
       match n_keep n with
       | KeepLow k => Some (roundToDouble (numeralValue k))
       | _ => None
       end |}.

(* ------------------------------------------------------------------------- *)
(*  The combat state machine                                                 *)
(* ------------------------------------------------------------------------- *)

(** The operations of CombatEngine that take a Combat and return one. *)
Inductive Operation : Type :=
  | NextTurn
  | ProcessEndOfRound
  | ApplyDamage (targetId : string) (amount : Z) (damageType : DamageType)
      (source : string)
  | ApplyHealing (targetId : string) (amount : Z) (source : string)
  | AddCondition (targetId : string) (condition : ActiveCondition)
  | RemoveCondition (targetId : string) (conditionName : ConditionType)
  | UseAction (combatantId : string)
  | UseBonusAction (combatantId : string)
  | UseReaction (combatantId : string)
  | UseMovement (combatantId : string) (amount : Z)
  | Flee (combatantId : string)
  | AddTempHp (targetId : string) (amount : Z)
  | AddEnvironmentalEffect (effect : string)
  | RemoveEnvironmentalEffect (effect : string)
  | EndCombat (outcome : CombatOutcome).

(** The Combat an operation returns. *)
Definition perform (op : Operation) (combat : Combat) : result Combat :=
  match op with
  | NextTurn => nextTurn combat
  | ProcessEndOfRound => Ok (processEndOfRound combat)
  | ApplyDamage targetId amount damageType source =>
      applyDamage combat targetId amount damageType source
      >>= fun r => Ok (dmg_combat r)
  | ApplyHealing targetId amount source =>
      applyHealing combat targetId amount source
      >>= fun r => Ok (heal_combat r)
  | AddCondition targetId condition => addCondition combat targetId condition
  | RemoveCondition targetId conditionName =>
      removeCondition combat targetId conditionName
  | UseAction combatantId => Ok (useAction combat combatantId)
  | UseBonusAction combatantId => Ok (useBonusAction combat combatantId)
  | UseReaction combatantId => Ok (useReaction combat combatantId)
  | UseMovement combatantId amount => Ok (useMovement combat combatantId amount)
  | Flee combatantId => Ok (flee combat combatantId)
  | AddTempHp targetId amount => Ok (addTempHp combat targetId amount)
  | AddEnvironmentalEffect effect => Ok (addEnvironmentalEffect combat effect)
  | RemoveEnvironmentalEffect effect =>
      Ok (removeEnvironmentalEffect combat effect)
  | EndCombat outcome => Ok (end_combat (endCombat combat outcome))
  end.

(** nextTurn called [k] times in a row. *)
Fixpoint nextTurns (k : nat) (combat : Combat) : result Combat :=
  match k with
  | O => Ok combat
  | S k' => nextTurn combat >>= nextTurns k'
  end.

(** The bounds of a combatant: 0 <= currentHp <= maxHp, tempHp >= 0 and
    movementRemaining >= 0. *)
Definition withinBounds (c : Combatant) : Prop :=
  0 <= currentHp c <= maxHp c
  /\ 0 <= tempHp c
  /\ 0 <= movementRemaining (turnResources c).

(** The healing or temporary-HP amount of an operation is not negative. *)
Definition nonNegativeAmount (op : Operation) : Prop :=
  match op with
  | ApplyHealing _ amount _ => 0 <= amount
  | AddTempHp _ amount => 0 <= amount
  | _ => True
  end.

(** At most one ActiveCondition per condition name. *)
Definition noStacking (c : Combatant) : Prop :=
  NoDup (fmap cond_name (conditions c)).

(* ------------------------------------------------------------------------- *)
(*  Counting generator words                                                 *)
(* ------------------------------------------------------------------------- *)

(** How many of the words 0, 1, ..., n - 1 satisfy [P]. *)
Definition countBelow (P : Z -> bool) (n : N) : Z :=
  N.peano_rect (fun _ => Z) 0
    (fun k acc => if P (Z.of_N k) then acc + 1 else acc) n.

(** How many of the 2^32 words a Uint32Array element can hold make
    randomInt min max return [v]. *)
Definition wordsYielding (min max v : Z) : Z :=
  countBelow (fun word => randomInt min max word =? v) (2 ^ 32)%N.

(** The 1-based rank of [monsters[i]] among the monsters of its name: how
    many of [monsters[0..i]] have that name. *)
Definition ordinalAmongSameName (monsters : list MonsterStatBlock) (i : nat)
    (monster : MonsterStatBlock) : nat :=
  length (List.filter (fun m => bool_decide (mon_name m = mon_name monster))
            (take (S i) monsters)).

(* ------------------------------------------------------------------------- *)
(*  Predicates on combats used in the proofs                                 *)
(* ------------------------------------------------------------------------- *)

(** The bounds, and a speed that is not negative (what nextTurn resets the
    movement to). *)
Definition bounded (c : Combatant) : Prop := withinBounds c /\ 0 <= speed c.

(** What a combat keeps while its turn advances: everything but the round,
    the index, the conditions and the turn resources. *)
Definition sameEncounter (c c' : Combat) : Prop :=
  isActive c' = isActive c
  /\ surprisedCombatantIds c' = surprisedCombatantIds c
  /\ length (initiativeOrder c') = length (initiativeOrder c)
  /\ status <$> initiativeOrder c' = status <$> initiativeOrder c
  /\ id <$> initiativeOrder c' = id <$> initiativeOrder c
  /\ round c <= round c'.

(** The combat nextTurn returns, or passes to itself, once the loop has
    landed on [cur] at [j]. *)
Definition landOn (j : nat) (r : Z) (cur : Combatant) (c1 : Combat) : Combat :=
  with_turn r j
    (<[j := with_turnResources (createDefaultTurnResources (speed cur)) cur]>
       (initiativeOrder c1))
    c1.


(* ------------------------------------------------------------------------- *)
(*  Fixtures: the mock character and monster of CombatEngine.test.ts         *)
(* ------------------------------------------------------------------------- *)

Definition mockCharacter (id0 : string) : Character :=
  {| char_id := id0;
     char_name := "Test Hero";
     char_abilityScores :=
       {| strength := 16; dexterity := 14; constitution := 14;
          intelligence := 10; wisdom := 12; charisma := 8 |};
     char_maxHp := 45;
     char_currentHp := 45;
     char_tempHp := 0;
     char_armorClass := 18;
     char_speed := 30;
     char_conditions := [] |}.

Definition mockMonster (name0 : string) : MonsterStatBlock :=
  {| mon_name := name0;
     mon_armorClass := 15;
     hitPoints := 7;
     mon_walk := 30;
     mon_abilityScores :=
       {| strength := 8; dexterity := 14; constitution := 10;
          intelligence := 10; wisdom := 8; charisma := 8 |} |}.

Definition asleep : ActiveCondition :=
  {| cond_name := unconscious;
     cond_source := "sleep";
     duration := {| dur_type := rounds; dur_value := Some 10;
                    dur_ability := None; dur_restType := None |} |}.

Definition duel : Combat :=
  {| combat_id := "duel";
     round := 1;
     initiativeOrder :=
       [ createCombatantFromCharacter (mockCharacter "hero")
           {| combatantId := "hero"; combatantName := "Test Hero";
              roll := 15; modifier := 2; total := 17 |};
         createCombatantFromMonster "" (mockMonster "Goblin")
           {| combatantId := "goblin_1"; combatantName := "Goblin";
              roll := 9; modifier := 2; total := 11 |}
           enemy (Some "goblin_1") ];
     currentTurnIndex := 0;
     surprisedCombatantIds := [];
     environmentalEffects := [];
     isActive := true |}.

Definition forRounds (name0 : ConditionType) (n : Z) : ActiveCondition :=
  {| cond_name := name0; cond_source := "test";
     duration := {| dur_type := rounds; dur_value := Some n;
                    dur_ability := None; dur_restType := None |} |}.

Definition untilDispelledCondition (name0 : ConditionType) : ActiveCondition :=
  {| cond_name := name0; cond_source := "test";
     duration := {| dur_type := untilDispelled; dur_value := None;
                    dur_ability := None; dur_restType := None |} |}.

(** What a test reads of the combatant [id0]. *)
Definition hpOf (id0 : string) (combat : Combat)
    : option (Z * Z * CombatantStatus * list ConditionType) :=
  (fun c => (currentHp c, tempHp c, status c, cond_name <$> conditions c))
    <$> getCombatant combat id0.

(** What a test reads of the conditions of the combatant [id0]. *)
Definition conditionsOf (id0 : string) (combat : Combat)
    : option (list (ConditionType * option Z)) :=
  (fun c => (fun k => (cond_name k, dur_value (duration k))) <$> conditions c)
    <$> getCombatant combat id0.

(* ------------------------------------------------------------------------- *)
(*  Definitions used in the statements about startCombat and the parser      *)
(* ------------------------------------------------------------------------- *)

(** How many of [monsters] have the name of [monster]. *)
Definition sameNameCount (monsters : list MonsterStatBlock)
    (monster : MonsterStatBlock) : nat :=
  length (List.filter (fun m => bool_decide (mon_name m = mon_name monster))
            monsters).

(** The id startCombat gives [monsters[i]]. *)
Definition enemyId (i : nat) (monster : MonsterStatBlock) : string :=
  underscoreRuns false (toLowerCase (mon_name monster))
  +:+ "_" +:+ decimal (i + 1).

(** [s] does not start with a digit. *)
Definition noDigitHead (s : string) : Prop :=
  match s with
  | EmptyString => True
  | String c _ => isDigit c = false
  end.

(** The groups the regular expression captures on the text of [n]. *)
Definition groupsOf (n : Notation) : NotationMatch :=
  {| countStr := default "" (n_count n);
     sidesStr := n_sides n;
     keepHighStr := match n_keep n with KeepHigh k => Some k | _ => None end;
     keepLowStr := match n_keep n with KeepLow k => Some k | _ => None end;
     modifierStr :=
       match n_modifier n with
       | None => None
       | Some m => Some (writtenModifier (Some m))
       end |}.

(** [count] or [sides] within 1..100. *)
Definition inRange (x : Z) : Prop := 1 <= x <= 100.

(* ------------------------------------------------------------------------- *)
(*  Predicates on combats used in further statements                         *)
(* ------------------------------------------------------------------------- *)

(** What makes a combatant the participant it is: the fields no operation of
    the engine writes. *)
Definition participant (c : Combatant) :=
  (id c, name c, type c, initiative c, maxHp c, armorClass c, speed c,
   position c, sourceId c, isPlayer c).

(** The second combat is a later state of the encounter of the first: the
    same combat id, surprised ids and participants in the same order, a
    round that is not earlier, and not active again once it is ended. *)
Definition laterState (c c' : Combat) : Prop :=
  combat_id c' = combat_id c
  /\ surprisedCombatantIds c' = surprisedCombatantIds c
  /\ participant <$> initiativeOrder c' = participant <$> initiativeOrder c
  /\ round c <= round c'
  /\ (isActive c = false -> isActive c' = false).

(** The operations of a list performed one after the other, up to the first
    that raises. *)
Fixpoint performAll (ops : list Operation) (combat : Combat) : result Combat :=
  match ops with
  | [] => Ok combat
  | op :: ops' => perform op combat >>= performAll ops'
  end.

(** The characters and monsters startCombat is meant for: current HP
    between 0 and the maximum, temporary HP, hit points and speeds that are
    not negative. *)
Definition saneCharacter (character : Character) : Prop :=
  0 <= char_currentHp character <= char_maxHp character
  /\ 0 <= char_tempHp character
  /\ 0 <= char_speed character.

Definition saneMonster (monster : MonsterStatBlock) : Prop :=
  0 <= hitPoints monster /\ 0 <= mon_walk monster.

(** What processEndOfRound, called [k] times with [k] positive, leaves of a
    condition: one that is not counted in rounds stays as it is, and one
    that is counted in rounds stays, with [k] rounds less, when it had more
    than [k] rounds to run. *)
Definition afterRounds (k : Z) (condition : ActiveCondition)
    : option ActiveCondition :=
  if bool_decide (dur_type (duration condition) = rounds) then
    match dur_value (duration condition) with
    | Some v =>
        if k <? v
        then Some (with_duration (with_value (Some (v - k)) (duration condition))
                     condition)
        else None
    | None => None
    end
  else Some condition.

(** A player stands: a combatant that is a player, of status active, with
    current HP above 0. *)
Definition playerStands (combat : Combat) : Prop :=
  exists c, c ∈ initiativeOrder combat
            /\ isPlayer c = true /\ status c = active /\ 0 < currentHp c.

(** An enemy is active: a combatant of type enemy and of status active. *)
Definition enemyActive (combat : Combat) : Prop :=
  exists c, c ∈ initiativeOrder combat /\ type c = enemy /\ status c = active.

(* ========================================================================= *)
(*  Proofs                                                                   *)
(* ========================================================================= *)

(* ------------------------------------------------------------------------- *)
(*  Tests of DiceEngine.test.ts and CombatEngine.test.ts, on the embedding    *)
(* ------------------------------------------------------------------------- *)

Example test_parse_notations :
  parseDiceNotation <$> ["1d20"; "2d6+3"; "1d8-2"; "d20"; "4d6kh3"; "2d20kl1"]
  = [ Ok {| count := 1; sides := 20; dice_modifier := 0;
            keepHighest := None; keepLowest := None |};
      Ok {| count := 2; sides := 6; dice_modifier := 3;
            keepHighest := None; keepLowest := None |};
      Ok {| count := 1; sides := 8; dice_modifier := -2;
            keepHighest := None; keepLowest := None |};
      Ok {| count := 1; sides := 20; dice_modifier := 0;
            keepHighest := None; keepLowest := None |};
      Ok {| count := 4; sides := 6; dice_modifier := 0;
            keepHighest := Some 3; keepLowest := None |};
      Ok {| count := 2; sides := 20; dice_modifier := 0;
            keepHighest := None; keepLowest := Some 1 |} ].
Proof. reflexivity. Qed.

Example test_parse_case_and_whitespace :
  parseDiceNotation <$> ["2D6+3"; " 2d6 + 3 "]
  = [ Ok {| count := 2; sides := 6; dice_modifier := 3;
            keepHighest := None; keepLowest := None |};
      Ok {| count := 2; sides := 6; dice_modifier := 3;
            keepHighest := None; keepLowest := None |} ].
Proof. reflexivity. Qed.

(** The doubles nearest to some integers: exact up to 2^53, then to the
    nearest even significand on a tie (2^53 + 1 goes down, 2^53 + 3 goes up),
    the largest double, and the first integer that is read as Infinity,
    2^1024 - 2^970. *)
Example test_toNumber :
  toNumber <$> [ 0; -7; 9007199254740992; 9007199254740993; 9007199254740995;
                 -9007199254740993; 99999999999999999999;
                 2 ^ 1024 - 2 ^ 971; 2 ^ 1024 - 2 ^ 970 - 1;
                 2 ^ 1024 - 2 ^ 970; - (2 ^ 1024 - 2 ^ 970) ]
  = [ Finite 0; Finite (-7); Finite 9007199254740992; Finite 9007199254740992;
      Finite 9007199254740996; Finite (-9007199254740992);
      Finite 100000000000000000000;
      Finite (2 ^ 1024 - 2 ^ 971); Finite (2 ^ 1024 - 2 ^ 971);
      PosInfinity; NegInfinity ].
Proof. vm_compute. reflexivity. Qed.

Example test_parse_errors :
  parseDiceNotation <$> ["invalid"; "2d"; "d"; "1000d6"; "1d1000"]
  = [ Throw (InvalidNotation "invalid"); Throw (InvalidNotation "2d");
      Throw (InvalidNotation "d"); Throw (InvalidDiceCount (Finite 1000));
      Throw (InvalidDiceSides (Finite 1000)) ].
Proof. reflexivity. Qed.

Example test_applyDamage_reduces_hp :
  (applyDamage duel "hero" 10 slashing "sword"
   >>= fun r => Ok (hpOf "hero" (dmg_combat r), actualDamage r))
  = Ok (Some (35, 0, active, []), 10).
Proof. reflexivity. Qed.

Example test_applyDamage_depletes_temp_hp_first :
  (applyDamage (addTempHp duel "hero" 10) "hero" 15 slashing "hit"
   >>= fun r => Ok (hpOf "hero" (dmg_combat r), actualDamage r))
  = Ok (Some (40, 0, active, []), 15).
Proof. reflexivity. Qed.

Example test_applyDamage_downs_players_and_defeats_monsters :
  (applyDamage duel "hero" 45 slashing "knockout"
   >>= fun r => Ok (hpOf "hero" (dmg_combat r), wasDowned r))
  = Ok (Some (0, 0, active, [unconscious]), true)
  /\ (applyDamage duel "goblin_1" 1000 slashing "fatal hit"
      >>= fun r => Ok (hpOf "goblin_1" (dmg_combat r), wasDowned r))
     = Ok (Some (0, 0, defeated, []), false).
Proof. split; reflexivity. Qed.

Example test_applyDamage_invalid_target :
  applyDamage duel "invalid-id" 10 slashing "test"
  = Throw (CombatantNotFound "invalid-id").
Proof. reflexivity. Qed.

Example test_applyHealing_caps_and_revives :
  (applyDamage duel "hero" 25 slashing "hit"
   >>= fun d => applyHealing (dmg_combat d) "hero" 100 "mega heal"
   >>= fun h => Ok (hpOf "hero" (heal_combat h), actualHealing h))
  = Ok (Some (45, 0, active, []), 25)
  /\ (applyDamage duel "hero" 45 slashing "knockout"
      >>= fun d => applyHealing (dmg_combat d) "hero" 5 "cure wounds"
      >>= fun h => Ok (hpOf "hero" (heal_combat h), wasRevived h))
     = Ok (Some (5, 0, active, []), true).
Proof. split; reflexivity. Qed.

Example test_addCondition_no_stacking_longer_wins :
  (addCondition duel "hero" (forRounds poisoned 3)
   >>= fun c => addCondition c "hero" (forRounds poisoned 3)
   >>= fun c => Ok (conditionsOf "hero" c))
  = Ok (Some [(poisoned, Some 3)])
  /\ (addCondition duel "hero" (forRounds frightened 1)
      >>= fun c => addCondition c "hero" (forRounds frightened 5)
      >>= fun c => Ok (conditionsOf "hero" c))
     = Ok (Some [(frightened, Some 5)])
  /\ (addCondition duel "hero" (forRounds frightened 5)
      >>= fun c => addCondition c "hero" (forRounds frightened 1)
      >>= fun c => Ok (conditionsOf "hero" c))
     = Ok (Some [(frightened, Some 5)]).
Proof. repeat split; reflexivity. Qed.

Example test_processEndOfRound :
  (addCondition duel "hero" (forRounds poisoned 3)
   >>= fun c => addCondition c "hero" (forRounds prone 1)
   >>= fun c => addCondition c "hero" (untilDispelledCondition charmed)
   >>= fun c => Ok (conditionsOf "hero" (processEndOfRound c),
                    round (processEndOfRound c)))
  = Ok (Some [(poisoned, Some 2); (charmed, None)], 2).
Proof. reflexivity. Qed.

Example test_useMovement :
  (fun c => movementRemaining (turnResources c))
    <$> getCombatant (useMovement duel "hero" 15) "hero" = Some 15
  /\ (fun c => movementRemaining (turnResources c))
       <$> getCombatant (useMovement duel "hero" 100) "hero" = Some 0.
Proof. split; reflexivity. Qed.

Example test_nextTurn_wraps_into_round_2 :
  (nextTurns 2 duel >>= fun c => Ok (currentTurnIndex c, round c))
  = Ok (0%nat, 2).
Proof. reflexivity. Qed.

Example test_checkCombatEnd_victory :
  (applyDamage duel "goblin_1" 1000 slashing "test"
   >>= fun r => Ok (checkCombatEnd (dmg_combat r)))
  = Ok (true, Some victory).
Proof. reflexivity. Qed.

(* ------------------------------------------------------------------------- *)
(*  Looking a combatant up                                                   *)
(* ------------------------------------------------------------------------- *)

Lemma findCombatant_Some targetId order i c :
  findCombatant targetId order = Some (i, c) ->
  order !! i = Some c /\ id c = targetId.
Proof.
  unfold findCombatant. intros H.
  apply list_find_Some in H as (H1 & H2 & _). auto.
Qed.

Lemma findCombatant_present targetId (order : list Combatant) :
  targetId ∈ id <$> order ->
  exists i c, findCombatant targetId order = Some (i, c).
Proof.
  intros H. apply list_elem_of_fmap in H as (c & -> & Hc).
  destruct (list_find_elem_of (fun x => id x = id c) order c Hc eq_refl)
    as [[i c'] H].
  exists i, c'. exact H.
Qed.

Lemma findCombatant_insert targetId order i c c' :
  findCombatant targetId order = Some (i, c) ->
  id c' = targetId ->
  findCombatant targetId (<[i := c']> order) = Some (i, c').
Proof.
  unfold findCombatant. intros H Hid.
  apply list_find_Some in H as (Hi & _ & Hleast).
  apply list_find_insert_Some. right. left.
  split_and!; eauto using lookup_lt_Some.
Qed.

Lemma getCombatant_insert combat targetId i c c' :
  findCombatant targetId (initiativeOrder combat) = Some (i, c) ->
  id c' = targetId ->
  getCombatant (with_initiativeOrder (<[i := c']> (initiativeOrder combat)) combat)
    targetId = Some c'.
Proof.
  intros H Hid. unfold getCombatant. simpl.
  rewrite (findCombatant_insert _ _ _ _ _ H Hid). reflexivity.
Qed.

(* ------------------------------------------------------------------------- *)
(*  applyDamage                                                              *)
(* ------------------------------------------------------------------------- *)

Lemma depleteTempHp_total remainingDamage tempHp0 :
  0 <= remainingDamage ->
  let '(remaining, actual, newTempHp) := depleteTempHp remainingDamage tempHp0 in
  remaining + actual = remainingDamage
  /\ 0 <= remaining
  /\ (0 <= tempHp0 -> 0 <= newTempHp)
  /\ actual = tempHp0 - newTempHp.
Proof.
  intros H. unfold depleteTempHp.
  destruct (0 <? tempHp0) eqn:E1; [destruct (tempHp0 <=? remainingDamage) eqn:E2|];
    lia.
Qed.

(** In every case applyDamage reports the whole amount it was asked to
    deal, clamped below at 0, whatever the target could lose. *)
Lemma applyDamage_actualDamage combat targetId amount damageType source r :
  applyDamage combat targetId amount damageType source = Ok r ->
  actualDamage r = Z.max 0 amount.
Proof.
  unfold applyDamage.
  destruct (findCombatant targetId (initiativeOrder combat)) as [[i target]|];
    [|discriminate].
  pose proof (depleteTempHp_total (Z.max 0 amount) (tempHp target)
                ltac:(lia)) as H.
  destruct (depleteTempHp (Z.max 0 amount) (tempHp target)) as [[rem act] tmp].
  intros [= <-]. simpl. lia.
Qed.

(** Claim C1 (a defect of the code).  The claim: the actualDamage that
    applyDamage returns is the HP absorbed across temporary and current HP,
    and never exceeds tempHp + currentHp before the hit.  applyDamage adds
    the whole remaining damage to actualDamage before it clamps the new
    currentHp at 0.  Here the mock hero of the tests, with 0 temporary and 45
    current HP, takes a hit of 1000: the hero loses the 45 HP there are, and
    actualDamage is 1000. *)
Theorem applyDamage_overkill_reports_amount :
  exists before r after,
    getCombatant duel "hero" = Some before
    /\ tempHp before + currentHp before = 45
    /\ applyDamage duel "hero" 1000 slashing "massive hit" = Ok r
    /\ getCombatant (dmg_combat r) "hero" = Some after
    /\ tempHp after + currentHp after = 0
    /\ actualDamage r = 1000.
Proof.
  do 3 eexists.
  split; [reflexivity|]. split; [reflexivity|].
  split; [reflexivity|]. split; [reflexivity|].
  split; reflexivity.
Qed.

(** applyDamage fails only with CombatantNotFound, and the actualDamage it
    returns is the amount it was given, or 0 for a negative amount, whatever
    the HP of the target. *)
Theorem applyDamage_reports_clamped_amount combat targetId amount damageType
    source :
  match applyDamage combat targetId amount damageType source with
  | Ok r => actualDamage r = Z.max 0 amount
  | Throw e => e = CombatantNotFound targetId
  end.
Proof.
  destruct (applyDamage combat targetId amount damageType source) as [r|e] eqn:E.
  - eapply applyDamage_actualDamage. exact E.
  - unfold applyDamage in E.
    destruct (findCombatant targetId (initiativeOrder combat)) as [[i target]|].
    + destruct (depleteTempHp _ _) as [[? ?] ?]. discriminate.
    + congruence.
Qed.

(* ------------------------------------------------------------------------- *)
(*  Properties of every combatant, kept by the operations                    *)
(* ------------------------------------------------------------------------- *)

Section Preservation.
Variable P : Combatant -> Prop.

Lemma updateCombatant_Forall combat combatantId f :
  (forall c, P c -> P (f c)) ->
  Forall P (initiativeOrder combat) ->
  Forall P (initiativeOrder (updateCombatant combat combatantId f)).
Proof.
  intros Hf Hall. unfold updateCombatant.
  destruct (findCombatant combatantId (initiativeOrder combat))
    as [[i c]|] eqn:E; [|exact Hall].
  apply findCombatant_Some in E as [E _]. simpl.
  apply Forall_insert; [exact Hall|].
  apply Hf. exact (Forall_lookup_1 _ _ _ _ Hall E).
Qed.

(** What the end of a round does to one combatant keeps [P]. *)
Hypothesis P_endOfRound : forall c,
  P c ->
  P (with_conditions
       (List.filter stillRunning (tickCondition <$> conditions c)) c).

(** Fresh turn resources keep [P]. *)
Hypothesis P_newTurn : forall c,
  P c -> P (with_turnResources (createDefaultTurnResources (speed c)) c).

Lemma processEndOfRound_Forall combat :
  Forall P (initiativeOrder combat) ->
  Forall P (initiativeOrder (processEndOfRound combat)).
Proof.
  intros Hall. simpl. apply Forall_fmap.
  eapply Forall_impl; [exact Hall|]. intros c Hc. apply P_endOfRound, Hc.
Qed.

Lemma nextTurn_loop_Forall len remaining :
  forall nextIndex newRound combat nextIndex' newRound' combat',
  Forall P (initiativeOrder combat) ->
  nextTurn_loop len remaining nextIndex newRound combat
    = Ok (nextIndex', newRound', combat') ->
  Forall P (initiativeOrder combat').
Proof.
  induction remaining as [|remaining IH];
    intros nextIndex newRound combat nextIndex' newRound' combat' Hall;
    simpl;
    set (j := (S nextIndex mod len)%nat);
    set (c1 := if (j =? 0)%nat then processEndOfRound combat else combat);
    (assert (Forall P (initiativeOrder c1)) as Hall1
       by (subst c1; destruct (j =? 0)%nat;
           [apply processEndOfRound_Forall|]; exact Hall));
    destruct (initiativeOrder c1 !! j) as [landed|]; try discriminate.
  - intros [= _ _ <-]. exact Hall1.
  - destruct (negb (bool_decide (status landed = active))).
    + intros H. eapply IH; [exact Hall1|exact H].
    + intros [= _ _ <-]. exact Hall1.
Qed.

Lemma nextTurn_fuel_Forall fuel :
  forall combat combat',
  Forall P (initiativeOrder combat) ->
  nextTurn_fuel fuel combat = Ok combat' ->
  Forall P (initiativeOrder combat').
Proof.
  induction fuel as [|fuel IH]; intros combat combat' Hall; simpl;
    [discriminate|].
  destruct (negb (isActive combat)); [intros [= <-]; exact Hall|].
  destruct (length _ =? 0)%nat; [intros [= <-]; exact Hall|].
  destruct (nextTurn_loop _ _ _ _ _) as [[[j r] c1]|e] eqn:Eloop;
    simpl; [|discriminate].
  apply nextTurn_loop_Forall in Eloop; [|exact Hall].
  destruct (initiativeOrder c1 !! j) as [cur|] eqn:Ecur; [|discriminate].
  assert (Forall P
            (<[j := with_turnResources
                      (createDefaultTurnResources (speed cur)) cur]>
               (initiativeOrder c1))) as Hall2.
  { apply Forall_insert; [exact Eloop|].
    apply P_newTurn. exact (Forall_lookup_1 _ _ _ _ Eloop Ecur). }
  destruct (_ && _).
  - intros H. eapply IH; [|exact H]. exact Hall2.
  - intros [= <-]. exact Hall2.
Qed.
End Preservation.

(* ------------------------------------------------------------------------- *)
(*  The bounds of a combatant                                                *)
(* ------------------------------------------------------------------------- *)

Lemma applyDamage_bounded combat targetId amount damageType source r :
  Forall bounded (initiativeOrder combat) ->
  applyDamage combat targetId amount damageType source = Ok r ->
  Forall bounded (initiativeOrder (dmg_combat r)).
Proof.
  intros Hall. unfold applyDamage.
  destruct (findCombatant targetId (initiativeOrder combat))
    as [[i target]|] eqn:E; [|discriminate].
  apply findCombatant_Some in E as [E _].
  pose proof (Forall_lookup_1 _ _ _ _ Hall E) as [(Hhp & Htemp & Hmove) Hspeed].
  pose proof (depleteTempHp_total (Z.max 0 amount) (tempHp target)
                ltac:(lia)) as H.
  destruct (depleteTempHp (Z.max 0 amount) (tempHp target)) as [[rem act] tmp].
  intros [= <-]. simpl. apply Forall_insert; [exact Hall|].
  unfold bounded, withinBounds. simpl. lia.
Qed.

Lemma applyHealing_bounded combat targetId amount source r :
  Forall bounded (initiativeOrder combat) ->
  0 <= amount ->
  applyHealing combat targetId amount source = Ok r ->
  Forall bounded (initiativeOrder (heal_combat r)).
Proof.
  intros Hall Hamount. unfold applyHealing.
  destruct (findCombatant targetId (initiativeOrder combat))
    as [[i target]|] eqn:E; [|discriminate].
  apply findCombatant_Some in E as [E _].
  pose proof (Forall_lookup_1 _ _ _ _ Hall E) as [(Hhp & Htemp & Hmove) Hspeed].
  intros [= <-]. simpl. apply Forall_insert; [exact Hall|].
  unfold bounded, withinBounds. simpl. lia.
Qed.

Lemma addCondition_Forall (P : Combatant -> Prop) combat targetId condition combat' :
  (forall c conds, P c -> P (with_conditions conds c)) ->
  Forall P (initiativeOrder combat) ->
  addCondition combat targetId condition = Ok combat' ->
  Forall P (initiativeOrder combat').
Proof.
  intros HP Hall. unfold addCondition.
  destruct (findCombatant targetId (initiativeOrder combat))
    as [[i target]|] eqn:E; [|discriminate].
  apply findCombatant_Some in E as [E _].
  pose proof (Forall_lookup_1 _ _ _ _ Hall E) as Ht.
  destruct (list_find _ (conditions target)) as [[k existing]|].
  - destruct (_ && _); intros [= <-]; [|exact Hall].
    simpl. apply Forall_insert; auto.
  - intros [= <-]. simpl. apply Forall_insert; auto.
Qed.

Lemma removeCondition_Forall (P : Combatant -> Prop) combat targetId conditionName combat' :
  (forall c conds, P c -> P (with_conditions conds c)) ->
  Forall P (initiativeOrder combat) ->
  removeCondition combat targetId conditionName = Ok combat' ->
  Forall P (initiativeOrder combat').
Proof.
  intros HP Hall. unfold removeCondition.
  destruct (findCombatant targetId (initiativeOrder combat))
    as [[i target]|] eqn:E; [|discriminate].
  apply findCombatant_Some in E as [E _].
  pose proof (Forall_lookup_1 _ _ _ _ Hall E) as Ht.
  intros [= <-]. simpl. apply Forall_insert; auto.
Qed.

Lemma perform_bounded op combat combat' :
  Forall bounded (initiativeOrder combat) ->
  nonNegativeAmount op ->
  perform op combat = Ok combat' ->
  Forall bounded (initiativeOrder combat').
Proof.
  intros Hall Hamount.
  destruct op; simpl in *.
  - apply nextTurn_fuel_Forall; [| |exact Hall].
    + intros c H. exact H.
    + intros c [(Hhp & Htemp & Hmove) Hspeed].
      unfold bounded, withinBounds. simpl. lia.
  - intros [= <-]. apply processEndOfRound_Forall; [|exact Hall].
    intros c H. exact H.
  - destruct (applyDamage _ _ _ _ _) as [r|] eqn:E; simpl; [|discriminate].
    intros [= <-]. eapply applyDamage_bounded; eauto.
  - destruct (applyHealing _ _ _ _) as [r|] eqn:E; simpl; [|discriminate].
    intros [= <-]. eapply applyHealing_bounded; eauto.
  - intros H. eapply addCondition_Forall; [|exact Hall|exact H].
    intros c conds Hc. exact Hc.
  - intros H. eapply removeCondition_Forall; [|exact Hall|exact H].
    intros c conds Hc. exact Hc.
  - intros [= <-]. apply updateCombatant_Forall; [|exact Hall].
    intros c Hc. exact Hc.
  - intros [= <-]. apply updateCombatant_Forall; [|exact Hall].
    intros c Hc. exact Hc.
  - intros [= <-]. apply updateCombatant_Forall; [|exact Hall].
    intros c Hc. exact Hc.
  - intros [= <-]. apply updateCombatant_Forall; [|exact Hall].
    intros c [(Hhp & Htemp & Hmove) Hspeed].
    unfold bounded, withinBounds. simpl. lia.
  - intros [= <-]. apply updateCombatant_Forall; [|exact Hall].
    intros c Hc. exact Hc.
  - intros [= <-]. apply updateCombatant_Forall; [|exact Hall].
    intros c [(Hhp & Htemp & Hmove) Hspeed].
    unfold bounded, withinBounds. simpl. lia.
  - intros [= <-]. exact Hall.
  - intros [= <-]. exact Hall.
  - intros [= <-]. exact Hall.
Qed.

(** Claim C7.  Every operation keeps the bounds of every combatant: if all
    combatants of a Combat satisfy 0 <= currentHp <= maxHp, tempHp >= 0 and
    movementRemaining >= 0, and have speed >= 0, then so do all combatants of
    the Combat an operation returns, for any damage and any movement amount,
    and for any healing or temporary-HP amount that is not negative. *)
Theorem operations_preserve_bounds op combat combat' :
  Forall withinBounds (initiativeOrder combat) ->
  Forall (fun c => 0 <= speed c) (initiativeOrder combat) ->
  nonNegativeAmount op ->
  perform op combat = Ok combat' ->
  Forall withinBounds (initiativeOrder combat')
  /\ Forall (fun c => 0 <= speed c) (initiativeOrder combat').
Proof.
  intros Hb Hs Hamount Hop.
  apply Forall_and.
  apply (perform_bounded op combat combat'); [|exact Hamount|exact Hop].
  apply Forall_and. split; assumption.
Qed.

(** The hero of [duel] healed by 5. *)
Lemma operations_preserve_bounds_witness :
  Forall withinBounds (initiativeOrder duel)
  /\ Forall (fun c => 0 <= speed c) (initiativeOrder duel)
  /\ nonNegativeAmount (ApplyHealing "hero" 5 "potion")
  /\ exists combat',
       perform (ApplyHealing "hero" 5 "potion") duel = Ok combat'
       /\ Forall withinBounds (initiativeOrder combat')
       /\ Forall (fun c => 0 <= speed c) (initiativeOrder combat').
Proof.
  assert (Forall withinBounds (initiativeOrder duel)) as Hb
    by (repeat constructor; simpl; lia).
  assert (Forall (fun c => 0 <= speed c) (initiativeOrder duel)) as Hs
    by (repeat constructor; simpl; lia).
  assert (nonNegativeAmount (ApplyHealing "hero" 5 "potion")) as Ha
    by (simpl; lia).
  split_and!; [exact Hb|exact Hs|exact Ha|].
  eexists. split; [reflexivity|].
  apply (operations_preserve_bounds (ApplyHealing "hero" 5 "potion") duel);
    [exact Hb|exact Hs|exact Ha|reflexivity].
Defined.

(* ------------------------------------------------------------------------- *)
(*  applyHealing                                                             *)
(* ------------------------------------------------------------------------- *)

(** Claim C10.  For a targetId present in the combat, applyHealing returns,
    and the target it writes back has the currentHp
    min(maxHp, currentHp + amount) and the status active when that is greater
    than 0, whatever the status was, and the status it had otherwise. *)
Theorem applyHealing_status combat targetId amount source :
  targetId ∈ id <$> initiativeOrder combat ->
  exists i target r healed,
    findCombatant targetId (initiativeOrder combat) = Some (i, target)
    /\ applyHealing combat targetId amount source = Ok r
    /\ initiativeOrder (heal_combat r) !! i = Some healed
    /\ getCombatant (heal_combat r) targetId = Some healed
    /\ currentHp healed = Z.min (maxHp target) (currentHp target + amount)
    /\ status healed =
         if 0 <? currentHp healed then active else status target.
Proof.
  intros Hin.
  destruct (findCombatant_present _ _ Hin) as (i & target & E).
  exists i, target. unfold applyHealing. rewrite E.
  eexists. eexists. split; [reflexivity|]. split; [reflexivity|].
  pose proof (findCombatant_Some _ _ _ _ E) as [Hi Hid].
  split_and!.
  - simpl. apply list_lookup_insert_eq. eauto using lookup_lt_Some.
  - eapply getCombatant_insert; [exact E|exact Hid].
  - reflexivity.
  - reflexivity.
Qed.

(** The goblin of [duel] has fled with its 7 HP; a healing of 0 returns it
    to active. *)
Lemma applyHealing_status_witness :
  "goblin_1" ∈ id <$> initiativeOrder (flee duel "goblin_1")
  /\ exists i target r healed,
       findCombatant "goblin_1" (initiativeOrder (flee duel "goblin_1"))
       = Some (i, target)
       /\ status target = fled
       /\ applyHealing (flee duel "goblin_1") "goblin_1" 0 "potion" = Ok r
       /\ initiativeOrder (heal_combat r) !! i = Some healed
       /\ getCombatant (heal_combat r) "goblin_1" = Some healed
       /\ currentHp healed = 7
       /\ status healed = active.
Proof.
  assert ("goblin_1" ∈ id <$> initiativeOrder (flee duel "goblin_1")) as H
    by (apply list_elem_of_further, list_elem_of_here).
  split; [exact H|].
  destruct (applyHealing_status (flee duel "goblin_1") "goblin_1" 0 "potion" H)
    as (i & target & r & healed & H1 & H2 & H3 & H4 & H5 & H6).
  exists i, target, r, healed.
  assert (target = with_status fled
                     (createCombatantFromMonster "" (mockMonster "Goblin")
                        {| combatantId := "goblin_1"; combatantName := "Goblin";
                           roll := 9; modifier := 2; total := 11 |}
                        enemy (Some "goblin_1"))) as Ht.
  { assert (findCombatant "goblin_1" (initiativeOrder (flee duel "goblin_1"))
            = Some (1%nat,
                    with_status fled
                      (createCombatantFromMonster "" (mockMonster "Goblin")
                         {| combatantId := "goblin_1"; combatantName := "Goblin";
                            roll := 9; modifier := 2; total := 11 |}
                         enemy (Some "goblin_1")))) as E by reflexivity.
    rewrite E in H1. injection H1 as _ <-. reflexivity. }
  rewrite Ht in *. simpl in H5. rewrite H5 in H6. simpl in H6.
  split_and!; auto.
Defined.

(* ------------------------------------------------------------------------- *)
(*  One condition per name                                                   *)
(* ------------------------------------------------------------------------- *)

Lemma NoDup_fmap_filter {A B : Type} (f : A -> B) (p : A -> bool) (l : list A) :
  NoDup (f <$> l) -> NoDup (f <$> List.filter p l).
Proof.
  induction l as [|x l IH]; simpl; [auto|].
  rewrite NoDup_cons. intros [Hx Hl].
  destruct (p x); simpl; [|auto].
  apply NoDup_cons. split; [|auto].
  intros Hin. apply Hx.
  apply list_elem_of_fmap in Hin as (y & -> & Hy).
  apply list_elem_of_fmap. exists y. split; [reflexivity|].
  apply list_elem_of_In. apply list_elem_of_In in Hy.
  apply filter_In in Hy. tauto.
Qed.

Lemma cond_name_tickCondition c : cond_name (tickCondition c) = cond_name c.
Proof. unfold tickCondition. destruct (_ && _); reflexivity. Qed.

Lemma noStacking_endOfRound c :
  noStacking c ->
  noStacking (with_conditions
                (List.filter stillRunning (tickCondition <$> conditions c)) c).
Proof.
  unfold noStacking. simpl. intros H.
  apply NoDup_fmap_filter. rewrite <- list_fmap_compose.
  erewrite list_fmap_ext; [exact H|].
  intros i x _. simpl. apply cond_name_tickCondition.
Qed.

Lemma applyHealing_noStacking combat targetId amount source r :
  Forall noStacking (initiativeOrder combat) ->
  applyHealing combat targetId amount source = Ok r ->
  Forall noStacking (initiativeOrder (heal_combat r)).
Proof.
  intros Hall. unfold applyHealing.
  destruct (findCombatant targetId (initiativeOrder combat))
    as [[i target]|] eqn:E; [|discriminate].
  apply findCombatant_Some in E as [E _].
  pose proof (Forall_lookup_1 _ _ _ _ Hall E) as Ht.
  intros [= <-]. simpl. apply Forall_insert; [exact Hall|].
  unfold noStacking in *. simpl.
  destruct (_ && _); [apply NoDup_fmap_filter|]; exact Ht.
Qed.

Lemma addCondition_noStacking combat targetId condition combat' :
  Forall noStacking (initiativeOrder combat) ->
  addCondition combat targetId condition = Ok combat' ->
  Forall noStacking (initiativeOrder combat').
Proof.
  intros Hall. unfold addCondition.
  destruct (findCombatant targetId (initiativeOrder combat))
    as [[i target]|] eqn:E; [|discriminate].
  apply findCombatant_Some in E as [E _].
  pose proof (Forall_lookup_1 _ _ _ _ Hall E) as Ht.
  destruct (list_find _ (conditions target)) as [[k existing]|] eqn:Efind.
  - destruct (_ && _); intros [= <-]; [|exact Hall].
    simpl. apply Forall_insert; [exact Hall|].
    unfold noStacking in *. simpl.
    apply list_find_Some in Efind as (Hk & Hname & _).
    rewrite list_fmap_insert, list_insert_id; [exact Ht|].
    rewrite list_lookup_fmap, Hk. simpl. congruence.
  - intros [= <-]. simpl. apply Forall_insert; [exact Hall|].
    unfold noStacking in *. simpl.
    apply list_find_None in Efind.
    rewrite fmap_app. simpl. apply NoDup_app. split_and!.
    + exact Ht.
    + intros x Hx Hx'. apply list_elem_of_singleton in Hx'. subst x.
      apply list_elem_of_fmap in Hx as (y & Hy & Hin).
      rewrite Forall_forall in Efind. apply (Efind y Hin). congruence.
    + apply NoDup_singleton.
Qed.

Lemma removeCondition_noStacking combat targetId conditionName combat' :
  Forall noStacking (initiativeOrder combat) ->
  removeCondition combat targetId conditionName = Ok combat' ->
  Forall noStacking (initiativeOrder combat').
Proof.
  intros Hall. unfold removeCondition.
  destruct (findCombatant targetId (initiativeOrder combat))
    as [[i target]|] eqn:E; [|discriminate].
  apply findCombatant_Some in E as [E _].
  pose proof (Forall_lookup_1 _ _ _ _ Hall E) as Ht.
  intros [= <-]. simpl. apply Forall_insert; [exact Hall|].
  unfold noStacking in *. simpl. apply NoDup_fmap_filter. exact Ht.
Qed.

(** applyDamage keeps the conditions of every combatant whose name list
    stays free of repeats, provided the target does not carry an unconscious
    condition when a player is downed. *)
Lemma applyDamage_noStacking combat targetId amount damageType source r :
  Forall noStacking (initiativeOrder combat) ->
  (forall i target,
     findCombatant targetId (initiativeOrder combat) = Some (i, target) ->
     unconscious ∉ cond_name <$> conditions target) ->
  applyDamage combat targetId amount damageType source = Ok r ->
  Forall noStacking (initiativeOrder (dmg_combat r)).
Proof.
  intros Hall Hfree. unfold applyDamage.
  destruct (findCombatant targetId (initiativeOrder combat))
    as [[i target]|] eqn:E; [|discriminate].
  specialize (Hfree i target eq_refl).
  apply findCombatant_Some in E as [E _].
  pose proof (Forall_lookup_1 _ _ _ _ Hall E) as Ht.
  destruct (depleteTempHp (Z.max 0 amount) (tempHp target)) as [[rem act] tmp].
  intros [= <-]. simpl. apply Forall_insert; [exact Hall|].
  unfold noStacking in *. simpl.
  destruct (_ && _ && isPlayer target); [|exact Ht].
  rewrite fmap_app. simpl. apply NoDup_app. split_and!.
  - exact Ht.
  - intros x Hx Hx'. apply list_elem_of_singleton in Hx'. subst x. auto.
  - apply NoDup_singleton.
Qed.

(** Every operation but applyDamage keeps the conditions of every combatant
    free of repeated names. *)
Lemma perform_noStacking op combat combat' :
  (forall targetId amount damageType source,
     op <> ApplyDamage targetId amount damageType source) ->
  Forall noStacking (initiativeOrder combat) ->
  perform op combat = Ok combat' ->
  Forall noStacking (initiativeOrder combat').
Proof.
  intros Hop Hall.
  destruct op; simpl in *.
  - apply nextTurn_fuel_Forall; [| |exact Hall].
    + apply noStacking_endOfRound.
    + intros c H. exact H.
  - intros [= <-]. apply processEndOfRound_Forall; [|exact Hall].
    apply noStacking_endOfRound.
  - exfalso. eapply Hop. reflexivity.
  - destruct (applyHealing _ _ _ _) as [r|] eqn:E; simpl; [|discriminate].
    intros [= <-]. eapply applyHealing_noStacking; eauto.
  - apply addCondition_noStacking. exact Hall.
  - apply removeCondition_noStacking. exact Hall.
  - intros [= <-]. apply updateCombatant_Forall; [|exact Hall].
    intros c Hc. exact Hc.
  - intros [= <-]. apply updateCombatant_Forall; [|exact Hall].
    intros c Hc. exact Hc.
  - intros [= <-]. apply updateCombatant_Forall; [|exact Hall].
    intros c Hc. exact Hc.
  - intros [= <-]. apply updateCombatant_Forall; [|exact Hall].
    intros c Hc. exact Hc.
  - intros [= <-]. apply updateCombatant_Forall; [|exact Hall].
    intros c Hc. exact Hc.
  - intros [= <-]. apply updateCombatant_Forall; [|exact Hall].
    intros c Hc. exact Hc.
  - intros [= <-]. exact Hall.
  - intros [= <-]. exact Hall.
  - intros [= <-]. exact Hall.
Qed.

(** Claim C3 (a defect of the code).  The claim: every operation keeps at
    most one ActiveCondition per condition name on each combatant.
    applyDamage appends an unconscious condition to a downed player without
    looking for one that is there.  Here the hero of [duel], standing at 45
    HP, is put to sleep with addCondition (an unconscious condition of 10
    rounds) and then takes 45 damage: the combats before the hit have no
    repeated name, and after it the hero carries unconscious twice. *)
Theorem applyDamage_stacks_unconscious :
  exists c1 r downed,
    Forall noStacking (initiativeOrder duel)
    /\ addCondition duel "hero" asleep = Ok c1
    /\ Forall noStacking (initiativeOrder c1)
    /\ applyDamage c1 "hero" 45 slashing "knockout" = Ok r
    /\ getCombatant (dmg_combat r) "hero" = Some downed
    /\ cond_name <$> conditions downed = [unconscious; unconscious].
Proof.
  do 3 eexists.
  split.
  { repeat constructor; unfold noStacking; simpl; constructor. }
  split; [reflexivity|].
  split.
  { repeat constructor; unfold noStacking; simpl;
      repeat constructor; apply not_elem_of_nil. }
  split; [reflexivity|]. split; reflexivity.
Qed.

(** Every operation keeps the condition names of each combatant free of
    repeats, applyDamage under the proviso that its target does not carry an
    unconscious condition. *)
Theorem operations_keep_one_condition_per_name op combat combat' :
  Forall noStacking (initiativeOrder combat) ->
  (forall targetId amount damageType source i target,
     op = ApplyDamage targetId amount damageType source ->
     findCombatant targetId (initiativeOrder combat) = Some (i, target) ->
     unconscious ∉ cond_name <$> conditions target) ->
  perform op combat = Ok combat' ->
  Forall noStacking (initiativeOrder combat').
Proof.
  intros Hall Hdamage Hop.
  assert ((exists targetId amount damageType source,
             op = ApplyDamage targetId amount damageType source)
          \/ (forall targetId amount damageType source,
                op <> ApplyDamage targetId amount damageType source))
    as [(targetId & amount & damageType & source & ->)|Hother].
  { destruct op; try (right; intros; discriminate). left. eauto. }
  - simpl in Hop.
    destruct (applyDamage _ _ _ _ _) as [r|] eqn:E; simpl in Hop;
      [|discriminate].
    injection Hop as <-.
    eapply applyDamage_noStacking; [exact Hall| |exact E].
    intros i target Hfind. eapply Hdamage; eauto.
  - eapply perform_noStacking; [exact Hother|exact Hall|exact Hop].
Qed.

(** The hero of [duel] put to sleep. *)
Lemma operations_keep_one_condition_per_name_witness :
  Forall noStacking (initiativeOrder duel)
  /\ exists combat',
       perform (AddCondition "hero" asleep) duel = Ok combat'
       /\ Forall noStacking (initiativeOrder combat').
Proof.
  assert (Forall noStacking (initiativeOrder duel)) as H
    by (repeat constructor).
  split; [exact H|].
  eexists. split; [reflexivity|].
  apply (operations_keep_one_condition_per_name (AddCondition "hero" asleep)
           duel); [exact H| |reflexivity].
  intros targetId amount damageType source i target Hop. discriminate Hop.
Defined.

(* ------------------------------------------------------------------------- *)
(*  nextTurn                                                                 *)
(* ------------------------------------------------------------------------- *)

Lemma sameEncounter_refl c : sameEncounter c c.
Proof. unfold sameEncounter. split_and!; auto; lia. Qed.

Lemma sameEncounter_trans c1 c2 c3 :
  sameEncounter c1 c2 -> sameEncounter c2 c3 -> sameEncounter c1 c3.
Proof.
  unfold sameEncounter. intros (?&?&?&?&?&?) (?&?&?&?&?&?).
  split_and!; try congruence; lia.
Qed.

Lemma sameEncounter_processEndOfRound c : sameEncounter c (processEndOfRound c).
Proof.
  unfold sameEncounter. simpl. split_and!; auto.
  - apply length_fmap.
  - rewrite <- list_fmap_compose. apply list_fmap_ext. auto.
  - rewrite <- list_fmap_compose. apply list_fmap_ext. auto.
  - lia.
Qed.

Lemma nextTurn_loop_spec len remaining :
  forall nextIndex newRound combat,
  len = length (initiativeOrder combat) ->
  (0 < len)%nat ->
  exists j r c1,
    nextTurn_loop len remaining nextIndex newRound combat = Ok (j, r, c1)
    /\ (j < len)%nat
    /\ sameEncounter combat c1
    /\ (newRound = round combat -> r = round c1)
    /\ (round c1 = round combat ->
        (nextIndex < len)%nat -> (nextIndex < j)%nat).
Proof.
  induction remaining as [|remaining IH]; intros nextIndex newRound combat Hlen Hpos;
    simpl;
    set (j := (S nextIndex mod len)%nat);
    set (c1 := if (j =? 0)%nat then processEndOfRound combat else combat);
    (assert (j < len)%nat as Hj by (apply Nat.mod_upper_bound; lia));
    (assert (sameEncounter combat c1) as Hsame
       by (subst c1; destruct (j =? 0)%nat;
           [apply sameEncounter_processEndOfRound|apply sameEncounter_refl]));
    (assert ((if (j =? 0)%nat then round c1 else newRound) = round c1
             \/ newRound <> round combat) as Hround
       by (subst c1; destruct (j =? 0)%nat;
           [left; reflexivity|
            destruct (decide (newRound = round combat)); auto]));
    (assert (round c1 = round combat -> (nextIndex < len)%nat ->
             (nextIndex < j)%nat /\ (j =? 0)%nat = false) as Hstep
       by (subst c1; destruct (j =? 0)%nat eqn:Ej;
           [simpl; lia|
            intros _ Hlt; split; [|reflexivity];
            apply Nat.eqb_neq in Ej;
            destruct (decide (S nextIndex = len)) as [Heq|Hne];
            [exfalso; apply Ej; subst j; rewrite Heq; apply Nat.Div0.mod_same|
             subst j; rewrite Nat.mod_small; lia]]));
    (destruct (lookup_lt_is_Some_2 (initiativeOrder c1) j) as [landed Hl];
       [destruct Hsame as (_&_&Hlen1&_); lia|]);
    rewrite Hl.
  - exists j, (if (j =? 0)%nat then round c1 else newRound), c1.
    split_and!; auto.
    + intros Hr. destruct Hround; congruence.
    + intros H1 H2. apply Hstep; auto.
  - destruct (negb (bool_decide (status landed = active))).
    + destruct (IH j (if (j =? 0)%nat then round c1 else newRound) c1)
        as (j' & r' & c2 & Hloop & Hj' & Hsame' & Hr' & Hmono).
      { destruct Hsame as (_&_&Hlen1&_). lia. }
      { exact Hpos. }
      exists j', r', c2. split_and!; auto.
      * eapply sameEncounter_trans; eauto.
      * intros Hr. apply Hr'. destruct Hround; congruence.
      * intros H1 H2.
        assert (round c1 = round combat) as H3.
        { destruct Hsame as (_&_&_&_&_&?).
          destruct Hsame' as (_&_&_&_&_&?). lia. }
        destruct (Hstep H3 H2) as [H4 _].
        assert (nextIndex < j')%nat; [|lia].
        enough (j < j')%nat by lia. apply Hmono; [congruence|exact Hj].
    + exists j, (if (j =? 0)%nat then round c1 else newRound), c1.
      split_and!; auto.
      * intros Hr. destruct Hround; congruence.
      * intros H1 H2. apply Hstep; auto.
Qed.

Lemma nextTurn_fuel_inactive fuel combat :
  isActive combat = false -> nextTurn_fuel (S fuel) combat = Ok combat.
Proof. intros H. simpl. rewrite H. reflexivity. Qed.

Lemma nextTurn_fuel_nobody fuel combat :
  isActive combat = true ->
  List.filter (fun c => bool_decide (status c = active)) (initiativeOrder combat)
    = [] ->
  nextTurn_fuel (S fuel) combat = Ok (with_isActive false combat).
Proof. intros H1 H2. simpl. rewrite H1, H2. reflexivity. Qed.

Lemma nextTurn_fuel_step fuel combat :
  isActive combat = true ->
  List.filter (fun c => bool_decide (status c = active)) (initiativeOrder combat)
    <> [] ->
  exists j c1 cur,
    (j < length (initiativeOrder combat))%nat
    /\ sameEncounter combat c1
    /\ (round c1 = round combat ->
        (currentTurnIndex combat < length (initiativeOrder combat))%nat ->
        (currentTurnIndex combat < j)%nat)
    /\ nextTurn_loop (length (initiativeOrder combat))
         (length (initiativeOrder combat) - 1)
         (currentTurnIndex combat) (round combat) combat
       = Ok (j, round c1, c1)
    /\ initiativeOrder c1 !! j = Some cur
    /\ nextTurn_fuel (S fuel) combat =
         if (round c1 =? 1)
            && bool_decide (id cur ∈ surprisedCombatantIds c1)
         then nextTurn_fuel fuel (landOn j (round c1) cur c1)
         else Ok (landOn j (round c1) cur c1).
Proof.
  intros Hact Hsome.
  assert (0 < length (initiativeOrder combat))%nat as Hpos.
  { destruct (initiativeOrder combat); simpl in *; [congruence|lia]. }
  destruct (nextTurn_loop_spec (length (initiativeOrder combat))
              (length (initiativeOrder combat) - 1)
              (currentTurnIndex combat) (round combat) combat eq_refl Hpos)
    as (j & r & c1 & Hloop & Hj & Hsame & Hr & Hmono).
  specialize (Hr eq_refl). subst r.
  destruct (lookup_lt_is_Some_2 (initiativeOrder c1) j) as [cur Hcur].
  { destruct Hsame as (_&_&Hlen&_). lia. }
  exists j, c1, cur. split_and!; auto.
  simpl. rewrite Hact. simpl.
  destruct (List.filter _ (initiativeOrder combat)) eqn:Ef; [congruence|].
  simpl. rewrite Hloop. simpl. rewrite Hcur. reflexivity.
Qed.

Lemma sameEncounter_landOn c c1 j r cur :
  sameEncounter c c1 ->
  initiativeOrder c1 !! j = Some cur ->
  r = round c1 ->
  sameEncounter c (landOn j r cur c1).
Proof.
  intros Hsame Hcur ->. eapply sameEncounter_trans; [exact Hsame|].
  unfold sameEncounter, landOn. simpl. split_and!; auto.
  - apply length_insert.
  - rewrite list_fmap_insert. simpl. apply list_insert_id.
    rewrite list_lookup_fmap, Hcur. reflexivity.
  - rewrite list_fmap_insert. simpl. apply list_insert_id.
    rewrite list_lookup_fmap, Hcur. reflexivity.
  - lia.
Qed.

(** With the round at 1 and the index inside the order, the recursion of
    nextTurn ends within as many calls as there are combatants after the
    index. *)
Lemma nextTurn_fuel_round1 fuel :
  forall combat,
  round combat = 1 ->
  (currentTurnIndex combat < length (initiativeOrder combat))%nat ->
  (length (initiativeOrder combat) - currentTurnIndex combat <= fuel)%nat ->
  exists combat', nextTurn_fuel fuel combat = Ok combat'.
Proof.
  induction fuel as [|fuel IH]; intros combat Hround Hidx Hfuel; [lia|].
  destruct (isActive combat) eqn:Hact;
    [|eexists; apply nextTurn_fuel_inactive; exact Hact].
  destruct (List.filter (fun c => bool_decide (status c = active))
              (initiativeOrder combat)) eqn:Ef;
    [eexists; apply nextTurn_fuel_nobody; assumption|].
  destruct (nextTurn_fuel_step fuel combat Hact) as
    (j & c1 & cur & Hj & Hsame & Hmono & _ & Hcur & Hstep);
    [rewrite Ef; discriminate|].
  rewrite Hstep.
  destruct (round c1 =? 1) eqn:Er; simpl; [|eexists; reflexivity].
  destruct (bool_decide _); [|eexists; reflexivity].
  apply Z.eqb_eq in Er.
  pose proof (sameEncounter_landOn _ _ _ _ _ Hsame Hcur eq_refl)
    as (_&_&Hlen&_).
  apply IH.
  - simpl. exact Er.
  - simpl in *. rewrite length_insert.
    destruct Hsame as (_&_&Hlen1&_). lia.
  - simpl in *. rewrite length_insert.
    destruct Hsame as (_&_&Hlen1&_).
    assert (currentTurnIndex combat < j)%nat by (apply Hmono; [lia|exact Hidx]).
    lia.
Qed.

(** nextTurn returns: it raises no exception, and the fuel it is given is
    enough. *)
Lemma nextTurn_returns combat : exists combat', nextTurn combat = Ok combat'.
Proof.
  unfold nextTurn. rewrite Nat.add_1_r.
  destruct (isActive combat) eqn:Hact;
    [|eexists; apply nextTurn_fuel_inactive; exact Hact].
  destruct (List.filter (fun c => bool_decide (status c = active))
              (initiativeOrder combat)) eqn:Ef;
    [eexists; apply nextTurn_fuel_nobody; assumption|].
  destruct (nextTurn_fuel_step (length (initiativeOrder combat)) combat Hact) as
    (j & c1 & cur & Hj & Hsame & _ & _ & Hcur & Hstep);
    [rewrite Ef; discriminate|].
  rewrite Hstep.
  destruct (round c1 =? 1) eqn:Er; simpl; [|eexists; reflexivity].
  destruct (bool_decide _); [|eexists; reflexivity].
  apply Z.eqb_eq in Er.
  destruct Hsame as (_&_&Hlen1&_).
  apply nextTurn_fuel_round1; simpl; rewrite ?length_insert; lia.
Qed.

(** nextTurn never leaves the turn, in round 1, with a surprised
    combatant. *)
Lemma nextTurn_fuel_skips_surprised fuel :
  forall combat combat' cur,
  nextTurn_fuel fuel combat = Ok combat' ->
  round combat' = 1 ->
  getCurrentCombatant combat' = Some cur ->
  id cur ∉ surprisedCombatantIds combat'.
Proof.
  induction fuel as [|fuel IH]; intros combat combat' cur Hnext Hround Hcur;
    [discriminate|].
  destruct (isActive combat) eqn:Hact.
  2:{ rewrite nextTurn_fuel_inactive in Hnext by exact Hact.
      injection Hnext as <-. unfold getCurrentCombatant in Hcur.
      rewrite Hact in Hcur. discriminate. }
  destruct (List.filter (fun c => bool_decide (status c = active))
              (initiativeOrder combat)) eqn:Ef.
  { rewrite nextTurn_fuel_nobody in Hnext by assumption.
    injection Hnext as <-. discriminate. }
  destruct (nextTurn_fuel_step fuel combat Hact) as
    (j & c1 & landed & Hj & Hsame & _ & _ & Hlanded & Hstep);
    [rewrite Ef; discriminate|].
  rewrite Hstep in Hnext.
  destruct ((round c1 =? 1)
            && bool_decide (id landed ∈ surprisedCombatantIds c1)) eqn:Es.
  - eapply IH; eauto.
  - injection Hnext as <-. simpl in Hround.
    unfold getCurrentCombatant in Hcur. simpl in Hcur.
    destruct (negb (isActive c1) || _); [discriminate|].
    rewrite list_lookup_insert_eq in Hcur by eauto using lookup_lt_Some.
    injection Hcur as <-. simpl.
    rewrite Hround in Es. simpl in Es.
    apply bool_decide_eq_false in Es. exact Es.
Qed.

(** nextTurn returns for every Combat: it raises no exception and its
    recursion ends.  When the combat it returns is in round 1, the combatant
    whose turn it is, if there is one, is not surprised. *)
Theorem nextTurn_returns_and_skips_surprised combat :
  exists combat',
    nextTurn combat = Ok combat'
    /\ (round combat' = 1 ->
        forall cur,
          getCurrentCombatant combat' = Some cur ->
          id cur ∉ surprisedCombatantIds combat').
Proof.
  destruct (nextTurn_returns combat) as [combat' H].
  exists combat'. split; [exact H|].
  intros Hround cur Hcur.
  exact (nextTurn_fuel_skips_surprised _ _ _ _ H Hround Hcur).
Qed.

(* ------------------------------------------------------------------------- *)
(*  A full pass of nextTurn                                                  *)
(* ------------------------------------------------------------------------- *)







(* ------------------------------------------------------------------------- *)
(*  randomInt                                                                *)
(* ------------------------------------------------------------------------- *)

Lemma countBelow_0 P : countBelow P 0 = 0.
Proof. reflexivity. Qed.

Lemma countBelow_succ P n :
  countBelow P (N.succ n)
  = if P (Z.of_N n) then countBelow P n + 1 else countBelow P n.
Proof. unfold countBelow. rewrite N.peano_rect_succ. reflexivity. Qed.

Lemma countBelow_ext P Q n :
  (forall w, 0 <= w < Z.of_N n -> P w = Q w) ->
  countBelow P n = countBelow Q n.
Proof.
  induction n as [|n IH] using N.peano_ind; intros H; [reflexivity|].
  rewrite !countBelow_succ, IH, H by (intros; try apply H; lia).
  reflexivity.
Qed.

(** Of the words below [n], those that leave the remainder [k] modulo
    [r]: one in every full run of [r] words, and one more when the last,
    partial run reaches past [k]. *)
Lemma countBelow_mod r k :
  0 <= k < r ->
  forall n,
  countBelow (fun w => w mod r =? k) n
  = Z.of_N n / r + (if k <? Z.of_N n mod r then 1 else 0).
Proof.
  intros Hk. induction n as [|n IH] using N.peano_ind.
  - rewrite countBelow_0. simpl. rewrite Zdiv_0_l, Zmod_0_l.
    destruct (k <? 0) eqn:E; lia.
  - rewrite countBelow_succ, IH, N2Z.inj_succ. clear IH.
    set (m := Z.of_N n).
    assert (0 <= m) as Hm by (subst m; lia).
    pose proof (Z.div_mod m r ltac:(lia)) as Hdm.
    pose proof (Z.mod_pos_bound m r ltac:(lia)) as Hb.
    set (q := m / r) in *. set (t := m mod r) in *.
    destruct (decide (t + 1 = r)) as [Hlast|Hmore].
    + assert (Z.succ m = r * (q + 1) + 0) as E by lia.
      rewrite <- (Z.div_unique (Z.succ m) r (q + 1) 0) by lia.
      rewrite <- (Z.mod_unique (Z.succ m) r (q + 1) 0) by lia.
      destruct (t =? k) eqn:E1; destruct (k <? t) eqn:E2;
        destruct (k <? 0) eqn:E3; lia.
    + assert (Z.succ m = r * q + (t + 1)) as E by lia.
      rewrite <- (Z.div_unique (Z.succ m) r q (t + 1)) by lia.
      rewrite <- (Z.mod_unique (Z.succ m) r q (t + 1)) by lia.
      destruct (t =? k) eqn:E1; destruct (k <? t) eqn:E2;
        destruct (k <? t + 1) eqn:E3; lia.
Qed.

Lemma randomInt_word min max word :
  min <= max ->
  0 <= word < 2 ^ 32 ->
  randomInt min max word = min + word mod (max - min + 1).
Proof.
  intros Hr Hw. unfold randomInt, Uint32.
  rewrite (Z.mod_small word) by lia.
  rewrite Z.rem_mod_nonneg by lia. reflexivity.
Qed.

Lemma randomInt_range min max word :
  min <= max -> min <= randomInt min max word <= max.
Proof.
  intros Hr. unfold randomInt, Uint32.
  pose proof (Z.mod_pos_bound word (2 ^ 32) ltac:(lia)) as Hw.
  rewrite Z.rem_mod_nonneg by lia.
  pose proof (Z.mod_pos_bound (word mod 2 ^ 32) (max - min + 1) ltac:(lia)).
  lia.
Qed.

Lemma wordsYielding_count min max v :
  min <= max ->
  min <= v <= max ->
  wordsYielding min max v
  = 2 ^ 32 / (max - min + 1)
    + (if v - min <? 2 ^ 32 mod (max - min + 1) then 1 else 0).
Proof.
  intros Hr Hv. unfold wordsYielding.
  rewrite (countBelow_ext _ (fun w => w mod (max - min + 1) =? v - min)).
  - rewrite countBelow_mod by lia. reflexivity.
  - intros w Hw. rewrite randomInt_word; [|exact Hr|].
    + destruct (w mod (max - min + 1) =? v - min) eqn:E; lia.
    + change (Z.of_N (2 ^ 32)) with (2 ^ 32) in Hw. exact Hw.
Qed.

(** Claim C5, amended.  For min <= max, randomInt returns an integer in
    [min, max] for every generator word; of the 2^32 words a Uint32Array
    element can hold, those that yield the outcome v number
    floor(2^32 / range), and one more when v - min < 2^32 mod range, where
    range = max - min + 1; and all outcomes are yielded by equally many words
    exactly when range divides 2^32. *)
Theorem randomInt_distribution min max :
  min <= max ->
  (forall word, min <= randomInt min max word <= max)
  /\ (forall v, min <= v <= max ->
        wordsYielding min max v
        = 2 ^ 32 / (max - min + 1)
          + (if v - min <? 2 ^ 32 mod (max - min + 1) then 1 else 0))
  /\ ((forall v1 v2, min <= v1 <= max -> min <= v2 <= max ->
         wordsYielding min max v1 = wordsYielding min max v2)
      <-> 2 ^ 32 mod (max - min + 1) = 0).
Proof.
  intros Hr. split_and!.
  - intros word. apply randomInt_range, Hr.
  - intros v Hv. apply wordsYielding_count; assumption.
  - pose proof (Z.mod_pos_bound (2 ^ 32) (max - min + 1) ltac:(lia)) as Hb.
    split.
    + intros Hsame. specialize (Hsame min max ltac:(lia) ltac:(lia)).
      rewrite !wordsYielding_count in Hsame by lia.
      destruct (min - min <? 2 ^ 32 mod (max - min + 1)) eqn:E1;
        destruct (max - min <? 2 ^ 32 mod (max - min + 1)) eqn:E2; lia.
    + intros Hdiv v1 v2 H1 H2.
      rewrite !wordsYielding_count by lia. rewrite Hdiv.
      destruct (v1 - min <? 0) eqn:E1; destruct (v2 - min <? 0) eqn:E2; lia.
Qed.

(** The distribution of a d20. *)
Lemma randomInt_distribution_d20 :
  1 <= 20
  /\ (forall word, 1 <= randomInt 1 20 word <= 20)
  /\ (forall v, 1 <= v <= 20 ->
        wordsYielding 1 20 v
        = 2 ^ 32 / (20 - 1 + 1)
          + (if v - 1 <? 2 ^ 32 mod (20 - 1 + 1) then 1 else 0))
  /\ ((forall v1 v2, 1 <= v1 <= 20 -> 1 <= v2 <= 20 ->
         wordsYielding 1 20 v1 = wordsYielding 1 20 v2)
      <-> 2 ^ 32 mod (20 - 1 + 1) = 0).
Proof. split; [lia|apply (randomInt_distribution 1 20); lia]. Defined.

(** Claim C5 as stated fails on a d6: of the 2^32 words, 715827883 make
    randomInt 1 6 return 1 and 715827882 make it return 6. *)
Lemma randomInt_d6_not_uniform :
  wordsYielding 1 6 1 = 715827883 /\ wordsYielding 1 6 6 = 715827882.
Proof.
  rewrite !wordsYielding_count by lia. split; reflexivity.
Qed.

(* ------------------------------------------------------------------------- *)
(*  Array.prototype.sort                                                     *)
(* ------------------------------------------------------------------------- *)

Section SortFacts.
Context {A : Type} (compareFn : A -> A -> Z).

Lemma insertSorted_perm x l : insertSorted compareFn x l ≡ₚ x :: l.
Proof.
  induction l as [|y l IH]; simpl; [reflexivity|].
  destruct (compareFn x y <=? 0); [reflexivity|].
  rewrite IH. apply Permutation_swap.
Qed.

Lemma sort_perm l : sort compareFn l ≡ₚ l.
Proof.
  induction l as [|x l IH]; simpl; [reflexivity|].
  rewrite insertSorted_perm, IH. reflexivity.
Qed.

Lemma insertSorted_Forall (P : A -> Prop) x l :
  P x -> Forall P l -> Forall P (insertSorted compareFn x l).
Proof.
  intros Hx Hl. induction Hl as [|y l Hy Hl IH]; simpl.
  - repeat constructor; assumption.
  - destruct (compareFn x y <=? 0); repeat constructor; assumption.
Qed.

(** An order [R] that the sign of the comparator decides. *)
Section Ordered.
Variable R : A -> A -> Prop.
Hypothesis R_before : forall a b, compareFn a b <= 0 -> R a b.
Hypothesis R_after : forall a b, 0 < compareFn a b -> R b a.
Hypothesis R_trans : forall a b c, R a b -> R b c -> R a c.

Lemma insertSorted_sorted x l :
  StronglySorted R l -> StronglySorted R (insertSorted compareFn x l).
Proof.
  induction 1 as [|y l Hl IH Hy]; simpl.
  - repeat constructor.
  - destruct (compareFn x y <=? 0) eqn:E.
    + constructor; [constructor; assumption|].
      assert (R x y) as Hxy by (apply R_before; lia).
      constructor; [exact Hxy|].
      eapply Forall_impl; [exact Hy|]. intros z Hz. eauto.
    + constructor; [exact IH|].
      apply insertSorted_Forall; [|exact Hy].
      apply R_after. lia.
Qed.

Lemma sort_sorted l : StronglySorted R (sort compareFn l).
Proof.
  induction l as [|x l IH]; simpl; [constructor|].
  apply insertSorted_sorted, IH.
Qed.
End Ordered.

(** Elements that the comparator does not tell apart keep their order. *)
Section Stable.
Variable P : A -> Prop.
Context `{!forall x, Decision (P x)}.
Hypothesis P_equal : forall x y, P x -> P y -> compareFn x y <= 0.

Lemma insertSorted_filter x l :
  filter P (insertSorted compareFn x l) = filter P (x :: l).
Proof.
  induction l as [|y l IH]; simpl; [reflexivity|].
  destruct (compareFn x y <=? 0) eqn:E; [reflexivity|].
  rewrite (filter_cons _ y), IH, !(filter_cons _ x), (filter_cons _ y).
  destruct (decide (P x)) as [Hx|Hx]; [|reflexivity].
  destruct (decide (P y)) as [Hy|Hy]; [|reflexivity].
  specialize (P_equal x y Hx Hy). lia.
Qed.

Lemma sort_filter l : filter P (sort compareFn l) = filter P l.
Proof.
  induction l as [|x l IH]; simpl; [reflexivity|].
  rewrite insertSorted_filter, !(filter_cons _ x), IH. reflexivity.
Qed.
End Stable.
End SortFacts.

(* ------------------------------------------------------------------------- *)
(*  rollInitiative                                                           *)
(* ------------------------------------------------------------------------- *)

Lemma rollDie_range sides word : 1 <= sides -> 1 <= rollDie sides word <= sides.
Proof. intros H. apply randomInt_range, H. Qed.

Lemma rollAll_lookup rng combatants k :
  rollAll rng combatants !! k
  = (fun c => {| combatantId := req_id c;
                 combatantName := req_name c;
                 roll := rollDie 20 (rng k);
                 modifier := dexterityModifier c;
                 total := rollDie 20 (rng k) + dexterityModifier c |})
    <$> combatants !! k.
Proof. unfold rollAll. rewrite list_lookup_imap. reflexivity. Qed.

Lemma rollAll_inputs rng combatants :
  (fun r => (combatantId r, combatantName r, modifier r))
    <$> rollAll rng combatants
  = (fun c => (req_id c, req_name c, dexterityModifier c)) <$> combatants.
Proof.
  apply list_eq. intros k.
  rewrite !list_lookup_fmap, rollAll_lookup.
  destruct (combatants !! k); reflexivity.
Qed.

Lemma rollAll_rolls rng combatants :
  Forall (fun r => 1 <= roll r <= 20 /\ total r = roll r + modifier r)
    (rollAll rng combatants).
Proof.
  apply Forall_lookup. intros k r. rewrite rollAll_lookup.
  destruct (combatants !! k); [|discriminate].
  intros [= <-]. simpl. split; [apply rollDie_range; lia|reflexivity].
Qed.

Lemma compareInitiative_before a b :
  compareInitiative a b <= 0 <->
  total b < total a \/ (total b = total a /\ modifier b <= modifier a).
Proof.
  unfold compareInitiative.
  destruct (total b =? total a) eqn:E; simpl; lia.
Qed.

(** Claim C8.  rollInitiative returns one result per input: before the sort
    the results carry, in input order, the id, the name and the dexterity
    modifier of the inputs, and the sort permutes them.  Every result has a
    roll in [1, 20] and total = roll + modifier.  The list returned is sorted
    descending by total, ties by descending modifier, and the results of
    equal total and modifier stand in their input order. *)
Theorem rollInitiative_sorted_stable rng combatants :
  let results := rollInitiative rng combatants in
  results ≡ₚ rollAll rng combatants
  /\ (fun r => (combatantId r, combatantName r, modifier r))
       <$> rollAll rng combatants
     = (fun c => (req_id c, req_name c, dexterityModifier c)) <$> combatants
  /\ length results = length combatants
  /\ Forall (fun r => 1 <= roll r <= 20 /\ total r = roll r + modifier r)
       results
  /\ StronglySorted
       (fun a b => total b < total a
                   \/ (total b = total a /\ modifier b <= modifier a))
       results
  /\ forall t m,
       filter (fun r => total r = t /\ modifier r = m) results
       = filter (fun r => total r = t /\ modifier r = m)
           (rollAll rng combatants).
Proof.
  intros results. subst results. unfold rollInitiative.
  pose proof (sort_perm compareInitiative (rollAll rng combatants)) as Hperm.
  split_and!.
  - exact Hperm.
  - apply rollAll_inputs.
  - rewrite Hperm. unfold rollAll. apply length_imap.
  - rewrite Hperm. apply rollAll_rolls.
  - apply sort_sorted.
    + intros a b. apply compareInitiative_before.
    + intros a b H.
      assert (~ compareInitiative a b <= 0) as Hn by lia.
      rewrite compareInitiative_before in Hn. lia.
    + intros a b c. lia.
  - intros t m. apply sort_filter.
    intros x y [Hx1 Hx2] [Hy1 Hy2]. apply compareInitiative_before. lia.
Qed.

(* ------------------------------------------------------------------------- *)
(*  Runs of digits                                                           *)
(* ------------------------------------------------------------------------- *)

Lemma append_String c (a b : string) : String c a +:+ b = String c (a +:+ b).
Proof. reflexivity. Qed.

Lemma takeDigits_spec s :
  s = fst (takeDigits s) +:+ snd (takeDigits s)
  /\ allDigits (fst (takeDigits s)) = true
  /\ noDigitHead (snd (takeDigits s)).
Proof.
  induction s as [|c s (IH1 & IH2 & IH3)]; simpl; [auto|].
  destruct (isDigit c) eqn:E; simpl.
  - rewrite E, IH2. split_and!; auto. rewrite append_String. f_equal. exact IH1.
  - auto.
Qed.

Lemma takeDigits_app ds rest :
  allDigits ds = true -> noDigitHead rest ->
  takeDigits (ds +:+ rest) = (ds, rest).
Proof.
  intros Hds Hrest. induction ds as [|c ds IH]; simpl in *.
  - destruct rest as [|c rest]; simpl in *; [reflexivity|].
    rewrite Hrest. reflexivity.
  - apply andb_prop in Hds as [Hc Hds]. rewrite Hc, (IH Hds). reflexivity.
Qed.

Lemma dropPrefix_app p s : dropPrefix p (p +:+ s) = Some s.
Proof.
  induction p as [|a p IH]; simpl; [reflexivity|].
  rewrite bool_decide_eq_true_2 by reflexivity. exact IH.
Qed.

Lemma dropPrefix_Some p : forall s r, dropPrefix p s = Some r -> s = p +:+ r.
Proof.
  induction p as [|a p IH]; intros s r; simpl.
  - intros [= ->]. reflexivity.
  - destruct s as [|b s]; [discriminate|].
    destruct (bool_decide (a = b)) eqn:E; [|discriminate].
    apply bool_decide_eq_true in E. subst b.
    intros H. rewrite append_String. f_equal. apply IH, H.
Qed.

Lemma numeral_head s :
  numeral s -> exists c s', s = String c s' /\ isDigit c = true.
Proof.
  intros [Hne Hd]. destruct s as [|c s']; [congruence|].
  simpl in Hd. apply andb_prop in Hd as [Hc _]. eauto.
Qed.

Lemma isDigit_not_sign c :
  isDigit c = true -> c <> "-"%char /\ c <> "+"%char.
Proof. intros H. split; intros ->; discriminate. Qed.

(* ------------------------------------------------------------------------- *)
(*  parseInt                                                                 *)
(* ------------------------------------------------------------------------- *)

Lemma parseDigits_value s :
  forall acc,
  parseDigits acc s = acc * 10 ^ Z.of_nat (String.length s) + numeralValue s.
Proof.
  induction s as [|c s IH]; intros acc; simpl String.length; simpl parseDigits;
    simpl numeralValue.
  - change (10 ^ Z.of_nat 0) with 1. lia.
  - rewrite IH, Nat2Z.inj_succ, Z.pow_succ_r by lia. lia.
Qed.

Lemma numeralValue_nonneg s : allDigits s = true -> 0 <= numeralValue s.
Proof.
  induction s as [|c s IH]; simpl; [lia|].
  intros H. apply andb_prop in H as [Hc Hs]. specialize (IH Hs).
  assert (0 <= digitValue c).
  { unfold isDigit in Hc. unfold digitValue.
    apply andb_prop in Hc as [Hc _]. apply N.leb_le in Hc. lia. }
  assert (0 <= 10 ^ Z.of_nat (String.length s)) by (apply Z.pow_nonneg; lia).
  nia.
Qed.

Lemma parseInt_numeral s : numeral s -> parseInt s = toNumber (numeralValue s).
Proof.
  intros H. destruct (numeral_head s H) as (c & s' & -> & Hc).
  destruct (isDigit_not_sign c Hc) as [Hm Hp].
  unfold parseInt.
  rewrite !bool_decide_eq_false_2 by assumption.
  rewrite parseDigits_value. f_equal; lia.
Qed.

Lemma parseInt_signed (negative : bool) ds :
  numeral ds ->
  parseInt (writtenModifier (Some (negative, ds)))
  = toNumber (if negative then - numeralValue ds else numeralValue ds).
Proof.
  intros H. destruct negative.
  - change (parseInt (writtenModifier (Some (true, ds))))
      with (toNumber (- parseDigits 0 ds)).
    rewrite parseDigits_value. f_equal; lia.
  - change (parseInt (writtenModifier (Some (false, ds))))
      with (toNumber (parseDigits 0 ds)).
    rewrite parseDigits_value. f_equal; lia.
Qed.

(* ------------------------------------------------------------------------- *)
(*  The numbers parseInt returns                                             *)
(* ------------------------------------------------------------------------- *)

Lemma double_range : 100 < 2 ^ 53 /\ 2 ^ 53 < 2 ^ 1024.
Proof. split; reflexivity. Qed.

(** An integer up to 2^53 is the double nearest to it. *)
Lemma roundToDouble_exact n : n <= 2 ^ 53 -> roundToDouble n = n.
Proof.
  intros H. unfold roundToDouble.
  destruct (Z.ltb_spec n (2 ^ 53)) as [|Hge]; [reflexivity|].
  assert (n = 2 ^ 53) as -> by lia. reflexivity.
Qed.

(** Above 2^53 the nearest double has a significand [q] of 53 bits and is
    no further from the integer than half a unit of its last place. *)
Lemma roundToDouble_nearest n :
  2 ^ 53 <= n ->
  let e := Z.log2 n - 52 in
  1 <= e
  /\ (exists q, roundToDouble n = q * 2 ^ e /\ 2 ^ 52 <= q <= 2 ^ 53)
  /\ Z.abs (roundToDouble n - n) <= 2 ^ (e - 1).
Proof.
  intros H e.
  assert (0 < n) as Hpos by (pose proof double_range; lia).
  pose proof (Z.log2_spec n Hpos) as [Hlo Hhi].
  assert (53 <= Z.log2 n) as Hlog.
  { rewrite <- (Z.log2_pow2 53) by lia. apply Z.log2_le_mono, H. }
  assert (1 <= e) as He by (subst e; lia).
  assert (2 ^ Z.log2 n = 2 ^ 52 * 2 ^ e) as Hsplit.
  { rewrite <- Z.pow_add_r by lia. f_equal. subst e. lia. }
  assert (2 ^ Z.succ (Z.log2 n) = 2 ^ 53 * 2 ^ e) as Hsplit'.
  { rewrite <- Z.pow_add_r by lia. f_equal. subst e. lia. }
  assert (2 ^ e = 2 * 2 ^ (e - 1)) as Hhalf.
  { rewrite <- Z.pow_succ_r by lia. f_equal. lia. }
  assert (0 < 2 ^ (e - 1)) as Hp by (apply Z.pow_pos_nonneg; lia).
  unfold roundToDouble. fold e.
  destruct (Z.ltb_spec n (2 ^ 53)) as [|_]; [lia|].
  pose proof (Z.div_mod n (2 ^ e) ltac:(lia)) as Hdm.
  pose proof (Z.mod_pos_bound n (2 ^ e) ltac:(lia)) as Hr.
  assert (2 ^ 52 <= n / 2 ^ e) as Hq1
    by (apply Z.div_le_lower_bound; lia).
  assert (n / 2 ^ e < 2 ^ 53) as Hq2
    by (apply Z.div_lt_upper_bound; lia).
  set (q := n / 2 ^ e) in *. set (r := n mod 2 ^ e) in *.
  set (P := 2 ^ (e - 1)) in *. rewrite Hhalf in *.
  split; [exact He|].
  destruct (Z.ltb_spec r P); [|destruct (Z.ltb_spec P r); [|destruct (Z.even q)]].
  - split; [exists q; split; [reflexivity|lia]|]. lia.
  - split; [exists (q + 1); split; [reflexivity|lia]|]. lia.
  - split; [exists q; split; [reflexivity|lia]|]. lia.
  - split; [exists (q + 1); split; [reflexivity|lia]|]. lia.
Qed.

Lemma roundToDouble_large n : 2 ^ 53 <= n -> 2 ^ 53 <= roundToDouble n.
Proof.
  intros H.
  destruct (roundToDouble_nearest n H) as (He & (q & -> & Hq) & _).
  assert (2 <= 2 ^ (Z.log2 n - 52)).
  { change 2 with (2 ^ 1) at 1. apply Z.pow_le_mono_r; lia. }
  change (2 ^ 53) with (2 ^ 52 * 2). nia.
Qed.


Lemma toNumber_nonneg n :
  0 <= n ->
  toNumber n = if roundToDouble n <? 2 ^ 1024 then Finite (roundToDouble n)
               else PosInfinity.
Proof.
  intros H. unfold toNumber. rewrite Z.abs_eq by exact H.
  destruct (Z.eq_dec n 0) as [->|Hne]; [reflexivity|].
  rewrite Z.sgn_pos by lia. rewrite Z.mul_1_l.
  destruct (Z.ltb_spec n 0); [lia|]. reflexivity.
Qed.

Lemma toNumber_opp n :
  0 <= n ->
  toNumber (- n) = if roundToDouble n <? 2 ^ 1024 then Finite (- roundToDouble n)
                   else NegInfinity.
Proof.
  intros H. unfold toNumber. rewrite Z.abs_opp, Z.abs_eq by exact H.
  destruct (Z.eq_dec n 0) as [->|Hne]; [reflexivity|].
  rewrite Z.sgn_neg by lia.
  destruct (Z.ltb_spec (- n) 0); [|lia].
  destruct (roundToDouble n <? 2 ^ 1024); [f_equal; lia|reflexivity].
Qed.

(** An integer up to 2^53 in magnitude is read as it is. *)
Lemma toNumber_exact n : - 2 ^ 53 <= n <= 2 ^ 53 -> toNumber n = Finite n.
Proof.
  intros H. pose proof double_range as [_ Hd].
  destruct (Z.le_gt_cases 0 n) as [Hn|Hn].
  - rewrite toNumber_nonneg, roundToDouble_exact by lia.
    destruct (Z.ltb_spec n (2 ^ 1024)); [reflexivity|lia].
  - replace n with (- - n) at 1 by lia.
    rewrite toNumber_opp, roundToDouble_exact by lia.
    destruct (Z.ltb_spec (- n) (2 ^ 1024)); [f_equal; lia|lia].
Qed.

(** The test of count and sides on the number that was read is the test on
    the integer that was written. *)
Lemma outsideDice_toNumber n :
  0 <= n -> outsideDice (toNumber n) = (n <? 1) || (100 <? n).
Proof.
  intros H. pose proof double_range as [Hd1 Hd2].
  destruct (Z.lt_ge_cases n (2 ^ 53)) as [Hlt|Hge].
  - rewrite toNumber_exact by lia. reflexivity.
  - pose proof (roundToDouble_large n Hge).
    rewrite toNumber_nonneg by exact H.
    assert ((100 <? n) = true) as -> by lia. rewrite orb_true_r.
    destruct (roundToDouble n <? 2 ^ 1024); [|reflexivity].
    simpl. assert ((100 <? roundToDouble n) = true) as -> by lia.
    apply orb_true_r.
Qed.

(* ------------------------------------------------------------------------- *)
(*  The regular expression and the notation of the specification             *)
(* ------------------------------------------------------------------------- *)

Lemma writtenModifier_head m : noDigitHead (writtenModifier m).
Proof. destruct m as [[[] ds]|]; simpl; auto. Qed.

Lemma matchModifier_written m :
  match m with Some (_, ds) => numeral ds | None => True end ->
  matchModifier (writtenModifier m)
  = Some (match m with
          | None => None
          | Some m' => Some (writtenModifier (Some m'))
          end).
Proof.
  destruct m as [[negative ds]|]; [|reflexivity].
  intros [Hne Hd]. destruct negative.
  - change (writtenModifier (Some (true, ds))) with (String "-"%char ds).
    unfold matchModifier.
    rewrite (bool_decide_eq_false_2 (ds = "")), Hd by exact Hne. reflexivity.
  - change (writtenModifier (Some (false, ds))) with (String "+"%char ds).
    unfold matchModifier.
    rewrite (bool_decide_eq_false_2 (ds = "")), Hd by exact Hne. reflexivity.
Qed.

Lemma matchModifier_Some s g :
  matchModifier s = Some g ->
  exists m,
    match m with Some (_, ds) => numeral ds | None => True end
    /\ s = writtenModifier m
    /\ g = match m with
           | None => None
           | Some m' => Some (writtenModifier (Some m'))
           end.
Proof.
  destruct s as [|c ds]; simpl.
  - intros [= <-]. exists None. auto.
  - destruct (bool_decide (c = "+"%char)) eqn:Ep;
      [|destruct (bool_decide (c = "-"%char)) eqn:Em]; simpl;
      try discriminate;
      (destruct (bool_decide (ds = "")) eqn:Ee; simpl; [discriminate|]);
      (destruct (allDigits ds) eqn:Ed; [|discriminate]);
      intros [= <-]; apply bool_decide_eq_false in Ee.
    + apply bool_decide_eq_true in Ep. subst c.
      exists (Some (false, ds)). unfold numeral. auto.
    + apply bool_decide_eq_true in Em. subst c.
      exists (Some (true, ds)). unfold numeral. auto.
Qed.

Lemma matchKeep_written k rest :
  match k with KeepAll => True | KeepHigh n => numeral n | KeepLow n => numeral n end ->
  noDigitHead rest ->
  dropPrefix "k" rest = None ->
  matchKeep (writtenKeep k +:+ rest)
  = Some (match k with KeepHigh n => Some n | _ => None end,
          match k with KeepLow n => Some n | _ => None end,
          rest).
Proof.
  intros Hk Hrest Hnok. destruct k as [|n|n]; simpl writtenKeep.
  - simpl. unfold matchKeep.
    destruct rest as [|c rest]; [reflexivity|].
    simpl in *. destruct (bool_decide ("k"%char = c)); [discriminate|].
    reflexivity.
  - unfold matchKeep.
    change (("kh" +:+ n) +:+ rest) with ("kh" +:+ (n +:+ rest)).
    rewrite dropPrefix_app.
    destruct Hk as [Hne Hd].
    rewrite (takeDigits_app n rest Hd Hrest).
    rewrite bool_decide_eq_false_2 by exact Hne. reflexivity.
  - unfold matchKeep.
    change (("kl" +:+ n) +:+ rest) with ("kl" +:+ (n +:+ rest)).
    assert (dropPrefix "kh" ("kl" +:+ n +:+ rest) = None) as -> by reflexivity.
    rewrite dropPrefix_app.
    destruct Hk as [Hne Hd].
    rewrite (takeDigits_app n rest Hd Hrest).
    rewrite bool_decide_eq_false_2 by exact Hne. reflexivity.
Qed.

Lemma matchKeep_Some s kh kl rest :
  matchKeep s = Some (kh, kl, rest) ->
  exists k,
    match k with KeepAll => True | KeepHigh n => numeral n | KeepLow n => numeral n end
    /\ s = writtenKeep k +:+ rest
    /\ kh = match k with KeepHigh n => Some n | _ => None end
    /\ kl = match k with KeepLow n => Some n | _ => None end.
Proof.
  unfold matchKeep.
  destruct (dropPrefix "kh" s) as [s'|] eqn:Eh.
  - apply dropPrefix_Some in Eh. subst s.
    pose proof (takeDigits_spec s') as (H1 & H2 & H3).
    destruct (takeDigits s') as [n r]. simpl in *.
    destruct (bool_decide (n = "")) eqn:Ee; [discriminate|].
    apply bool_decide_eq_false in Ee.
    intros [= <- <- <-]. exists (KeepHigh n). unfold numeral.
    split_and!; auto. simpl. rewrite H1. reflexivity.
  - destruct (dropPrefix "kl" s) as [s'|] eqn:El.
    + apply dropPrefix_Some in El. subst s.
      pose proof (takeDigits_spec s') as (H1 & H2 & H3).
      destruct (takeDigits s') as [n r]. simpl in *.
      destruct (bool_decide (n = "")) eqn:Ee; [discriminate|].
      apply bool_decide_eq_false in Ee.
      intros [= <- <- <-]. exists (KeepLow n). unfold numeral.
      split_and!; auto. simpl. rewrite H1. reflexivity.
    + intros [= <- <- <-]. exists KeepAll. auto.
Qed.

Lemma writtenModifier_no_k m : dropPrefix "k" (writtenModifier m) = None.
Proof. destruct m as [[[] ds]|]; reflexivity. Qed.

(** The regular expression matches the text of every well-formed
    notation, and captures its parts. *)
Lemma matchNotation_written n :
  wellFormed n -> matchNotation (written n) = Some (groupsOf n).
Proof.
  intros (Hc & Hs & Hk & Hm). unfold matchNotation, written.
  assert (allDigits (default "" (n_count n)) = true) as Hcd.
  { destruct (n_count n); [apply Hc|reflexivity]. }
  rewrite (takeDigits_app _ _ Hcd) by reflexivity.
  change ("d" +:+ n_sides n +:+ writtenKeep (n_keep n)
          +:+ writtenModifier (n_modifier n))
    with ("d" +:+ (n_sides n +:+ writtenKeep (n_keep n)
                   +:+ writtenModifier (n_modifier n))).
  rewrite dropPrefix_app.
  assert (noDigitHead (writtenKeep (n_keep n)
                       +:+ writtenModifier (n_modifier n))) as Hhead.
  { destruct (n_keep n); simpl; auto. apply writtenModifier_head. }
  destruct Hs as [Hsne Hsd].
  rewrite (takeDigits_app _ _ Hsd Hhead).
  rewrite bool_decide_eq_false_2 by exact Hsne.
  rewrite (matchKeep_written _ _ Hk (writtenModifier_head _)
             (writtenModifier_no_k _)).
  rewrite (matchModifier_written _ Hm).
  reflexivity.
Qed.

(** What the regular expression matches is the text of a well-formed
    notation, whose parts it captures. *)
Lemma matchNotation_Some s m :
  matchNotation s = Some m ->
  exists n, wellFormed n /\ s = written n /\ m = groupsOf n.
Proof.
  unfold matchNotation.
  pose proof (takeDigits_spec s) as (H1 & H2 & H3).
  destruct (takeDigits s) as [cs r1]. simpl in H1, H2, H3. cbv beta iota.
  destruct (dropPrefix "d" r1) as [r2|] eqn:Ed; [|discriminate].
  apply dropPrefix_Some in Ed. subst r1.
  pose proof (takeDigits_spec r2) as (G1 & G2 & G3).
  destruct (takeDigits r2) as [ss r3]. simpl in G1, G2, G3. cbv beta iota.
  destruct (bool_decide (ss = "")) eqn:Ee; [discriminate|].
  apply bool_decide_eq_false in Ee.
  destruct (matchKeep r3) as [[[kh kl] r4]|] eqn:Ek; [|discriminate].
  apply matchKeep_Some in Ek as (k & Hk & -> & -> & ->).
  destruct (matchModifier r4) as [g|] eqn:Em; [|discriminate].
  apply matchModifier_Some in Em as (md & Hmd & -> & ->).
  intros [= <-].
  exists {| n_count := if bool_decide (cs = "") then None else Some cs;
            n_sides := ss; n_keep := k; n_modifier := md |}.
  split_and!.
  - unfold wellFormed, numeral. simpl. split_and!; auto.
    destruct (bool_decide (cs = "")) eqn:Ec; [exact I|].
    apply bool_decide_eq_false in Ec. auto.
  - unfold written. simpl. rewrite H1, G1. f_equal.
    destruct (bool_decide (cs = "")) eqn:Ec; simpl; [|reflexivity].
    apply bool_decide_eq_true in Ec. subst cs. reflexivity.
  - unfold groupsOf. simpl. f_equal.
    destruct (bool_decide (cs = "")) eqn:Ec; simpl; [|reflexivity].
    apply bool_decide_eq_true in Ec. subst cs. reflexivity.
Qed.

(** A well-formed notation is known from the groups of its text. *)
Lemma groupsOf_inj n n' :
  wellFormed n -> wellFormed n' -> groupsOf n = groupsOf n' -> n = n'.
Proof.
  destruct n as [c s k m], n' as [c' s' k' m'].
  unfold wellFormed, groupsOf. simpl.
  intros (Hc & _ & _ & _) (Hc' & _ & _ & _) [= E1 E2 E3 E4 E5].
  f_equal.
  - destruct c as [c|], c' as [c'|]; simpl in *; subst; auto.
    + destruct Hc as [Hc _]. congruence.
    + destruct Hc' as [Hc' _]. congruence.
  - exact E2.
  - destruct k, k'; congruence.
  - destruct m as [[[] ds]|], m' as [[[] ds']|]; cbv in E5; congruence.
Qed.

(* ------------------------------------------------------------------------- *)
(*  parseDiceNotation                                                        *)
(* ------------------------------------------------------------------------- *)

Lemma denotes_unique notation n n' :
  denotes notation n -> denotes notation n' -> n = n'.
Proof.
  intros [Hn En] [Hn' En'].
  apply groupsOf_inj; [exact Hn|exact Hn'|].
  pose proof (matchNotation_written n Hn) as H.
  pose proof (matchNotation_written n' Hn') as H'.
  rewrite <- En in H. rewrite <- En' in H'. congruence.
Qed.

Lemma parseDiceNotation_no_match notation :
  ~ (exists n, denotes notation n) ->
  parseDiceNotation notation = Throw (InvalidNotation notation).
Proof.
  intros Hnone. unfold parseDiceNotation.
  destruct (matchNotation _) as [m|] eqn:E; [|reflexivity].
  exfalso. apply Hnone.
  apply matchNotation_Some in E as (n & Hwf & Hs & _).
  exists n. split; assumption.
Qed.

Lemma theInteger_toNumber n :
  0 <= n ->
  theInteger (toNumber n)
  = if roundToDouble n <? 2 ^ 1024 then Ok (roundToDouble n)
    else Throw NotFinite.
Proof.
  intros H. rewrite toNumber_nonneg by exact H.
  destruct (roundToDouble n <? 2 ^ 1024); reflexivity.
Qed.

Lemma theInteger_toNumber_opp n :
  0 <= n ->
  theInteger (toNumber (- n))
  = if roundToDouble n <? 2 ^ 1024 then Ok (- roundToDouble n)
    else Throw NotFinite.
Proof.
  intros H. rewrite toNumber_opp by exact H.
  destruct (roundToDouble n <? 2 ^ 1024); reflexivity.
Qed.

Lemma countOf_nonneg n : wellFormed n -> 0 <= countOf n /\ 0 <= sidesOf n.
Proof.
  intros (Hc & Hs & _). unfold countOf, sidesOf. split.
  - destruct (n_count n); [apply numeralValue_nonneg, Hc|lia].
  - apply numeralValue_nonneg, Hs.
Qed.

(** What parseDiceNotation returns on the text of a notation. *)
Lemma parseDiceNotation_denotes notation n :
  denotes notation n ->
  parseDiceNotation notation
  = if decide (inRange (countOf n))
    then if decide (inRange (sidesOf n))
         then if finiteNumerals n
              then Ok (returnedFor n)
              else Throw NotFinite
         else Throw (InvalidDiceSides (toNumber (sidesOf n)))
    else Throw (InvalidDiceCount (toNumber (countOf n))).
Proof.
  intros [Hwf Hs]. unfold parseDiceNotation.
  rewrite Hs, (matchNotation_written n Hwf).
  destruct (countOf_nonneg n Hwf) as [Hc0 Hs0].
  destruct Hwf as (Hc & Hsides & Hk & Hm).
  assert ((if bool_decide (countStr (groupsOf n) = "") then Finite 1
           else parseInt (countStr (groupsOf n))) = toNumber (countOf n)) as ->.
  { unfold groupsOf, countOf. simpl. destruct (n_count n) as [c|]; simpl.
    - rewrite bool_decide_eq_false_2 by apply Hc.
      apply parseInt_numeral, Hc.
    - reflexivity. }
  assert (parseInt (sidesStr (groupsOf n)) = toNumber (sidesOf n)) as ->.
  { apply parseInt_numeral, Hsides. }
  rewrite !outsideDice_toNumber by assumption.
  pose proof double_range as [Hd1 Hd2].
  unfold inRange.
  destruct (decide (1 <= countOf n <= 100)) as [Hc1|Hc1].
  2:{ assert ((countOf n <? 1) || (100 <? countOf n) = true) as -> by lia.
      reflexivity. }
  assert ((countOf n <? 1) || (100 <? countOf n) = false) as -> by lia.
  destruct (decide (1 <= sidesOf n <= 100)) as [Hs1|Hs1].
  2:{ assert ((sidesOf n <? 1) || (100 <? sidesOf n) = true) as -> by lia.
      reflexivity. }
  assert ((sidesOf n <? 1) || (100 <? sidesOf n) = false) as -> by lia.
  rewrite !toNumber_exact by lia. cbn [theInteger bind].
  unfold finiteNumerals, finiteNumeral, returnedFor, groupsOf.
  cbn [modifierStr keepHighStr keepLowStr].
  destruct (n_modifier n) as [[negative m]|].
  - rewrite (parseInt_signed negative m Hm).
    destruct Hm as [_ Hm]. apply numeralValue_nonneg in Hm.
    destruct negative;
      [rewrite theInteger_toNumber_opp by exact Hm
      |rewrite theInteger_toNumber by exact Hm];
      (destruct (roundToDouble (numeralValue m) <? 2 ^ 1024);
       [|rewrite andb_false_r; reflexivity]);
      rewrite andb_true_r; cbn [bind];
      (destruct (n_keep n) as [|k|k]; cbn [fmap option_fmap option_map
                                            theIntegerIfAny bind];
       [reflexivity| |]);
      rewrite (parseInt_numeral k Hk);
      destruct Hk as [_ Hk]; apply numeralValue_nonneg in Hk;
      rewrite theInteger_toNumber by exact Hk;
      destruct (roundToDouble (numeralValue k) <? 2 ^ 1024); reflexivity.
  - rewrite andb_true_r. cbn [theInteger bind].
    destruct (n_keep n) as [|k|k]; cbn [fmap option_fmap option_map
                                         theIntegerIfAny bind];
      [reflexivity| |];
      rewrite (parseInt_numeral k Hk);
      destruct Hk as [_ Hk]; apply numeralValue_nonneg in Hk;
      rewrite theInteger_toNumber by exact Hk;
      destruct (roundToDouble (numeralValue k) <? 2 ^ 1024); reflexivity.
Qed.

(** Numerals up to 2^53 are returned as they are written. *)
Lemma returnedFor_exact n :
  exactNumerals n -> finiteNumerals n = true /\ returnedFor n = parsedOf n.
Proof.
  intros [Hk Hm]. pose proof double_range as [_ Hd].
  unfold finiteNumerals, finiteNumeral, returnedFor, parsedOf.
  destruct (n_keep n) as [|k|k]; destruct (n_modifier n) as [[[|] m]|];
    rewrite ?roundToDouble_exact by assumption;
    (split; [|reflexivity]);
    repeat match goal with
           | |- context [?x <? 2 ^ 1024] =>
               destruct (Z.ltb_spec x (2 ^ 1024)); [|lia]
           end;
    reflexivity.
Qed.

(** Claim C9, amended.  parseDiceNotation reads every numeral of the
    notation as parseInt does, as the double nearest to the integer the
    digits write.  It returns r exactly when the notation, lowercased and
    without whitespace, is the text of a well-formed
    [count]d<sides>[kh<N>|kl<N>][+|-modifier] whose count (1 when absent) and
    sides are within 1..100 and whose keep count and modifier are read as
    finite numbers, r being the count, the sides, the modifier as read (0
    when absent) and keepHighest or keepLowest as read.  It raises
    InvalidNotation exactly when the text is no such notation,
    InvalidDiceCount with the count as read exactly when the count is
    outside 1..100, and InvalidDiceSides with the sides as read exactly
    when the count is inside and the sides are outside 1..100.  A keep count
    or a modifier that is read as an infinity, which the code returns, is
    not a number of the embedding: parseDiceNotation is NotFinite exactly
    there.  At most one of keepHighest and keepLowest is returned.  What is
    read is what is written for every integer up to 2^53, so that a notation
    whose numerals are no larger is returned as the claim says. *)
Theorem parseDiceNotation_spec notation :
  (forall r,
     parseDiceNotation notation = Ok r <->
     exists n, denotes notation n
               /\ inRange (countOf n) /\ inRange (sidesOf n)
               /\ finiteNumerals n = true
               /\ r = returnedFor n)
  /\ (forall e,
        parseDiceNotation notation = Throw e <->
        (e = InvalidNotation notation /\ ~ exists n, denotes notation n)
        \/ (exists n, denotes notation n
                      /\ ~ inRange (countOf n)
                      /\ e = InvalidDiceCount (toNumber (countOf n)))
        \/ (exists n, denotes notation n
                      /\ inRange (countOf n) /\ ~ inRange (sidesOf n)
                      /\ e = InvalidDiceSides (toNumber (sidesOf n)))
        \/ (exists n, denotes notation n
                      /\ inRange (countOf n) /\ inRange (sidesOf n)
                      /\ finiteNumerals n = false
                      /\ e = NotFinite))
  /\ (forall r,
        parseDiceNotation notation = Ok r ->
        keepHighest r = None \/ keepLowest r = None)
  /\ (forall n,
        exactNumerals n ->
        finiteNumerals n = true /\ returnedFor n = parsedOf n)
  /\ (forall v, - 2 ^ 53 <= v <= 2 ^ 53 -> toNumber v = Finite v).
Proof.
  split; [|split; [|split; [|split;
    [exact returnedFor_exact|exact toNumber_exact]]]].
  all: assert ((exists n, denotes notation n) \/ ~ (exists n, denotes notation n))
    as [[n Hn]|Hnone]
    by (destruct (matchNotation (removeWhitespace (toLowerCase notation)))
          as [m|] eqn:E;
        [left; apply matchNotation_Some in E as (n & Hwf & Hs & _);
         exists n; split; assumption
        |right; intros [n [Hwf Hs]];
         rewrite Hs, (matchNotation_written n Hwf) in E; discriminate]).
  all: try (rewrite (parseDiceNotation_no_match notation Hnone)).
  all: try (rewrite (parseDiceNotation_denotes notation n Hn);
            assert (forall n', denotes notation n' -> n' = n) as Huniq
              by (intros n' Hn'; apply (denotes_unique notation); assumption)).
  - (* Ok, a notation *)
    intros r.
    destruct (decide (inRange (countOf n))) as [Hc|Hc];
      [destruct (decide (inRange (sidesOf n))) as [Hs|Hs];
       [destruct (finiteNumerals n) eqn:Hf|]|];
      (split;
       [try discriminate; intros [= <-]; eauto 8
       |intros (n' & Hn' & Hc' & Hs' & Hf' & ->);
        rewrite (Huniq n' Hn') in *; try contradiction; try congruence]).
  - (* Ok, no notation *)
    intros r. split; [discriminate|].
    intros (n & Hn & _). exfalso. apply Hnone. eauto.
  - (* Throw, a notation *)
    intros e.
    destruct (decide (inRange (countOf n))) as [Hc|Hc];
      [destruct (decide (inRange (sidesOf n))) as [Hs|Hs];
       [destruct (finiteNumerals n) eqn:Hf|]|];
      (split;
       [try discriminate; intros [= <-];
        first [right; right; right; solve [eauto 8]
              |right; right; left; solve [eauto 8]
              |right; left; solve [eauto 8]]
       |intros [[_ Hno]
               |[(n' & Hn' & Hbad & He)
                |[(n' & Hn' & Hc' & Hbad & He)
                 |(n' & Hn' & Hc' & Hs' & Hf' & He)]]];
        [exfalso; apply Hno; eauto|..];
        rewrite (Huniq n' Hn') in *; try contradiction; try congruence]).
  - (* Throw, no notation *)
    intros e. split.
    + intros [= <-]. left. auto.
    + intros [[-> _]|[(n & Hn & _)|[(n & Hn & _)|(n & Hn & _)]]];
        [reflexivity|exfalso; apply Hnone; eauto..].
  - (* at most one keep, a notation *)
    intros r.
    destruct (decide (inRange (countOf n)));
      [destruct (decide (inRange (sidesOf n)));
       [destruct (finiteNumerals n)|]|]; try discriminate.
    intros [= <-]. unfold returnedFor. simpl. destruct (n_keep n); auto.
  - discriminate.
Qed.

(** Four d6, the three highest kept, plus 2. *)
Lemma parseDiceNotation_spec_witness :
  parseDiceNotation "4D6 kh3+2"
  = Ok {| count := 4; sides := 6; dice_modifier := 2;
          keepHighest := Some 3; keepLowest := None |}.
Proof.
  apply (proj2 (proj1 (parseDiceNotation_spec "4D6 kh3+2") _)).
  exists {| n_count := Some "4"; n_sides := "6"; n_keep := KeepHigh "3";
            n_modifier := Some (false, "2") |}.
  unfold denotes, wellFormed, numeral, inRange.
  split_and!; try reflexivity; try discriminate;
    simpl; (split; [discriminate|reflexivity]).
Defined.

(** Claim C9 as stated fails on numerals above 2^53: the claim has the
    numbers that are written returned, and the code returns the doubles
    nearest to them.  For 1d6+99999999999999999999 the claim's modifier is
    99999999999999999999 and the code's is 100000000000000000000; for
    2d6kh9007199254740993 the claim's keepHighest is 9007199254740993 and the
    code's is 9007199254740992; and the count of 9007199254740993d6 is
    reported as 9007199254740992. *)
Lemma parseDiceNotation_rounds_large_numerals :
  let n := {| n_count := Some "1"; n_sides := "6"; n_keep := KeepAll;
              n_modifier := Some (false, "99999999999999999999") |} in
  denotes "1d6+99999999999999999999" n
  /\ inRange (countOf n) /\ inRange (sidesOf n)
  /\ dice_modifier (parsedOf n) = 99999999999999999999
  /\ parseDiceNotation "1d6+99999999999999999999"
     = Ok {| count := 1; sides := 6; dice_modifier := 100000000000000000000;
             keepHighest := None; keepLowest := None |}
  /\ parseDiceNotation "1d6+99999999999999999999" <> Ok (parsedOf n)
  /\ parseDiceNotation "2d6kh9007199254740993"
     = Ok {| count := 2; sides := 6; dice_modifier := 0;
             keepHighest := Some 9007199254740992; keepLowest := None |}
  /\ parseDiceNotation "9007199254740993d6"
     = Throw (InvalidDiceCount (Finite 9007199254740992)).
Proof.
  cbv zeta.
  split.
  { split; [|vm_compute; reflexivity].
    unfold wellFormed, numeral. simpl.
    split_and!; try exact I; try discriminate; reflexivity. }
  split; [vm_compute; split; discriminate|].
  split; [vm_compute; split; discriminate|].
  split; [vm_compute; reflexivity|].
  assert (parseDiceNotation "1d6+99999999999999999999"
          = Ok {| count := 1; sides := 6;
                  dice_modifier := 100000000000000000000;
                  keepHighest := None; keepLowest := None |}) as H
    by (vm_compute; reflexivity).
  split; [exact H|].
  split; [rewrite H; vm_compute; discriminate|].
  split; vm_compute; reflexivity.
Qed.

(* ------------------------------------------------------------------------- *)
(*  startCombat                                                              *)
(* ------------------------------------------------------------------------- *)

Lemma mapResult_Ok {A B : Type} (f : A -> result B) (l : list A) :
  Forall (fun x => exists y, f x = Ok y) l ->
  exists ys, mapResult f l = Ok ys /\ Forall2 (fun x y => f x = Ok y) l ys.
Proof.
  induction 1 as [|x l [y Hy] Hl (ys & IH1 & IH2)]; simpl.
  - exists []. split; [reflexivity|constructor].
  - exists (y :: ys). rewrite Hy, IH1. split; [reflexivity|].
    constructor; assumption.
Qed.

Lemma append_not_empty (a : string) c (b : string) : a +:+ String c b <> "".
Proof. destruct a; discriminate. Qed.

Lemma enemyName_count monsters i monster :
  enemyName monsters i monster
  = if (1 <? sameNameCount monsters monster)%nat
    then mon_name monster +:+ " " +:+ decimal (i + 1)
    else mon_name monster.
Proof.
  unfold enemyName, sameNameCount.
  pose proof (filter_length_le
                (fun m => bool_decide (mon_name m = mon_name monster)) monsters).
  destruct (1 <? length (List.filter _ monsters))%nat eqn:E.
  - apply Nat.ltb_lt in E.
    assert ((1 <? length monsters)%nat = true) as ->
      by (apply Nat.ltb_lt; lia).
    reflexivity.
  - rewrite andb_false_r. reflexivity.
Qed.

Lemma enemyEntries_lookup monsters i monster :
  monsters !! i = Some monster ->
  enemyEntries monsters !! i
  = Some {| ic_id := enemyId i monster;
            ic_name := enemyName monsters i monster;
            ic_dexterityModifier :=
              getAbilityModifier (dexterity (mon_abilityScores monster));
            ic_source := MonsterSource monster;
            ic_type := enemy |}.
Proof.
  intros H. unfold enemyEntries. rewrite list_lookup_imap, H. reflexivity.
Qed.

Lemma initiativeCombatants_enemy characters monsters allyMonsters i monster :
  monsters !! i = Some monster ->
  initiativeCombatants characters monsters allyMonsters
    !! (length characters + i)%nat
  = Some {| ic_id := enemyId i monster;
            ic_name := enemyName monsters i monster;
            ic_dexterityModifier :=
              getAbilityModifier (dexterity (mon_abilityScores monster));
            ic_source := MonsterSource monster;
            ic_type := enemy |}.
Proof.
  intros H. unfold initiativeCombatants, characterEntries.
  rewrite lookup_app_r by (rewrite length_fmap; lia).
  rewrite length_fmap, Nat.add_comm, Nat.add_sub.
  rewrite lookup_app_l.
  - apply enemyEntries_lookup, H.
  - unfold enemyEntries. rewrite length_imap. eauto using lookup_lt_Some.
Qed.

(** The entry that the callback of startCombat finds for a result is the
    one the result was rolled for, when no two entries share an id. *)
Lemma combatantOf_entry uuid entries k e r :
  NoDup (ic_id <$> entries) ->
  entries !! k = Some e ->
  combatantId r = ic_id e ->
  combatantOf uuid entries r =
    match ic_source e with
    | CharacterSource character =>
        Ok (createCombatantFromCharacter character r)
    | MonsterSource monster =>
        Ok (with_name (ic_name e)
              (createCombatantFromMonster uuid monster r (ic_type e)
                 (Some (ic_id e))))
    end.
Proof.
  intros Hnodup Hk Hid. unfold combatantOf.
  destruct (list_find _ entries) as [[k' e']|] eqn:Efind.
  - apply list_find_Some in Efind as (Hk' & Hid' & _).
    assert (k' = k) as ->.
    { apply (NoDup_lookup (ic_id <$> entries) k' k (ic_id e) Hnodup).
      - rewrite list_lookup_fmap, Hk'. simpl. congruence.
      - rewrite list_lookup_fmap, Hk. reflexivity. }
    assert (e' = e) as -> by congruence. reflexivity.
  - exfalso. apply list_find_None in Efind.
    rewrite Forall_forall in Efind.
    apply (Efind e); [eapply list_elem_of_lookup_2; eauto|congruence].
Qed.

Lemma combatantOf_returns uuid entries r :
  combatantId r ∈ ic_id <$> entries ->
  exists c, combatantOf uuid entries r = Ok c.
Proof.
  intros Hin. apply list_elem_of_fmap in Hin as (e & Hid & He).
  unfold combatantOf.
  destruct (list_find_elem_of (fun c => ic_id c = combatantId r) entries e He)
    as [[k e'] ->]; [congruence|].
  destruct (ic_source e'); eauto.
Qed.

Lemma rollAll_ids rng (entries : list InitiativeCombatant) :
  combatantId
    <$> rollAll rng
          (requestOf <$> entries)
  = ic_id <$> entries.
Proof.
  apply list_eq. intros k.
  rewrite !list_lookup_fmap, rollAll_lookup, list_lookup_fmap.
  destruct (entries !! k); reflexivity.
Qed.

(** startCombat returns: it raises no exception. *)
Lemma startCombat_returns rng uuid characters monsters allyMonsters surprisedIds :
  exists combatants,
    startCombat rng uuid characters monsters allyMonsters surprisedIds
    = Ok {| combat_id := uuid; round := 1; initiativeOrder := combatants;
            currentTurnIndex := 0; surprisedCombatantIds := surprisedIds;
            environmentalEffects := []; isActive := true |}
    /\ Forall2
         (fun r c =>
            combatantOf uuid
              (initiativeCombatants characters monsters allyMonsters) r = Ok c)
         (rollInitiative rng
            (requestOf
               <$> initiativeCombatants characters monsters allyMonsters))
         combatants.
Proof.
  unfold startCombat.
  set (entries := initiativeCombatants characters monsters allyMonsters).
  set (requests := requestOf <$> entries).
  destruct (mapResult_Ok (combatantOf uuid entries)
              (rollInitiative rng requests)) as (combatants & Hmap & Hall).
  { apply Forall_forall. intros r Hr. apply combatantOf_returns.
    unfold rollInitiative in Hr. rewrite sort_perm in Hr.
    rewrite <- (rollAll_ids rng entries). fold requests.
    apply list_elem_of_fmap. eauto. }
  exists combatants. rewrite Hmap. split; [reflexivity|exact Hall].
Qed.

(** Claim C2 (a defect of the code).  The claim: in every state reachable
    from startCombat in round 1, the state startCombat returns included, the
    combatant getCurrentCombatant reports is not in surprisedCombatantIds.
    startCombat sets currentTurnIndex to 0 without the test for surprise that
    nextTurn makes.  Here a combat is started with one character, who is
    surprised: whatever the rolls, the combat returned is active and in round
    1, and its current combatant is the surprised character. *)
Theorem startCombat_turn_of_surprised rng uuid :
  exists combat cur,
    startCombat rng uuid [mockCharacter "hero"] [] [] ["hero"] = Ok combat
    /\ round combat = 1
    /\ isActive combat = true
    /\ getCurrentCombatant combat = Some cur
    /\ id cur ∈ surprisedCombatantIds combat.
Proof.
  do 2 eexists.
  split; [reflexivity|]. split; [reflexivity|]. split; [reflexivity|].
  split; [reflexivity|]. simpl. apply list_elem_of_here.
Qed.

Lemma combatantOf_Ok uuid entries r c :
  combatantOf uuid entries r = Ok c ->
  exists e,
    e ∈ entries
    /\ c = match ic_source e with
           | CharacterSource character =>
               createCombatantFromCharacter character r
           | MonsterSource monster =>
               with_name (ic_name e)
                 (createCombatantFromMonster uuid monster r (ic_type e)
                    (Some (ic_id e)))
           end.
Proof.
  unfold combatantOf.
  destruct (list_find _ entries) as [[k e]|] eqn:E; [|discriminate].
  apply list_find_Some in E as (Hk & _ & _).
  intros H. exists e. split; [apply list_elem_of_lookup; eauto|].
  destruct (ic_source e); injection H as <-; reflexivity.
Qed.

(** The entries startCombat makes: a character is entered under its own id
    and name as a player character, and the id of a monster is never
    empty, so that createCombatantFromMonster keeps it. *)
Lemma initiativeCombatants_entries characters monsters allyMonsters e :
  e ∈ initiativeCombatants characters monsters allyMonsters ->
  match ic_source e with
  | CharacterSource character =>
      ic_id e = char_id character /\ ic_name e = char_name character
      /\ ic_type e = player_character
  | MonsterSource _ => ic_id e <> ""
  end.
Proof.
  unfold initiativeCombatants. rewrite !elem_of_app.
  intros [H|[H|H]].
  - unfold characterEntries in H. apply list_elem_of_fmap in H as (ch & -> & H).
    simpl. auto.
  - unfold enemyEntries in H. apply list_elem_of_lookup in H as [i H].
    rewrite list_lookup_imap in H.
    destruct (monsters !! i) as [m|] eqn:Em; [|discriminate].
    injection H as <-. simpl.
    change ("_" +:+ decimal (i + 1)) with (String "_" (decimal (i + 1))).
    apply append_not_empty.
  - unfold allyEntries in H. apply list_elem_of_lookup in H as [i H].
    rewrite list_lookup_imap in H.
    destruct (allyMonsters !! i) as [m|] eqn:Em; [|discriminate].
    injection H as <-. simpl. discriminate.
Qed.

(** The combatant made for an initiative result has the id of the result,
    and the name, the type and the player flag of the first entry that has
    this id. *)
Lemma combatantOf_first_entry uuid characters monsters allyMonsters r c :
  combatantOf uuid (initiativeCombatants characters monsters allyMonsters) r
  = Ok c ->
  id c = combatantId r
  /\ exists k e,
       list_find (fun e => ic_id e = combatantId r)
         (initiativeCombatants characters monsters allyMonsters) = Some (k, e)
       /\ name c = ic_name e
       /\ type c = ic_type e
       /\ isPlayer c = match ic_source e with
                       | CharacterSource _ => true
                       | MonsterSource _ => false
                       end.
Proof.
  unfold combatantOf.
  destruct (list_find _ _) as [[k e]|] eqn:E; [|discriminate].
  pose proof E as E'. apply list_find_Some in E' as (Hk & Hid & _).
  assert (e ∈ initiativeCombatants characters monsters allyMonsters) as He
    by (apply list_elem_of_lookup; eauto).
  apply initiativeCombatants_entries in He.
  destruct (ic_source e) as [character|monster] eqn:Esource; intros [= <-].
  - destruct He as (H1 & H2 & H3). simpl. split; [congruence|].
    exists k, e. rewrite Esource.
    split_and!; [reflexivity|congruence..|reflexivity].
  - simpl. rewrite bool_decide_eq_false_2 by exact He.
    split; [exact Hid|]. exists k, e. rewrite Esource.
    split_and!; reflexivity.
Qed.

(** startCombat returns for all arguments: an active combat in round 1, at
    index 0, with the given surprised ids and as many combatants as there
    are participants (characters, enemy monsters and ally monsters), whose
    ids are, up to the order, the ids under which the participants were
    entered.  Every combatant has the name, the type and the player flag of
    the first participant entered under its id.  So, when no two participants
    are entered under the same id, no two combatants have the same id and
    every participant has its combatant, with its id, name, type and player
    flag: one combatant per character, enemy monster and ally monster.  When
    two participants are entered under one id, the first of them is made a
    combatant twice and the second never. *)
Theorem startCombat_never_throws rng uuid characters monsters allyMonsters
    surprisedIds :
  let participants := initiativeCombatants characters monsters allyMonsters in
  exists combat,
    startCombat rng uuid characters monsters allyMonsters surprisedIds
    = Ok combat
    /\ round combat = 1
    /\ currentTurnIndex combat = 0%nat
    /\ isActive combat = true
    /\ surprisedCombatantIds combat = surprisedIds
    /\ length (initiativeOrder combat)
       = (length characters + length monsters + length allyMonsters)%nat
    /\ id <$> initiativeOrder combat ≡ₚ ic_id <$> participants
    /\ (forall c,
          c ∈ initiativeOrder combat ->
          exists k e,
            list_find (fun e => ic_id e = id c) participants = Some (k, e)
            /\ name c = ic_name e
            /\ type c = ic_type e
            /\ isPlayer c = match ic_source e with
                            | CharacterSource _ => true
                            | MonsterSource _ => false
                            end)
    /\ (NoDup (ic_id <$> participants) ->
        NoDup (id <$> initiativeOrder combat)
        /\ forall e,
             e ∈ participants ->
             exists c,
               c ∈ initiativeOrder combat
               /\ id c = ic_id e
               /\ name c = ic_name e
               /\ type c = ic_type e
               /\ isPlayer c = match ic_source e with
                               | CharacterSource _ => true
                               | MonsterSource _ => false
                               end).
Proof.
  intros participants.
  destruct (startCombat_returns rng uuid characters monsters allyMonsters
              surprisedIds) as (combatants & Hstart & Hall).
  fold participants in Hall.
  set (results := rollInitiative rng (requestOf <$> participants)) in *.
  assert (id <$> combatants = combatantId <$> results) as Hids.
  { clear Hstart. induction Hall as [|r c rs cs Hc Hcs IH]; [reflexivity|].
    rewrite !fmap_cons, IH.
    apply combatantOf_first_entry in Hc as [-> _]. reflexivity. }
  assert (combatantId <$> results ≡ₚ ic_id <$> participants) as Hperm.
  { rewrite <- (rollAll_ids rng participants). apply fmap_Permutation.
    apply sort_perm. }
  assert (forall c,
            c ∈ combatants ->
            exists k e,
              list_find (fun e => ic_id e = id c) participants = Some (k, e)
              /\ name c = ic_name e
              /\ type c = ic_type e
              /\ isPlayer c = match ic_source e with
                              | CharacterSource _ => true
                              | MonsterSource _ => false
                              end) as Hfirst.
  { intros c Hc. apply list_elem_of_lookup in Hc as [j Hj].
    destruct (Forall2_lookup_r _ _ _ _ _ Hall Hj) as (r & _ & Hr).
    apply combatantOf_first_entry in Hr as (Hid & k & e & Hfind & H).
    exists k, e. rewrite Hid. auto. }
  eexists. split; [exact Hstart|]. simpl. split_and!; try reflexivity.
  - rewrite <- (Forall2_length _ _ _ Hall).
    subst results. unfold rollInitiative. rewrite sort_perm. unfold rollAll.
    rewrite length_imap, length_fmap. subst participants.
    unfold initiativeCombatants.
    rewrite !length_app. unfold characterEntries, enemyEntries, allyEntries.
    rewrite length_fmap, !length_imap. lia.
  - rewrite Hids. exact Hperm.
  - exact Hfirst.
  - intros Hnodup. split; [rewrite Hids, Hperm; exact Hnodup|].
    intros e He.
    assert (ic_id e ∈ id <$> combatants) as Hin.
    { rewrite Hids, Hperm. apply list_elem_of_fmap. eauto. }
    apply list_elem_of_fmap in Hin as (c & Hid & Hc).
    exists c. split; [exact Hc|]. split; [congruence|].
    destruct (Hfirst c Hc) as (k & e' & Hfind & H).
    apply list_find_Some in Hfind as (Hk & Hid' & _).
    apply list_elem_of_lookup in He as [k0 Hk0].
    assert (k = k0) as ->.
    { apply (NoDup_lookup (ic_id <$> participants) k k0 (ic_id e) Hnodup).
      - rewrite list_lookup_fmap, Hk. simpl. congruence.
      - rewrite list_lookup_fmap, Hk0. reflexivity. }
    assert (e' = e) as -> by congruence. exact H.
Qed.

(** A character whose id is the id startCombat makes for the first monster:
    the character is made a combatant twice, and the monster never. *)
Example startCombat_same_id_twice :
  (startCombat (fun _ => 0) "uuid" [mockCharacter "goblin_1"]
     [mockMonster "Goblin"] [] []
   >>= fun combat =>
   Ok ((fun c => (id c, name c, type c)) <$> initiativeOrder combat))
  = Ok [("goblin_1", "Test Hero", player_character);
        ("goblin_1", "Test Hero", player_character)].
Proof. reflexivity. Qed.

(** Claim C4, amended.  The enemy monster at index i of the list passed to
    startCombat gets the display name made of its name, a space and the
    numeral of i + 1, its 1-based position in the whole list, when more than
    one monster of the list has its name, and its plain name otherwise.  So
    it is entered in initiativeCombatants; and so it is named in the Combat
    that startCombat returns, where it stands with the id startCombat made
    for it, provided that no two entries of initiativeCombatants have the
    same id. *)
Theorem startCombat_enemy_names rng uuid characters monsters allyMonsters
    surprisedIds i monster :
  monsters !! i = Some monster ->
  let displayName :=
    if (1 <? sameNameCount monsters monster)%nat
    then mon_name monster +:+ " " +:+ decimal (i + 1)
    else mon_name monster in
  (exists e,
     initiativeCombatants characters monsters allyMonsters
       !! (length characters + i)%nat = Some e
     /\ ic_source e = MonsterSource monster
     /\ ic_type e = enemy
     /\ ic_name e = displayName)
  /\ (NoDup (ic_id <$> initiativeCombatants characters monsters allyMonsters) ->
      exists combat c,
        startCombat rng uuid characters monsters allyMonsters surprisedIds
        = Ok combat
        /\ c ∈ initiativeOrder combat
        /\ id c = enemyId i monster
        /\ type c = enemy
        /\ name c = displayName).
Proof.
  intros Hi displayName.
  pose proof (initiativeCombatants_enemy characters monsters allyMonsters i
                monster Hi) as Hentry.
  split.
  { eexists. split; [exact Hentry|]. simpl.
    split_and!; [reflexivity..|]. apply enemyName_count. }
  intros Hnodup.
  destruct (startCombat_returns rng uuid characters monsters allyMonsters
              surprisedIds) as (combatants & Hstart & Hall).
  set (entries := initiativeCombatants characters monsters allyMonsters) in *.
  set (requests := requestOf <$> entries) in *.
  set (e := {| ic_id := enemyId i monster |}) in Hentry.
  set (k := (length characters + i)%nat) in Hentry.
  destruct (rollAll rng requests !! k) as [r|] eqn:Er.
  2:{ exfalso. rewrite rollAll_lookup in Er. subst requests.
      rewrite list_lookup_fmap, Hentry in Er. discriminate. }
  assert (combatantId r = ic_id e) as Hid.
  { rewrite rollAll_lookup in Er. subst requests.
    rewrite list_lookup_fmap, Hentry in Er. injection Er as <-. reflexivity. }
  assert (r ∈ rollInitiative rng requests) as Hin.
  { unfold rollInitiative. rewrite sort_perm.
    eapply list_elem_of_lookup_2. exact Er. }
  apply list_elem_of_lookup_1 in Hin as [j Hj].
  destruct (Forall2_lookup_l _ _ _ _ _ Hall Hj) as (c & Hc & Hof).
  rewrite (combatantOf_entry uuid entries k e r Hnodup Hentry Hid) in Hof.
  simpl in Hof. injection Hof as <-.
  eexists. eexists. split; [exact Hstart|].
  split; [eapply list_elem_of_lookup_2; exact Hc|].
  split_and!.
  - simpl. rewrite bool_decide_eq_false_2; [reflexivity|].
    apply append_not_empty.
  - reflexivity.
  - simpl. apply enemyName_count.
Qed.

(** The third monster of Goblin, Orc, Goblin is entered, and stands in the
    combat, as Goblin 3. *)
Lemma startCombat_enemy_names_witness :
  [mockMonster "Goblin"; mockMonster "Orc"; mockMonster "Goblin"] !! 2%nat
  = Some (mockMonster "Goblin")
  /\ NoDup (ic_id <$> initiativeCombatants []
                        [mockMonster "Goblin"; mockMonster "Orc";
                         mockMonster "Goblin"] [])
  /\ (exists e,
        initiativeCombatants []
          [mockMonster "Goblin"; mockMonster "Orc"; mockMonster "Goblin"] []
          !! 2%nat = Some e
        /\ ic_source e = MonsterSource (mockMonster "Goblin")
        /\ ic_type e = enemy
        /\ ic_name e = "Goblin 3")
  /\ (exists combat c,
        startCombat (fun _ => 0) "uuid" []
          [mockMonster "Goblin"; mockMonster "Orc"; mockMonster "Goblin"] [] []
        = Ok combat
        /\ c ∈ initiativeOrder combat
        /\ id c = "goblin_3"
        /\ type c = enemy
        /\ name c = "Goblin 3").
Proof.
  assert (NoDup (ic_id <$> initiativeCombatants []
                   [mockMonster "Goblin"; mockMonster "Orc";
                    mockMonster "Goblin"] [])) as Hnodup.
  { apply (bool_decide_unpack _). vm_compute. exact I. }
  destruct (startCombat_enemy_names (fun _ => 0) "uuid" []
              [mockMonster "Goblin"; mockMonster "Orc"; mockMonster "Goblin"]
              [] [] 2 (mockMonster "Goblin") eq_refl) as [Hentry Hcombat].
  split; [reflexivity|]. split; [exact Hnodup|].
  split; [exact Hentry|exact (Hcombat Hnodup)].
Defined.

(** Claim C4 as stated fails: for the list Goblin, Orc, Goblin, with equal
    rolls, the combatants are named Goblin 1, Orc and Goblin 3, while the
    last monster is the 2nd of its name, for which the claim has Goblin 2. *)
Lemma startCombat_goblin_orc_goblin :
  exists combat,
    startCombat (fun _ => 0) "uuid" []
      [mockMonster "Goblin"; mockMonster "Orc"; mockMonster "Goblin"] [] []
    = Ok combat
    /\ name <$> initiativeOrder combat = ["Goblin 1"; "Orc"; "Goblin 3"]
    /\ ordinalAmongSameName
         [mockMonster "Goblin"; mockMonster "Orc"; mockMonster "Goblin"]
         2 (mockMonster "Goblin") = 2%nat
    /\ mon_name (mockMonster "Goblin") +:+ " "
       +:+ decimal
             (ordinalAmongSameName
                [mockMonster "Goblin"; mockMonster "Orc"; mockMonster "Goblin"]
                2 (mockMonster "Goblin"))
       = "Goblin 2".
Proof.
  eexists. split; [reflexivity|]. split; [reflexivity|]. split; reflexivity.
Qed.

(* ------------------------------------------------------------------------- *)
(*  nextTurn: whose turn it is                                               *)
(* ------------------------------------------------------------------------- *)

Lemma filter_active_nonempty (order : list Combatant) :
  List.filter (fun c => bool_decide (status c = active)) order <> []
  <-> exists a, (status <$> order) !! a = Some active.
Proof.
  induction order as [|c order IH]; simpl.
  - split; [congruence|]. intros [a Ha]. rewrite lookup_nil in Ha. discriminate.
  - destruct (bool_decide (status c = active)) eqn:E.
    + apply bool_decide_eq_true in E. split; [|discriminate].
      intros _. exists 0%nat. simpl. congruence.
    + apply bool_decide_eq_false in E. rewrite IH. split.
      * intros [a Ha]. exists (S a). exact Ha.
      * intros [[|a] Ha]; simpl in Ha; [congruence|eauto].
Qed.

(** The loop stops on an active combatant when one of the combatants it can
    reach is active. *)
Lemma nextTurn_loop_active len remaining :
  forall nextIndex newRound combat j r c1,
  len = length (initiativeOrder combat) ->
  (0 < len)%nat ->
  (exists t, (t <= remaining)%nat
             /\ (status <$> initiativeOrder combat)
                  !! ((nextIndex + 1 + t) mod len)%nat = Some active) ->
  nextTurn_loop len remaining nextIndex newRound combat = Ok (j, r, c1) ->
  (status <$> initiativeOrder c1) !! j = Some active.
Proof.
  induction remaining as [|remaining IH];
    intros nextIndex newRound combat j r c2 Hlen Hpos (t & Ht & Hactive) Hloop;
    simpl in Hloop;
    set (j1 := (S nextIndex mod len)%nat) in *;
    set (c1 := if (j1 =? 0)%nat then processEndOfRound combat else combat) in *;
    (assert (sameEncounter combat c1) as Hsame
       by (subst c1; destruct (j1 =? 0)%nat;
           [apply sameEncounter_processEndOfRound|apply sameEncounter_refl]));
    destruct Hsame as (_ & _ & Hlen1 & Hstatus & _);
    destruct (initiativeOrder c1 !! j1) as [landed|] eqn:Hl; try discriminate.
  - injection Hloop as <- <- <-.
    assert (t = 0)%nat as -> by lia.
    rewrite Hstatus. rewrite Nat.add_0_r, Nat.add_1_r in Hactive. exact Hactive.
  - destruct (bool_decide (status landed = active)) eqn:E; simpl in Hloop.
    + injection Hloop as <- <- <-.
      apply bool_decide_eq_true in E.
      rewrite list_lookup_fmap, Hl. simpl. congruence.
    + apply bool_decide_eq_false in E.
      eapply IH; [| |
        |exact Hloop]; [lia|exact Hpos|].
      destruct t as [|t].
      * exfalso. apply E.
        rewrite Nat.add_0_r, Nat.add_1_r in Hactive. fold j1 in Hactive.
        rewrite <- Hstatus, list_lookup_fmap, Hl in Hactive.
        simpl in Hactive. congruence.
      * exists t. split; [lia|]. rewrite Hstatus.
        replace ((j1 + 1 + t) mod len)%nat
          with ((nextIndex + 1 + S t) mod len)%nat; [exact Hactive|].
        subst j1.
        replace (S nextIndex mod len + 1 + t)%nat
          with (S nextIndex mod len + (1 + t))%nat by lia.
        rewrite Nat.Div0.add_mod_idemp_l. f_equal. lia.
Qed.

(** From any index, each combatant is within one pass of the loop. *)
Lemma within_one_pass (len idx a : nat) :
  (a < len)%nat ->
  exists t, (t <= len - 1)%nat /\ ((idx + 1 + t) mod len)%nat = a.
Proof.
  intros Ha.
  exists ((a + len - (idx + 1) mod len) mod len)%nat. split.
  - assert ((a + len - (idx + 1) mod len) mod len < len)%nat
      by (apply Nat.mod_upper_bound; lia). lia.
  - rewrite Nat.Div0.add_mod_idemp_r.
    rewrite <- Nat.Div0.add_mod_idemp_l.
    assert ((idx + 1) mod len < len)%nat by (apply Nat.mod_upper_bound; lia).
    replace ((idx + 1) mod len + (a + len - (idx + 1) mod len))%nat
      with (a + 1 * len)%nat by lia.
    rewrite Nat.Div0.mod_add. apply Nat.mod_small. exact Ha.
Qed.

(** When nextTurn leaves the combat active, the turn is with an active
    combatant whose turn resources are fresh. *)
Lemma nextTurn_fuel_lands fuel :
  forall combat combat',
  nextTurn_fuel fuel combat = Ok combat' ->
  isActive combat' = true ->
  exists cur,
    initiativeOrder combat' !! currentTurnIndex combat' = Some cur
    /\ status cur = active
    /\ turnResources cur = createDefaultTurnResources (speed cur).
Proof.
  induction fuel as [|fuel IH]; intros combat combat' Hnext Hact'; [discriminate|].
  destruct (isActive combat) eqn:Hact.
  2:{ rewrite nextTurn_fuel_inactive in Hnext by exact Hact.
      injection Hnext as <-. congruence. }
  destruct (List.filter (fun c => bool_decide (status c = active))
              (initiativeOrder combat)) eqn:Ef.
  { rewrite nextTurn_fuel_nobody in Hnext by assumption.
    injection Hnext as <-. discriminate. }
  assert (List.filter (fun c => bool_decide (status c = active))
            (initiativeOrder combat) <> []) as Hsome
    by (rewrite Ef; discriminate).
  destruct (nextTurn_fuel_step fuel combat Hact Hsome) as
    (j & c1 & landed & Hj & Hsame & _ & Hloop & Hlanded & Hstep).
  rewrite Hstep in Hnext.
  destruct ((round c1 =? 1)
            && bool_decide (id landed ∈ surprisedCombatantIds c1)).
  - eapply IH; eauto.
  - injection Hnext as <-. simpl.
    rewrite list_lookup_insert_eq by eauto using lookup_lt_Some.
    eexists. split; [reflexivity|]. simpl. split; [|reflexivity].
    apply filter_active_nonempty in Hsome as [a Ha].
    assert (a < length (initiativeOrder combat))%nat as Hlt.
    { apply lookup_lt_Some in Ha. rewrite length_fmap in Ha. exact Ha. }
    destruct (within_one_pass (length (initiativeOrder combat))
                (currentTurnIndex combat) a Hlt) as (t & Ht & Hta).
    assert ((status <$> initiativeOrder c1) !! j = Some active) as Hst.
    { eapply nextTurn_loop_active; [reflexivity| |exists t; split; [exact Ht|]
                                    |exact Hloop].
      - lia.
      - rewrite Hta. exact Ha. }
    rewrite list_lookup_fmap, Hlanded in Hst. simpl in Hst. congruence.
Qed.

(** nextTurn keeps an active combat with an active combatant active. *)
Lemma nextTurn_fuel_stays_active fuel :
  forall combat combat',
  nextTurn_fuel fuel combat = Ok combat' ->
  isActive combat = true ->
  (exists a, (status <$> initiativeOrder combat) !! a = Some active) ->
  isActive combat' = true.
Proof.
  induction fuel as [|fuel IH]; intros combat combat' Hnext Hact Hsome;
    [discriminate|].
  pose proof Hsome as Hsome'. apply filter_active_nonempty in Hsome'.
  destruct (nextTurn_fuel_step fuel combat Hact Hsome') as
    (j & c1 & landed & Hj & Hsame & _ & Hloop & Hlanded & Hstep).
  rewrite Hstep in Hnext.
  pose proof (sameEncounter_landOn _ _ _ _ _ Hsame Hlanded eq_refl)
    as (Hact1 & _ & _ & Hstatus & _).
  destruct ((round c1 =? 1)
            && bool_decide (id landed ∈ surprisedCombatantIds c1)).
  - eapply IH; [exact Hnext|congruence|]. rewrite Hstatus. exact Hsome.
  - injection Hnext as <-. congruence.
Qed.

(** nextTurn on an active combat in which some combatant is active
    returns an active combat whose current turn index is inside the
    initiative order and points at a combatant of status active, the one
    getCurrentCombatant reports, with its action, bonus action and reaction
    available and its movement reset to its speed. *)
Theorem nextTurn_lands_on_active combat :
  isActive combat = true ->
  (exists c, c ∈ initiativeOrder combat /\ status c = active) ->
  exists combat' cur,
    nextTurn combat = Ok combat'
    /\ isActive combat' = true
    /\ (currentTurnIndex combat' < length (initiativeOrder combat'))%nat
    /\ getCurrentCombatant combat' = Some cur
    /\ status cur = active
    /\ turnResources cur = createDefaultTurnResources (speed cur).
Proof.
  intros Hact (c & Hin & Hc).
  assert (exists a, (status <$> initiativeOrder combat) !! a = Some active)
    as Hsome.
  { apply list_elem_of_lookup in Hin as [a Ha]. exists a.
    rewrite list_lookup_fmap, Ha. simpl. congruence. }
  destruct (nextTurn_returns combat) as [combat' Hnext].
  pose proof (nextTurn_fuel_stays_active _ _ _ Hnext Hact Hsome) as Hact'.
  destruct (nextTurn_fuel_lands _ _ _ Hnext Hact') as (cur & Hcur & Hst & Hres).
  exists combat', cur. split_and!; auto.
  - eauto using lookup_lt_Some.
  - unfold getCurrentCombatant. rewrite Hact'. simpl.
    destruct (length (initiativeOrder combat') =? 0)%nat eqn:E; [|exact Hcur].
    apply Nat.eqb_eq in E. apply lookup_lt_Some in Hcur. lia.
Qed.

Lemma nextTurn_lands_on_active_witness :
  exists combat' cur,
    nextTurn duel = Ok combat'
    /\ isActive combat' = true
    /\ (currentTurnIndex combat' < length (initiativeOrder combat'))%nat
    /\ getCurrentCombatant combat' = Some cur
    /\ status cur = active
    /\ turnResources cur = createDefaultTurnResources (speed cur).
Proof.
  apply (nextTurn_lands_on_active duel); [reflexivity|].
  eexists. split; [apply list_elem_of_here|reflexivity].
Defined.

(* ------------------------------------------------------------------------- *)
(*  The participants of an encounter                                         *)
(* ------------------------------------------------------------------------- *)

Lemma laterState_refl c : laterState c c.
Proof. unfold laterState. split_and!; auto; lia. Qed.

Lemma laterState_trans c1 c2 c3 :
  laterState c1 c2 -> laterState c2 c3 -> laterState c1 c3.
Proof.
  unfold laterState. intros (?&?&?&?&?) (?&?&?&?&?).
  split_and!; try congruence; auto; lia.
Qed.

Lemma laterState_insert combat i c c' :
  initiativeOrder combat !! i = Some c ->
  participant c' = participant c ->
  laterState combat (with_initiativeOrder (<[i := c']> (initiativeOrder combat))
                       combat).
Proof.
  intros Hi Hp. unfold laterState. simpl. split_and!; auto; [|lia].
  rewrite list_fmap_insert, Hp. apply list_insert_id.
  rewrite list_lookup_fmap, Hi. reflexivity.
Qed.

Lemma laterState_updateCombatant combat combatantId f :
  (forall c, participant (f c) = participant c) ->
  laterState combat (updateCombatant combat combatantId f).
Proof.
  intros Hf. unfold updateCombatant.
  destruct (findCombatant combatantId (initiativeOrder combat))
    as [[i c]|] eqn:E; [|apply laterState_refl].
  apply findCombatant_Some in E as [E _].
  eapply laterState_insert; eauto.
Qed.

Lemma laterState_processEndOfRound c : laterState c (processEndOfRound c).
Proof.
  unfold laterState. simpl. split_and!; auto; [|lia].
  rewrite <- list_fmap_compose. apply list_fmap_ext. auto.
Qed.

Lemma laterState_landOn c1 j cur :
  initiativeOrder c1 !! j = Some cur ->
  laterState c1 (landOn j (round c1) cur c1).
Proof.
  intros Hcur. unfold laterState, landOn. simpl. split_and!; auto; [|lia].
  rewrite list_fmap_insert. apply list_insert_id.
  rewrite list_lookup_fmap, Hcur. reflexivity.
Qed.

Lemma nextTurn_fuel_laterState fuel :
  forall combat combat',
  nextTurn_fuel fuel combat = Ok combat' -> laterState combat combat'.
Proof.
  induction fuel as [|fuel IH]; intros combat combat' Hnext; [discriminate|].
  destruct (isActive combat) eqn:Hact.
  2:{ rewrite nextTurn_fuel_inactive in Hnext by exact Hact.
      injection Hnext as <-. apply laterState_refl. }
  destruct (List.filter (fun c => bool_decide (status c = active))
              (initiativeOrder combat)) eqn:Ef.
  { rewrite nextTurn_fuel_nobody in Hnext by assumption.
    injection Hnext as <-. unfold laterState. simpl.
    split_and!; auto; lia. }
  destruct (nextTurn_fuel_step fuel combat Hact) as
    (j & c1 & landed & Hj & Hsame & _ & Hloop & Hlanded & Hstep);
    [rewrite Ef; discriminate|].
  assert (laterState combat c1) as H1.
  { clear - Hloop.
    remember (length (initiativeOrder combat)) as len eqn:Hlen. clear Hlen.
    remember (len - 1)%nat as remaining eqn:Hr. clear Hr.
    remember (round combat) as newRound eqn:Hn. clear Hn.
    remember (round c1) as r eqn:Hr. clear Hr.
    remember (currentTurnIndex combat) as nextIndex eqn:Hi. clear Hi.
    revert nextIndex newRound combat Hloop.
    induction remaining as [|remaining IH]; intros nextIndex newRound combat;
      simpl;
      set (j1 := (S nextIndex mod len)%nat);
      set (c2 := if (j1 =? 0)%nat then processEndOfRound combat else combat);
      (assert (laterState combat c2) as Hlater
         by (subst c2; destruct (j1 =? 0)%nat;
             [apply laterState_processEndOfRound|apply laterState_refl]));
      destruct (initiativeOrder c2 !! j1) as [landed|]; try discriminate.
    - intros [= _ _ <-]. exact Hlater.
    - destruct (negb (bool_decide (status landed = active))).
      + intros H. eapply laterState_trans; [exact Hlater|]. eapply IH, H.
      + intros [= _ _ <-]. exact Hlater. }
  assert (laterState combat (landOn j (round c1) landed c1)) as H2
    by (eapply laterState_trans; [exact H1|apply laterState_landOn, Hlanded]).
  rewrite Hstep in Hnext.
  destruct ((round c1 =? 1)
            && bool_decide (id landed ∈ surprisedCombatantIds c1)).
  - eapply laterState_trans; [exact H2|]. apply IH, Hnext.
  - injection Hnext as <-. exact H2.
Qed.

(** Whatever operation of the engine is performed on a Combat, the Combat
    it returns has the same combat id and surprised ids, and the same
    participants in the same order (the id, name, type, initiative, maximum
    HP, armor class, speed, position, source id and player flag of each
    combatant); its round is not earlier, and it is not active if the Combat
    it was performed on was not. *)
Theorem operations_keep_the_participants op combat combat' :
  perform op combat = Ok combat' ->
  combat_id combat' = combat_id combat
  /\ surprisedCombatantIds combat' = surprisedCombatantIds combat
  /\ participant <$> initiativeOrder combat'
     = participant <$> initiativeOrder combat
  /\ round combat <= round combat'
  /\ (isActive combat = false -> isActive combat' = false).
Proof.
  change (perform op combat = Ok combat' -> laterState combat combat').
  destruct op; simpl.
  - apply nextTurn_fuel_laterState.
  - intros [= <-]. apply laterState_processEndOfRound.
  - unfold applyDamage.
    destruct (findCombatant _ _) as [[i target]|] eqn:E; [|discriminate].
    apply findCombatant_Some in E as [E _].
    destruct (depleteTempHp _ _) as [[rem act] tmp].
    intros [= <-]. simpl. eapply laterState_insert; eauto.
  - unfold applyHealing.
    destruct (findCombatant _ _) as [[i target]|] eqn:E; [|discriminate].
    apply findCombatant_Some in E as [E _].
    intros [= <-]. simpl. eapply laterState_insert; eauto.
  - unfold addCondition.
    destruct (findCombatant _ _) as [[i target]|] eqn:E; [|discriminate].
    apply findCombatant_Some in E as [E _].
    destruct (list_find _ (conditions target)) as [[k existing]|].
    + destruct (_ && _); intros [= <-]; [|apply laterState_refl].
      eapply laterState_insert; eauto.
    + intros [= <-]. eapply laterState_insert; eauto.
  - unfold removeCondition.
    destruct (findCombatant _ _) as [[i target]|] eqn:E; [|discriminate].
    apply findCombatant_Some in E as [E _].
    intros [= <-]. eapply laterState_insert; eauto.
  - intros [= <-]. apply laterState_updateCombatant. reflexivity.
  - intros [= <-]. apply laterState_updateCombatant. reflexivity.
  - intros [= <-]. apply laterState_updateCombatant. reflexivity.
  - intros [= <-]. apply laterState_updateCombatant. reflexivity.
  - intros [= <-]. apply laterState_updateCombatant. reflexivity.
  - intros [= <-]. apply laterState_updateCombatant. reflexivity.
  - intros [= <-]. unfold laterState. simpl. split_and!; auto; lia.
  - intros [= <-]. unfold laterState. simpl. split_and!; auto; lia.
  - intros [= <-]. unfold laterState. simpl. split_and!; auto; lia.
Qed.

Lemma operations_keep_the_participants_witness :
  exists combat',
    perform (Flee "goblin_1") duel = Ok combat'
    /\ combat_id combat' = combat_id duel
    /\ surprisedCombatantIds combat' = surprisedCombatantIds duel
    /\ participant <$> initiativeOrder combat'
       = participant <$> initiativeOrder duel
    /\ round duel <= round combat'
    /\ (isActive duel = false -> isActive combat' = false).
Proof.
  eexists. split; [reflexivity|].
  apply (operations_keep_the_participants (Flee "goblin_1") duel).
  reflexivity.
Defined.

(* ------------------------------------------------------------------------- *)
(*  Operations on a combatant that is not in the order                       *)
(* ------------------------------------------------------------------------- *)

Lemma findCombatant_absent targetId (order : list Combatant) :
  targetId ∉ id <$> order -> findCombatant targetId order = None.
Proof.
  intros Hnot. unfold findCombatant. apply list_find_None.
  apply Forall_forall. intros c Hc Hid. apply Hnot.
  apply list_elem_of_fmap. exists c. split; [congruence|exact Hc].
Qed.

(** With an id that no combatant of the initiative order has, applyDamage,
    applyHealing, addCondition and removeCondition raise CombatantNotFound
    with that id, while useAction, useBonusAction, useReaction, useMovement,
    flee and addTempHp return the combat unchanged; getCombatant finds
    nothing and hasCondition answers false.  With an id that a combatant
    has, the four operations that can raise return a result. *)
Theorem operations_on_unknown_id combat targetId :
  (targetId ∉ id <$> initiativeOrder combat ->
   (forall amount damageType source,
      applyDamage combat targetId amount damageType source
      = Throw (CombatantNotFound targetId))
   /\ (forall amount source,
         applyHealing combat targetId amount source
         = Throw (CombatantNotFound targetId))
   /\ (forall condition,
         addCondition combat targetId condition
         = Throw (CombatantNotFound targetId))
   /\ (forall conditionName,
         removeCondition combat targetId conditionName
         = Throw (CombatantNotFound targetId))
   /\ useAction combat targetId = combat
   /\ useBonusAction combat targetId = combat
   /\ useReaction combat targetId = combat
   /\ (forall amount, useMovement combat targetId amount = combat)
   /\ flee combat targetId = combat
   /\ (forall amount, addTempHp combat targetId amount = combat)
   /\ getCombatant combat targetId = None
   /\ (forall conditionName, hasCondition combat targetId conditionName = false))
  /\ (targetId ∈ id <$> initiativeOrder combat ->
      (forall amount damageType source,
         exists r, applyDamage combat targetId amount damageType source = Ok r)
      /\ (forall amount source,
            exists r, applyHealing combat targetId amount source = Ok r)
      /\ (forall condition,
            exists c, addCondition combat targetId condition = Ok c)
      /\ (forall conditionName,
            exists c, removeCondition combat targetId conditionName = Ok c)).
Proof.
  split.
  - intros Hnot. apply findCombatant_absent in Hnot.
    unfold applyDamage, applyHealing, addCondition, removeCondition,
      useAction, useBonusAction, useReaction, useMovement, flee, addTempHp,
      updateCombatant, hasCondition, getCombatant.
    rewrite Hnot. split_and!; reflexivity.
  - intros Hin. apply findCombatant_present in Hin as (i & target & E).
    unfold applyDamage, applyHealing, addCondition, removeCondition.
    rewrite E. split_and!; intros.
    + destruct (depleteTempHp _ _) as [[rem act] tmp]. eexists. reflexivity.
    + eexists. reflexivity.
    + destruct (list_find _ _) as [[k existing]|];
        [destruct (_ && _)|]; eexists; reflexivity.
    + eexists. reflexivity.
Qed.

Lemma operations_on_unknown_id_witness :
  applyDamage duel "invalid-id" 10 slashing "test"
  = Throw (CombatantNotFound "invalid-id")
  /\ useAction duel "invalid-id" = duel
  /\ exists c, removeCondition duel "hero" prone = Ok c.
Proof.
  destruct (operations_on_unknown_id duel "invalid-id") as [Hno _].
  destruct (operations_on_unknown_id duel "hero") as [_ Hyes].
  destruct Hno as (H1 & _ & _ & _ & H2 & _).
  { apply (bool_decide_unpack _). vm_compute. reflexivity. }
  destruct Hyes as (_ & _ & _ & H3).
  { apply (bool_decide_unpack _). vm_compute. reflexivity. }
  split_and!; [apply H1|exact H2|apply H3].
Defined.

(* ------------------------------------------------------------------------- *)
(*  applyDamage and applyHealing: the hit points                             *)
(* ------------------------------------------------------------------------- *)

(** applyDamage takes the damage from the temporary HP first.  For a
    target whose temporary and current HP are not negative, the new
    temporary HP are max(0, tempHp - d) and the new current HP
    max(0, currentHp - max(0, d - tempHp)), d being max(0, amount); the
    target loses min(d, tempHp + currentHp) HP in all, its current HP go
    down only when no temporary HP are left, and no other entry of the
    initiative order changes. *)
Theorem applyDamage_depletes_temp_hp_first combat targetId amount damageType
    source i target :
  findCombatant targetId (initiativeOrder combat) = Some (i, target) ->
  0 <= tempHp target ->
  0 <= currentHp target ->
  exists r hit,
    applyDamage combat targetId amount damageType source = Ok r
    /\ initiativeOrder (dmg_combat r) = <[i := hit]> (initiativeOrder combat)
    /\ tempHp hit = Z.max 0 (tempHp target - Z.max 0 amount)
    /\ currentHp hit
       = Z.max 0 (currentHp target - Z.max 0 (Z.max 0 amount - tempHp target))
    /\ (tempHp target + currentHp target) - (tempHp hit + currentHp hit)
       = Z.min (Z.max 0 amount) (tempHp target + currentHp target)
    /\ (currentHp hit < currentHp target -> tempHp hit = 0).
Proof.
  intros E Htemp Hhp. unfold applyDamage. rewrite E.
  unfold depleteTempHp.
  destruct (Z.ltb_spec 0 (tempHp target));
    [destruct (Z.leb_spec (tempHp target) (Z.max 0 amount))|];
    eexists; eexists; (split; [reflexivity|]); simpl;
    (split; [reflexivity|]); simpl.
  all: split_and!; lia.
Qed.

Lemma applyDamage_depletes_temp_hp_first_witness :
  exists r hit,
    applyDamage (addTempHp duel "hero" 10) "hero" 15 slashing "hit" = Ok r
    /\ initiativeOrder (dmg_combat r)
       = <[0%nat := hit]> (initiativeOrder (addTempHp duel "hero" 10))
    /\ tempHp hit = 0
    /\ currentHp hit = 40.
Proof.
  destruct (applyDamage_depletes_temp_hp_first (addTempHp duel "hero" 10)
              "hero" 15 slashing "hit" 0%nat
              (with_tempHp 10
                 (createCombatantFromCharacter (mockCharacter "hero")
                    {| combatantId := "hero"; combatantName := "Test Hero";
                       roll := 15; modifier := 2; total := 17 |})))
    as (r & hit & H1 & H2 & H3 & H4 & _).
  - reflexivity.
  - simpl. lia.
  - simpl. lia.
  - exists r, hit. split_and!; [exact H1|exact H2|exact H3|exact H4].
Defined.

(** Healing gives back what damage took.  For an active target without
    temporary HP whose current HP are at most its maximum HP, applyDamage
    of an amount below the current HP followed by applyHealing of the same
    amount returns the combat as it was; the healing reports the amount as
    actualHealing and no revival. *)
Theorem applyHealing_undoes_applyDamage combat targetId amount damageType
    source source' i target :
  findCombatant targetId (initiativeOrder combat) = Some (i, target) ->
  status target = active ->
  tempHp target = 0 ->
  0 <= amount < currentHp target ->
  currentHp target <= maxHp target ->
  exists d h,
    applyDamage combat targetId amount damageType source = Ok d
    /\ applyHealing (dmg_combat d) targetId amount source' = Ok h
    /\ heal_combat h = combat
    /\ actualHealing h = amount
    /\ wasRevived h = false.
Proof.
  intros E Hst Htemp Hamount Hmax.
  pose proof (findCombatant_Some _ _ _ _ E) as [Hi Hid].
  unfold applyDamage. rewrite E. unfold depleteTempHp. rewrite Htemp. simpl.
  replace (Z.max 0 amount) with amount by lia.
  replace (Z.max 0 (currentHp target - amount))
    with (currentHp target - amount) by lia.
  assert ((currentHp target - amount =? 0) = false) as E0 by lia.
  rewrite E0.
  assert ((0 <? currentHp target) = true) as E1 by lia.
  rewrite E1. simpl.
  eexists. eexists. split; [reflexivity|]. simpl.
  unfold applyHealing. simpl.
  erewrite findCombatant_insert; [|exact E|exact Hid]. simpl.
  rewrite E0. simpl.
  replace (Z.min (maxHp target) (currentHp target - amount + amount))
    with (currentHp target) by lia.
  rewrite E1.
  split; [reflexivity|]. simpl. split_and!; [|lia|reflexivity].
  rewrite list_insert_insert_eq.
  unfold with_healing. simpl.
  replace (with_damage (currentHp target) 0 active (conditions target)
             (with_damage (currentHp target - amount) 0 (status target)
                (conditions target) target))
    with target.
  - rewrite list_insert_id by exact Hi. destruct combat. reflexivity.
  - destruct target. simpl in *. subst. reflexivity.
Qed.

Lemma applyHealing_undoes_applyDamage_witness :
  exists d h,
    applyDamage duel "hero" 10 slashing "sword" = Ok d
    /\ applyHealing (dmg_combat d) "hero" 10 "potion" = Ok h
    /\ heal_combat h = duel
    /\ actualHealing h = 10
    /\ wasRevived h = false.
Proof.
  apply (applyHealing_undoes_applyDamage duel "hero" 10 slashing "sword"
           "potion" 0%nat
           (createCombatantFromCharacter (mockCharacter "hero")
              {| combatantId := "hero"; combatantName := "Test Hero";
                 roll := 15; modifier := 2; total := 17 |}));
    simpl; try reflexivity; lia.
Defined.

(* ------------------------------------------------------------------------- *)
(*  Conditions: add, ask, remove                                             *)
(* ------------------------------------------------------------------------- *)

Lemma hasCondition_insert combat targetId i c c' conditionName :
  findCombatant targetId (initiativeOrder combat) = Some (i, c) ->
  id c' = targetId ->
  hasCondition
    (with_initiativeOrder (<[i := c']> (initiativeOrder combat)) combat)
    targetId conditionName
  = existsb (fun k => bool_decide (cond_name k = conditionName)) (conditions c').
Proof.
  intros E Hid. unfold hasCondition.
  erewrite getCombatant_insert; [reflexivity|exact E|exact Hid].
Qed.

Lemma existsb_named (conds : list ActiveCondition) conditionName :
  existsb (fun k => bool_decide (cond_name k = conditionName)) conds = true
  <-> exists k, k ∈ conds /\ cond_name k = conditionName.
Proof.
  rewrite existsb_exists. split; intros (k & Hk & Hn); exists k.
  - apply list_elem_of_In in Hk. apply bool_decide_eq_true in Hn. auto.
  - apply list_elem_of_In in Hk. split; [exact Hk|].
    apply bool_decide_eq_true. exact Hn.
Qed.

Lemma filter_other_names conditionName (conds : list ActiveCondition) :
  existsb (fun k => bool_decide (cond_name k = conditionName))
    (List.filter (fun k => negb (bool_decide (cond_name k = conditionName)))
       conds)
  = false.
Proof.
  induction conds as [|k conds IH]; [reflexivity|]. simpl.
  destruct (bool_decide (cond_name k = conditionName)) eqn:E; simpl;
    [exact IH|]. rewrite E. exact IH.
Qed.

Lemma filter_no_such_name conditionName (conds : list ActiveCondition) :
  existsb (fun k => bool_decide (cond_name k = conditionName)) conds = false ->
  List.filter (fun k => negb (bool_decide (cond_name k = conditionName))) conds
  = conds.
Proof.
  induction conds as [|k conds IH]; [reflexivity|]. simpl.
  destruct (bool_decide (cond_name k = conditionName)); simpl;
    [discriminate|]. intros H. rewrite IH by exact H. reflexivity.
Qed.

(** After addCondition the target has the condition, and after
    removeCondition of that name it has not.  For a combatant of the order,
    addCondition returns a combat in which hasCondition answers true for the
    name of the condition, whichever of its three paths is taken; a
    removeCondition of the name then returns a combat in which hasCondition
    answers false, and that combat is the first one when the target did not
    have the condition before. *)
Theorem condition_added_then_removed combat targetId condition :
  targetId ∈ id <$> initiativeOrder combat ->
  exists c1 c2,
    addCondition combat targetId condition = Ok c1
    /\ hasCondition c1 targetId (cond_name condition) = true
    /\ removeCondition c1 targetId (cond_name condition) = Ok c2
    /\ hasCondition c2 targetId (cond_name condition) = false
    /\ (hasCondition combat targetId (cond_name condition) = false ->
        c2 = combat).
Proof.
  intros Hin. apply findCombatant_present in Hin as (i & target & E).
  pose proof (findCombatant_Some _ _ _ _ E) as [Hi Hid].
  assert (hasCondition combat targetId (cond_name condition)
          = existsb (fun k => bool_decide (cond_name k = cond_name condition))
              (conditions target)) as Hhas.
  { unfold hasCondition, getCombatant. rewrite E. reflexivity. }
  (* the condition removed from the target as updated with [conds] *)
  assert (forall conds,
            existsb (fun k => bool_decide (cond_name k = cond_name condition))
              conds = true ->
            (hasCondition combat targetId (cond_name condition) = false ->
             List.filter
               (fun k => negb (bool_decide (cond_name k = cond_name condition)))
               conds = conditions target) ->
            let c1 := with_initiativeOrder
                        (<[i := with_conditions conds target]>
                           (initiativeOrder combat)) combat in
            exists c2,
              hasCondition c1 targetId (cond_name condition) = true
              /\ removeCondition c1 targetId (cond_name condition) = Ok c2
              /\ hasCondition c2 targetId (cond_name condition) = false
              /\ (hasCondition combat targetId (cond_name condition) = false ->
                  c2 = combat)) as Hupdated.
  { intros conds Hnamed Hback c1.
    unfold removeCondition. subst c1. simpl.
    erewrite findCombatant_insert; [|exact E|exact Hid].
    eexists. split_and!; [|reflexivity| |].
    - erewrite hasCondition_insert; [|exact E|exact Hid]. exact Hnamed.
    - unfold hasCondition, getCombatant. simpl.
      rewrite list_insert_insert_eq.
      erewrite findCombatant_insert; [|exact E|exact Hid]. simpl.
      apply filter_other_names.
    - intros Hnot. simpl. rewrite list_insert_insert_eq.
      rewrite (Hback Hnot).
      replace (with_conditions (conditions target)
                 (with_conditions conds target)) with target
        by (destruct target; reflexivity).
      rewrite list_insert_id by exact Hi. destruct combat. reflexivity. }
  unfold addCondition. rewrite E.
  destruct (list_find (fun c => cond_name c = cond_name condition)
              (conditions target)) as [[k existing]|] eqn:Ef.
  - apply list_find_Some in Ef as (Hk & Hname & _).
    assert (existsb (fun k => bool_decide (cond_name k = cond_name condition))
              (conditions target) = true) as Hhad.
    { apply existsb_named. exists existing. split; [|exact Hname].
      apply list_elem_of_lookup. eauto. }
    destruct (_ && _).
    + eexists. destruct (Hupdated (<[k := condition]> (conditions target)))
        as (c2 & H1 & H2 & H3 & H4).
      * apply existsb_named. exists condition. split; [|reflexivity].
        apply list_elem_of_lookup. exists k.
        apply list_lookup_insert_eq. eauto using lookup_lt_Some.
      * congruence.
      * exists c2. split_and!; [reflexivity|exact H1|exact H2|exact H3|exact H4].
    + exists combat.
      destruct (Hupdated (conditions target)) as (c2 & H1 & H2 & H3 & H4).
      * exact Hhad.
      * congruence.
      * replace (with_initiativeOrder
                   (<[i := with_conditions (conditions target) target]>
                      (initiativeOrder combat)) combat)
          with combat in H1, H2.
        -- exists c2.
           split_and!; [reflexivity|exact H1|exact H2|exact H3|exact H4].
        -- replace (with_conditions (conditions target) target) with target
             by (destruct target; reflexivity).
           rewrite list_insert_id by exact Hi. destruct combat. reflexivity.
  - eexists.
    destruct (Hupdated (conditions target ++ [condition]))
      as (c2 & H1 & H2 & H3 & H4).
    + apply existsb_named. exists condition. split; [|reflexivity].
      apply elem_of_app. right. apply list_elem_of_here.
    + intros Hnot. rewrite Hhas in Hnot.
      rewrite List.filter_app, filter_no_such_name by exact Hnot. simpl.
      rewrite bool_decide_eq_true_2 by reflexivity. simpl.
      apply app_nil_r.
    + exists c2. split_and!; [reflexivity|exact H1|exact H2|exact H3|exact H4].
Qed.

Lemma condition_added_then_removed_witness :
  "hero" ∈ id <$> initiativeOrder duel
  /\ exists c1 c2,
       addCondition duel "hero" (forRounds poisoned 3) = Ok c1
       /\ hasCondition c1 "hero" poisoned = true
       /\ removeCondition c1 "hero" poisoned = Ok c2
       /\ hasCondition c2 "hero" poisoned = false
       /\ c2 = duel.
Proof.
  assert ("hero" ∈ id <$> initiativeOrder duel) as Hin
    by (apply (bool_decide_unpack _); vm_compute; reflexivity).
  split; [exact Hin|].
  destruct (condition_added_then_removed duel "hero" (forRounds poisoned 3) Hin)
    as (c1 & c2 & H1 & H2 & H3 & H4 & H5).
  exists c1, c2. split_and!; [exact H1|exact H2|exact H3|exact H4|].
  apply H5. reflexivity.
Defined.

(* ------------------------------------------------------------------------- *)
(*  Temporary HP, movement and the environment                               *)
(* ------------------------------------------------------------------------- *)

Lemma updateCombatant_twice combat combatantId f g :
  (forall c, id (f c) = id c) ->
  updateCombatant (updateCombatant combat combatantId f) combatantId g
  = updateCombatant combat combatantId (fun c => g (f c)).
Proof.
  intros Hf. unfold updateCombatant.
  destruct (findCombatant combatantId (initiativeOrder combat))
    as [[i c]|] eqn:E; [|rewrite E; reflexivity].
  pose proof (findCombatant_Some _ _ _ _ E) as [Hi Hid]. simpl.
  erewrite findCombatant_insert; [|exact E|rewrite Hf; exact Hid].
  rewrite list_insert_insert_eq. reflexivity.
Qed.

Lemma updateCombatant_ext combat combatantId f g :
  (forall c, f c = g c) ->
  updateCombatant combat combatantId f = updateCombatant combat combatantId g.
Proof.
  intros H. unfold updateCombatant.
  destruct (findCombatant _ _) as [[i c]|]; [rewrite H|]; reflexivity.
Qed.

Lemma getCombatant_updateCombatant combat combatantId f :
  (forall c, id (f c) = id c) ->
  getCombatant (updateCombatant combat combatantId f) combatantId
  = f <$> getCombatant combat combatantId.
Proof.
  intros Hf. unfold updateCombatant.
  destruct (findCombatant combatantId (initiativeOrder combat))
    as [[i c]|] eqn:E.
  - pose proof (findCombatant_Some _ _ _ _ E) as [Hi Hid].
    erewrite getCombatant_insert; [|exact E|rewrite Hf; exact Hid].
    unfold getCombatant. rewrite E. reflexivity.
  - unfold getCombatant. rewrite E. reflexivity.
Qed.

(** Temporary HP do not stack.  Granting [a] and then [b] temporary HP
    to a combatant is granting max(a, b) once; after addTempHp the target
    has max(tempHp, amount) temporary HP, so that they never go down, and
    granting the same amount again changes nothing. *)
Theorem addTempHp_keeps_the_larger combat targetId a b :
  addTempHp (addTempHp combat targetId a) targetId b
  = addTempHp combat targetId (Z.max a b)
  /\ tempHp <$> getCombatant (addTempHp combat targetId a) targetId
     = (fun c => Z.max (tempHp c) a) <$> getCombatant combat targetId
  /\ addTempHp (addTempHp combat targetId a) targetId a
     = addTempHp combat targetId a.
Proof.
  assert (forall x y,
            addTempHp (addTempHp combat targetId x) targetId y
            = addTempHp combat targetId (Z.max x y)) as H.
  { intros x y. unfold addTempHp.
    rewrite updateCombatant_twice by reflexivity.
    apply updateCombatant_ext. intros c. unfold with_tempHp. simpl.
    unfold with_damage. simpl. f_equal. lia. }
  split_and!.
  - apply H.
  - unfold addTempHp. rewrite getCombatant_updateCombatant by reflexivity.
    destruct (getCombatant combat targetId); reflexivity.
  - rewrite H. f_equal. lia.
Qed.

(** Movement adds up and stops at zero.  For amounts that are not
    negative, useMovement of [a] and then of [b] is useMovement of [a + b];
    after useMovement the combatant has max(0, movementRemaining - amount)
    left. *)
Theorem useMovement_adds_up combat combatantId a b :
  0 <= a ->
  0 <= b ->
  useMovement (useMovement combat combatantId a) combatantId b
  = useMovement combat combatantId (a + b)
  /\ (fun c => movementRemaining (turnResources c))
       <$> getCombatant (useMovement combat combatantId a) combatantId
     = (fun c => Z.max 0 (movementRemaining (turnResources c) - a))
         <$> getCombatant combat combatantId.
Proof.
  intros Ha Hb. split.
  - unfold useMovement. rewrite updateCombatant_twice by reflexivity.
    apply updateCombatant_ext. intros c.
    unfold with_turnResources, with_movementRemaining. simpl.
    f_equal. f_equal. lia.
  - unfold useMovement. rewrite getCombatant_updateCombatant by reflexivity.
    destruct (getCombatant combat combatantId); reflexivity.
Qed.

Lemma useMovement_adds_up_witness :
  useMovement (useMovement duel "hero" 15) "hero" 100
  = useMovement duel "hero" (15 + 100)
  /\ (fun c => movementRemaining (turnResources c))
       <$> getCombatant (useMovement duel "hero" 15) "hero"
     = Some 15.
Proof.
  destruct (useMovement_adds_up duel "hero" 15 100) as [H1 H2]; [lia|lia|].
  split; [exact H1|exact H2].
Defined.

(** An environmental effect that is added and then removed leaves the
    effects as removeEnvironmentalEffect alone would; the removal takes
    every occurrence away, and gives the combat back as it was before the
    addition when the effect was not there. *)
Theorem environmentalEffect_added_then_removed combat effect :
  removeEnvironmentalEffect (addEnvironmentalEffect combat effect) effect
  = removeEnvironmentalEffect combat effect
  /\ (effect ∉ environmentalEffects (removeEnvironmentalEffect combat effect))
  /\ (effect ∉ environmentalEffects combat ->
      removeEnvironmentalEffect (addEnvironmentalEffect combat effect) effect
      = combat)
  /\ effect ∈ environmentalEffects (addEnvironmentalEffect combat effect).
Proof.
  assert (removeEnvironmentalEffect (addEnvironmentalEffect combat effect)
            effect
          = removeEnvironmentalEffect combat effect) as H.
  { unfold removeEnvironmentalEffect, addEnvironmentalEffect,
      with_environmentalEffects. simpl.
    rewrite List.filter_app. simpl.
    rewrite bool_decide_eq_true_2 by reflexivity. simpl.
    rewrite app_nil_r. reflexivity. }
  split_and!.
  - exact H.
  - simpl. intros Hin. apply list_elem_of_In, filter_In in Hin as [_ Hin].
    rewrite bool_decide_eq_true_2 in Hin by reflexivity. discriminate.
  - intros Hnot. rewrite H.
    unfold removeEnvironmentalEffect, with_environmentalEffects.
    replace (List.filter _ (environmentalEffects combat))
      with (environmentalEffects combat); [destruct combat; reflexivity|].
    symmetry. apply forallb_filter_id. apply forallb_forall.
    intros e He. apply negb_true_iff, bool_decide_eq_false.
    intros ->. apply Hnot, list_elem_of_In, He.
  - simpl. apply elem_of_app. right. apply list_elem_of_here.
Qed.

(* ------------------------------------------------------------------------- *)
(*  The end of a combat                                                      *)
(* ------------------------------------------------------------------------- *)

Lemma filter_nonempty {A : Type} (p : A -> bool) (l : list A) :
  List.filter p l <> [] <-> exists x, x ∈ l /\ p x = true.
Proof.
  split.
  - destruct (List.filter p l) as [|x l'] eqn:E; [congruence|]. intros _.
    exists x. rewrite list_elem_of_In, <- filter_In, E. left. reflexivity.
  - intros (x & Hx & Hp) E.
    assert (In x (List.filter p l)) as H
      by (apply filter_In; split; [apply list_elem_of_In, Hx|exact Hp]).
    rewrite E in H. exact H.
Qed.

Lemma players_standing combat :
  List.filter (fun c => isPlayer c && bool_decide (status c = active)
                        && (0 <? currentHp c))
    (initiativeOrder combat) <> []
  <-> exists c, c ∈ initiativeOrder combat
                /\ isPlayer c = true /\ status c = active /\ 0 < currentHp c.
Proof.
  rewrite filter_nonempty.
  split; intros (c & Hc & H); exists c; (split; [exact Hc|]).
  - apply andb_prop in H as [H H3]. apply andb_prop in H as [H1 H2].
    apply bool_decide_eq_true in H2. apply Z.ltb_lt in H3. auto.
  - destruct H as (H1 & H2 & H3). rewrite H1.
    rewrite bool_decide_eq_true_2 by exact H2. simpl.
    apply Z.ltb_lt, H3.
Qed.

Lemma enemies_active combat :
  List.filter (fun c => bool_decide (type c = enemy)
                        && bool_decide (status c = active))
    (initiativeOrder combat) <> []
  <-> exists c, c ∈ initiativeOrder combat
                /\ type c = enemy /\ status c = active.
Proof.
  rewrite filter_nonempty.
  split; intros (c & Hc & H); exists c; (split; [exact Hc|]).
  - apply andb_prop in H as [H1 H2].
    apply bool_decide_eq_true in H1. apply bool_decide_eq_true in H2. auto.
  - destruct H as (H1 & H2).
    rewrite !bool_decide_eq_true_2 by assumption. reflexivity.
Qed.

Lemma checkCombatEnd_nobody_stands combat :
  ~ playerStands combat -> checkCombatEnd combat = (true, Some defeat).
Proof.
  intros Hnone. pose proof (players_standing combat) as Hp.
  unfold checkCombatEnd.
  destruct (List.filter (fun c => isPlayer c && bool_decide (status c = active)
                                  && (0 <? currentHp c))
              (initiativeOrder combat)) as [|p ps].
  - destruct (List.filter _ _); reflexivity.
  - exfalso. apply Hnone, Hp. discriminate.
Qed.

(** checkCombatEnd reads two things off the initiative order: whether a
    player stands (a combatant with isPlayer, status active and current HP
    above 0) and whether an enemy is active (type enemy, status active, what
    getActiveCombatantsByType lists for the type enemy).  It says the combat
    goes on exactly when both are so, victory exactly when a player stands
    and no enemy is active, and defeat exactly when no player stands, also
    when no enemy is active either. *)
Theorem checkCombatEnd_outcome combat :
  (checkCombatEnd combat = (false, None)
   <-> playerStands combat /\ enemyActive combat)
  /\ (checkCombatEnd combat = (true, Some victory)
      <-> playerStands combat /\ ~ enemyActive combat)
  /\ (checkCombatEnd combat = (true, Some defeat) <-> ~ playerStands combat)
  /\ (getActiveCombatantsByType combat enemy = [] <-> ~ enemyActive combat).
Proof.
  pose proof (players_standing combat) as Hp.
  pose proof (enemies_active combat) as He.
  fold (playerStands combat) in Hp. fold (enemyActive combat) in He.
  unfold checkCombatEnd, getActiveCombatantsByType.
  destruct (List.filter (fun c => bool_decide (type c = enemy)
                                  && bool_decide (status c = active))
              (initiativeOrder combat)) as [|e es];
    destruct (List.filter (fun c => isPlayer c && bool_decide (status c = active)
                                    && (0 <? currentHp c))
                (initiativeOrder combat)) as [|p ps].
  - assert (~ playerStands combat) by (rewrite <- Hp; tauto).
    assert (~ enemyActive combat) by (rewrite <- He; tauto).
    split_and!; split; try discriminate; tauto.
  - assert (playerStands combat) by (apply Hp; discriminate).
    assert (~ enemyActive combat) by (rewrite <- He; tauto).
    split_and!; split; try discriminate; tauto.
  - assert (~ playerStands combat) by (rewrite <- Hp; tauto).
    assert (enemyActive combat) by (apply He; discriminate).
    split_and!; split; try discriminate; tauto.
  - assert (playerStands combat) by (apply Hp; discriminate).
    assert (enemyActive combat) by (apply He; discriminate).
    split_and!; split; try discriminate; tauto.
Qed.

Lemma length_filter_insert {A : Type} (p : A -> bool) (l : list A) i x y :
  l !! i = Some x ->
  p x = false ->
  p y = true ->
  length (List.filter p (<[i := y]> l)) = S (length (List.filter p l)).
Proof.
  intros Hi Hx Hy.
  rewrite insert_take_drop by eauto using lookup_lt_Some.
  rewrite <- (take_drop_middle l i x Hi) at 3.
  rewrite !List.filter_app, !length_app. simpl. rewrite Hx, Hy. simpl. lia.
Qed.

(** A player brought to 0 HP by applyDamage keeps the status active, so
    that endCombat lists it among the surviving players, although
    checkCombatEnd, which asks for current HP above 0, no longer counts it:
    when no other player stands, checkCombatEnd says defeat and endCombat
    still reports the downed player as surviving. *)
Theorem downed_player_is_listed_as_surviving combat targetId amount damageType
    source outcome i target :
  findCombatant targetId (initiativeOrder combat) = Some (i, target) ->
  isPlayer target = true ->
  status target = active ->
  0 <= tempHp target ->
  tempHp target + currentHp target <= amount ->
  (forall j c, j <> i -> initiativeOrder combat !! j = Some c ->
               isPlayer c = true -> status c = active -> currentHp c <= 0) ->
  exists r,
    applyDamage combat targetId amount damageType source = Ok r
    /\ checkCombatEnd (dmg_combat r) = (true, Some defeat)
    /\ targetId ∈ survivingPlayers (endCombat (dmg_combat r) outcome).
Proof.
  intros E Hplayer Hst Htemp Hamount Hothers.
  pose proof (findCombatant_Some _ _ _ _ E) as [Hi Hid].
  unfold applyDamage. rewrite E.
  pose proof (depleteTempHp_total (Z.max 0 amount) (tempHp target)
                ltac:(lia)) as Hd.
  assert (let '(rem, _, _) := depleteTempHp (Z.max 0 amount) (tempHp target) in
          currentHp target - rem <= 0) as Hzero.
  { unfold depleteTempHp.
    destruct (Z.ltb_spec 0 (tempHp target));
      [destruct (Z.leb_spec (tempHp target) (Z.max 0 amount))|]; lia. }
  destruct (depleteTempHp (Z.max 0 amount) (tempHp target)) as [[rem act] tmp].
  replace (Z.max 0 (currentHp target - rem)) with 0 by lia.
  rewrite Hplayer. simpl.
  eexists. split; [reflexivity|]. simpl.
  set (hit := with_damage 0 tmp active _ target).
  split.
  - apply checkCombatEnd_nobody_stands. intros (c & Hc & H1 & H2 & H3).
    simpl in Hc. apply list_elem_of_lookup in Hc as [j Hj].
    destruct (decide (j = i)) as [->|Hne].
    + rewrite list_lookup_insert_eq in Hj by eauto using lookup_lt_Some.
      injection Hj as <-. simpl in H3. lia.
    + rewrite list_lookup_insert_ne in Hj by congruence.
      specialize (Hothers j c Hne Hj H1 H2). lia.
  - apply list_elem_of_fmap. exists hit. split; [symmetry; exact Hid|].
    apply list_elem_of_In, filter_In. split.
    + apply list_elem_of_In, list_elem_of_lookup. exists i.
      apply list_lookup_insert_eq. eauto using lookup_lt_Some.
    + simpl. rewrite Hplayer. reflexivity.
Qed.

Lemma downed_player_is_listed_as_surviving_witness :
  exists r,
    applyDamage duel "hero" 45 slashing "knockout" = Ok r
    /\ checkCombatEnd (dmg_combat r) = (true, Some defeat)
    /\ "hero" ∈ survivingPlayers (endCombat (dmg_combat r) defeat).
Proof.
  apply (downed_player_is_listed_as_surviving duel "hero" 45 slashing
           "knockout" defeat 0%nat
           (createCombatantFromCharacter (mockCharacter "hero")
              {| combatantId := "hero"; combatantName := "Test Hero";
                 roll := 15; modifier := 2; total := 17 |}));
    try reflexivity; simpl; try lia.
  intros [|[|j]] c Hne Hc Hp.
  - exfalso. apply Hne. reflexivity.
  - injection Hc as <-. discriminate Hp.
  - discriminate Hc.
Defined.

(** An enemy defeated by applyDamage is worth 50 XP at the end.  When
    applyDamage takes the last HP of a combatant of type enemy that is not
    a player and not yet defeated, the xpEarned that endCombat reports is 50
    more than it would have reported before, whatever the outcome given. *)
Theorem defeating_an_enemy_earns_xp combat targetId amount damageType source
    outcome i target :
  findCombatant targetId (initiativeOrder combat) = Some (i, target) ->
  type target = enemy ->
  isPlayer target = false ->
  status target <> defeated ->
  0 <= tempHp target ->
  tempHp target + currentHp target <= amount ->
  exists r,
    applyDamage combat targetId amount damageType source = Ok r
    /\ xpEarned (endCombat (dmg_combat r) outcome)
       = xpEarned (endCombat combat outcome) + 50.
Proof.
  intros E Htype Hplayer Hst Htemp Hamount.
  pose proof (findCombatant_Some _ _ _ _ E) as [Hi Hid].
  unfold applyDamage. rewrite E.
  pose proof (depleteTempHp_total (Z.max 0 amount) (tempHp target)
                ltac:(lia)) as Hd.
  assert (let '(rem, _, _) := depleteTempHp (Z.max 0 amount) (tempHp target) in
          currentHp target - rem <= 0) as Hzero.
  { unfold depleteTempHp.
    destruct (Z.ltb_spec 0 (tempHp target));
      [destruct (Z.leb_spec (tempHp target) (Z.max 0 amount))|]; lia. }
  destruct (depleteTempHp (Z.max 0 amount) (tempHp target)) as [[rem act] tmp].
  replace (Z.max 0 (currentHp target - rem)) with 0 by lia.
  rewrite Hplayer. simpl.
  eexists. split; [reflexivity|]. simpl.
  erewrite length_filter_insert; [lia|exact Hi| |].
  - rewrite (bool_decide_eq_false_2 (status target = defeated)) by exact Hst.
    apply andb_false_r.
  - simpl. rewrite bool_decide_eq_true_2 by exact Htype. reflexivity.
Qed.

Lemma defeating_an_enemy_earns_xp_witness :
  exists r,
    applyDamage duel "goblin_1" 1000 slashing "fatal hit" = Ok r
    /\ xpEarned (endCombat (dmg_combat r) victory)
       = xpEarned (endCombat duel victory) + 50.
Proof.
  apply (defeating_an_enemy_earns_xp duel "goblin_1" 1000 slashing
           "fatal hit" victory 1%nat
           (createCombatantFromMonster "" (mockMonster "Goblin")
              {| combatantId := "goblin_1"; combatantName := "Goblin";
                 roll := 9; modifier := 2; total := 11 |}
              enemy (Some "goblin_1")));
    try reflexivity; simpl; try lia; discriminate.
Defined.

(* ------------------------------------------------------------------------- *)
(*  startCombat: the initiative order                                        *)
(* ------------------------------------------------------------------------- *)

Lemma combatantOf_initiative uuid entries r c :
  combatantOf uuid entries r = Ok c ->
  init_roll (initiative c) = roll r /\ init_total (initiative c) = total r.
Proof.
  intros H. apply combatantOf_Ok in H as (e & _ & ->).
  destruct (ic_source e); split; reflexivity.
Qed.

Lemma initiativeCombatants_sources characters monsters allyMonsters e :
  e ∈ initiativeCombatants characters monsters allyMonsters ->
  match ic_source e with
  | CharacterSource character => character ∈ characters
  | MonsterSource monster => monster ∈ monsters ++ allyMonsters
  end.
Proof.
  unfold initiativeCombatants. rewrite !elem_of_app.
  intros [H|[H|H]].
  - unfold characterEntries in H. apply list_elem_of_fmap in H as (ch & -> & H).
    exact H.
  - unfold enemyEntries in H. apply list_elem_of_lookup in H as [i H].
    rewrite list_lookup_imap in H.
    destruct (monsters !! i) as [m|] eqn:Em; [|discriminate].
    injection H as <-. simpl. apply elem_of_app. left.
    apply list_elem_of_lookup. eauto.
  - unfold allyEntries in H. apply list_elem_of_lookup in H as [i H].
    rewrite list_lookup_imap in H.
    destruct (allyMonsters !! i) as [m|] eqn:Em; [|discriminate].
    injection H as <-. simpl. apply elem_of_app. right.
    apply list_elem_of_lookup. eauto.
Qed.

Lemma StronglySorted_Forall2 {A B : Type} (Q : A -> B -> Prop)
    (R : A -> A -> Prop) (R' : B -> B -> Prop) (l : list A) (k : list B) :
  (forall a a' b b', Q a b -> Q a' b' -> R a a' -> R' b b') ->
  Forall2 Q l k ->
  StronglySorted R l ->
  StronglySorted R' k.
Proof.
  intros HR H. induction H as [|a b l k Hab Hlk IH]; intros Hs.
  - constructor.
  - apply StronglySorted_inv in Hs as [Hs Hall]. constructor; [auto|].
    clear IH Hs. induction Hlk as [|a' b' l k Hab' Hlk IH]; constructor.
    + apply Forall_inv in Hall. eauto.
    + apply IH. eapply Forall_inv_tail, Hall.
Qed.

Lemma rollInitiative_descending rng combatants :
  StronglySorted (fun a b => total b <= total a)
    (rollInitiative rng combatants).
Proof.
  apply sort_sorted.
  - intros a b H. apply compareInitiative_before in H. lia.
  - intros a b H.
    destruct (Z.le_gt_cases (total a) (total b)) as [|Hgt]; [assumption|].
    exfalso.
    assert (compareInitiative a b <= 0); [|lia].
    apply compareInitiative_before. lia.
  - intros a b c. lia.
Qed.

Lemma rollInitiative_rolls rng combatants :
  Forall (fun r => 1 <= roll r <= 20) (rollInitiative rng combatants).
Proof.
  unfold rollInitiative.
  rewrite (sort_perm compareInitiative (rollAll rng combatants)).
  eapply Forall_impl; [apply rollAll_rolls|]. intros r [H _]. exact H.
Qed.

(** The initiative order startCombat returns is in descending order of
    initiative total, every combatant standing before the combatants whose
    total is not higher, and the d20 behind each total is within 1..20. *)
Theorem startCombat_order_descends rng uuid characters monsters allyMonsters
    surprisedIds :
  exists combat,
    startCombat rng uuid characters monsters allyMonsters surprisedIds
    = Ok combat
    /\ StronglySorted
         (fun a b => init_total (initiative b) <= init_total (initiative a))
         (initiativeOrder combat)
    /\ Forall (fun c => 1 <= init_roll (initiative c) <= 20)
         (initiativeOrder combat).
Proof.
  destruct (startCombat_returns rng uuid characters monsters allyMonsters
              surprisedIds) as (combatants & Hstart & Hall).
  eexists. split; [exact Hstart|]. simpl. split.
  - eapply StronglySorted_Forall2;
      [|exact Hall|apply rollInitiative_descending].
    intros r r' c c' Hc Hc' H. simpl in H.
    apply combatantOf_initiative in Hc as [_ ->].
    apply combatantOf_initiative in Hc' as [_ ->]. exact H.
  - pose proof (rollInitiative_rolls rng
                  (requestOf
                     <$> initiativeCombatants characters monsters allyMonsters))
      as Hrolls.
    clear Hstart. induction Hall as [|r c rs cs Hc Hcs IH]; constructor.
    + apply combatantOf_initiative in Hc as [-> _].
      apply Forall_inv in Hrolls. exact Hrolls.
    + apply IH. eapply Forall_inv_tail, Hrolls.
Qed.

Lemma startCombat_bounded rng uuid characters monsters allyMonsters
    surprisedIds :
  Forall saneCharacter characters ->
  Forall saneMonster (monsters ++ allyMonsters) ->
  exists combat,
    startCombat rng uuid characters monsters allyMonsters surprisedIds
    = Ok combat
    /\ Forall bounded (initiativeOrder combat).
Proof.
  intros Hchars Hmons.
  destruct (startCombat_returns rng uuid characters monsters allyMonsters
              surprisedIds) as (combatants & Hstart & Hall).
  eexists. split; [exact Hstart|]. simpl. clear Hstart.
  induction Hall as [|r c rs cs Hc Hcs IH]; constructor; [|exact IH].
  apply combatantOf_Ok in Hc as (e & He & ->).
  apply initiativeCombatants_sources in He.
  destruct (ic_source e) as [character|monster].
  - pose proof (proj1 (Forall_forall _ _) Hchars _ He) as (H1 & H2 & H3).
    unfold bounded, withinBounds. simpl. lia.
  - pose proof (proj1 (Forall_forall _ _) Hmons _ He) as (H1 & H2).
    unfold bounded, withinBounds. simpl. lia.
Qed.

Lemma performAll_bounded ops :
  forall combat combat',
  Forall bounded (initiativeOrder combat) ->
  Forall nonNegativeAmount ops ->
  performAll ops combat = Ok combat' ->
  Forall bounded (initiativeOrder combat').
Proof.
  induction ops as [|op ops IH]; intros combat combat' Hb Hops; simpl.
  - intros [= <-]. exact Hb.
  - destruct (perform op combat) as [c1|] eqn:E; simpl; [|discriminate].
    apply Forall_cons in Hops as [Hop Hops].
    apply IH; [|exact Hops].
    eapply perform_bounded; eauto.
Qed.

(** The bounds hold in every state an encounter reaches.  When
    startCombat is given characters whose current HP are between 0 and the
    maximum and whose temporary HP and speed are not negative, and monsters
    whose hit points and speed are not negative, the Combat it returns and
    every Combat reached from it by operations of the engine, with healing
    and temporary-HP amounts that are not negative, has every combatant
    within 0 <= currentHp <= maxHp, tempHp >= 0 and movementRemaining >= 0. *)
Theorem reachable_states_within_bounds rng uuid characters monsters
    allyMonsters surprisedIds :
  Forall saneCharacter characters ->
  Forall saneMonster (monsters ++ allyMonsters) ->
  exists combat,
    startCombat rng uuid characters monsters allyMonsters surprisedIds
    = Ok combat
    /\ Forall withinBounds (initiativeOrder combat)
    /\ forall ops combat',
         Forall nonNegativeAmount ops ->
         performAll ops combat = Ok combat' ->
         Forall withinBounds (initiativeOrder combat').
Proof.
  intros Hchars Hmons.
  destruct (startCombat_bounded rng uuid characters monsters allyMonsters
              surprisedIds Hchars Hmons) as (combat & Hstart & Hb).
  exists combat. split; [exact Hstart|]. split.
  - eapply Forall_impl; [exact Hb|]. intros c [H _]. exact H.
  - intros ops combat' Hops Hall.
    eapply Forall_impl; [eapply performAll_bounded; eauto|].
    intros c [H _]. exact H.
Qed.

Lemma reachable_states_within_bounds_witness :
  Forall saneCharacter [mockCharacter "hero"]
  /\ Forall saneMonster ([mockMonster "Goblin"] ++ [])
  /\ exists combat,
       startCombat (fun _ => 0) "uuid" [mockCharacter "hero"]
         [mockMonster "Goblin"] [] [] = Ok combat
       /\ Forall withinBounds (initiativeOrder combat)
       /\ forall ops combat',
            Forall nonNegativeAmount ops ->
            performAll ops combat = Ok combat' ->
            Forall withinBounds (initiativeOrder combat').
Proof.
  assert (Forall saneCharacter [mockCharacter "hero"]) as Hc
    by (repeat constructor; simpl; lia).
  assert (Forall saneMonster ([mockMonster "Goblin"] ++ [])) as Hm
    by (repeat constructor; simpl; lia).
  split_and!; [exact Hc|exact Hm|].
  exact (reachable_states_within_bounds (fun _ => 0) "uuid"
           [mockCharacter "hero"] [mockMonster "Goblin"] [] [] Hc Hm).
Defined.

(* ------------------------------------------------------------------------- *)
(*  processEndOfRound: how long a condition lasts                            *)
(* ------------------------------------------------------------------------- *)

Lemma omap_cons {A B : Type} (f : A -> option B) (x : A) (l : list A) :
  omap f (x :: l)
  = match f x with Some y => y :: omap f l | None => omap f l end.
Proof. reflexivity. Qed.

Lemma endOfRound_afterRounds (conds : list ActiveCondition) :
  List.filter stillRunning (tickCondition <$> conds)
  = omap (afterRounds 1) conds.
Proof.
  induction conds as [|c conds IH]; [reflexivity|].
  rewrite fmap_cons, omap_cons, <- IH. clear IH. simpl.
  unfold stillRunning, tickCondition, afterRounds, truthy.
  destruct c as [n s [t v a r]]. simpl.
  destruct (bool_decide (t = rounds)) eqn:Et; simpl; [|rewrite Et; reflexivity].
  destruct v as [v|]; simpl; [|rewrite Et; reflexivity].
  destruct (Z.eqb_spec v 0) as [->|Hv]; simpl.
  - rewrite Et. reflexivity.
  - rewrite Et. simpl.
    destruct (Z.eqb_spec (v - 1) 0); destruct (Z.ltb_spec 0 (v - 1));
      destruct (Z.ltb_spec 1 v); simpl; try lia; reflexivity.
Qed.

Lemma afterRounds_again k c :
  1 <= k ->
  afterRounds k c ≫= afterRounds 1 = afterRounds (k + 1) c.
Proof.
  intros Hk. unfold afterRounds at 2 3.
  destruct c as [n s [t v a r]]. simpl.
  destruct (bool_decide (t = rounds)) eqn:Et; simpl.
  - destruct v as [v|]; simpl; [|reflexivity].
    destruct (Z.ltb_spec k v); destruct (Z.ltb_spec (k + 1) v); simpl;
      try lia; try reflexivity.
    + unfold afterRounds. simpl. rewrite Et.
      destruct (Z.ltb_spec 1 (v - k)); [|lia].
      unfold with_duration, with_value. simpl.
      replace (v - k - 1) with (v - (k + 1)) by lia. reflexivity.
    + unfold afterRounds. simpl. rewrite Et.
      destruct (Z.ltb_spec 1 (v - k)); [lia|]. reflexivity.
  - unfold afterRounds. simpl. rewrite Et. reflexivity.
Qed.

Lemma afterRounds_succ k (conds : list ActiveCondition) :
  1 <= k ->
  omap (afterRounds 1) (omap (afterRounds k) conds)
  = omap (afterRounds (k + 1)) conds.
Proof.
  intros Hk. induction conds as [|c conds IH]; [reflexivity|].
  rewrite !omap_cons, <- IH, <- (afterRounds_again k c Hk).
  destruct (afterRounds k c) as [c'|]; reflexivity.
Qed.

(** How long a condition lasts.  After processEndOfRound has been called
    k times, k being positive, the round is k higher, each combatant is
    otherwise as it was, and its conditions are the ones afterRounds leaves,
    in their order: a condition that is not counted in rounds is kept as it
    is, and a condition counted in rounds with value v is kept, with value
    v - k, exactly when k < v; so a condition of n rounds is gone after the
    n-th end of a round and not before, and one without a value, or with a
    value of 0 or less, is gone after the first. *)
Theorem conditions_after_rounds k combat :
  let later := Nat.iter (S k) processEndOfRound combat in
  round later = round combat + Z.of_nat (S k)
  /\ initiativeOrder later
     = (fun c => with_conditions
                   (omap (afterRounds (Z.of_nat (S k))) (conditions c)) c)
       <$> initiativeOrder combat.
Proof.
  induction k as [|k IH].
  - simpl. split; [reflexivity|]. apply list_fmap_ext. intros i c _.
    rewrite endOfRound_afterRounds. reflexivity.
  - cbv zeta in IH |- *. destruct IH as [IH1 IH2].
    change (Nat.iter (S (S k)) processEndOfRound combat)
      with (processEndOfRound (Nat.iter (S k) processEndOfRound combat)).
    revert IH1 IH2.
    generalize (Nat.iter (S k) processEndOfRound combat). intros later IH1 IH2.
    split.
    + unfold processEndOfRound. simpl. rewrite IH1. lia.
    + unfold processEndOfRound. simpl. rewrite IH2.
      rewrite <- list_fmap_compose. apply list_fmap_ext. intros i c _. simpl.
      rewrite endOfRound_afterRounds, afterRounds_succ by lia.
      unfold with_conditions. simpl.
      replace (Z.of_nat (S k) + 1) with (Z.of_nat (S (S k))) by lia.
      reflexivity.
Qed.

(* ------------------------------------------------------------------------- *)
(*  DiceEngine: dice thrown and dice kept                                    *)
(* ------------------------------------------------------------------------- *)


Lemma rollDice_range rng start n sides0 :
  1 <= sides0 ->
  Forall (fun x => 1 <= x <= sides0) (rollDice rng start n sides0).
Proof.
  intros H. unfold rollDice. apply Forall_fmap, Forall_forall.
  intros i _. apply rollDie_range, H.
Qed.

Lemma foldl_add acc (l : list Z) : foldl Z.add acc l = acc + sumOf l.
Proof.
  unfold sumOf. revert acc. induction l as [|x l IH]; intros acc; simpl.
  - lia.
  - rewrite IH, (IH (0 + x)). lia.
Qed.

Lemma sumOf_cons x (l : list Z) : sumOf (x :: l) = x + sumOf l.
Proof. unfold sumOf at 1. simpl. rewrite foldl_add. lia. Qed.

Lemma sumOf_perm (l k : list Z) : l ≡ₚ k -> sumOf l = sumOf k.
Proof.
  induction 1; rewrite ?sumOf_cons; lia.
Qed.



Lemma sort_descending (l : list Z) :
  StronglySorted (fun a b => b <= a) (sort (fun a b => b - a) l).
Proof. apply sort_sorted; intros; lia. Qed.





(* ------------------------------------------------------------------------- *)
(*  DiceEngine: the d20                                                      *)
(* ------------------------------------------------------------------------- *)

Lemma d20_range word : 1 <= rollDie 20 word <= 20.
Proof. apply rollDie_range. lia. Qed.

(** rollD20 reports a die within 1..20 that is one of the dice it lists:
    the only die of a normal roll, the higher of the two dice with
    advantage and the lower of them with disadvantage; so, on the same two
    dice, disadvantage is at most the normal roll, which is at most
    advantage.  The flags hadAdvantage and hadDisadvantage say which it
    was. *)
Theorem rollD20_advantage word1 word2 :
  (forall advantageStatus,
     let r := rollD20 word1 word2 advantageStatus in
     1 <= d20_roll r <= 20
     /\ d20_roll r ∈ d20_rolls r
     /\ Forall (fun x => 1 <= x <= 20) (d20_rolls r)
     /\ length (d20_rolls r)
        = (if bool_decide (advantageStatus = normal) then 1 else 2)%nat
     /\ hadAdvantage r = bool_decide (advantageStatus = advantage)
     /\ hadDisadvantage r = bool_decide (advantageStatus = disadvantage))
  /\ d20_roll (rollD20 word1 word2 normal) = rollDie 20 word1
  /\ d20_roll (rollD20 word1 word2 advantage)
     = Z.max (rollDie 20 word1) (rollDie 20 word2)
  /\ d20_roll (rollD20 word1 word2 disadvantage)
     = Z.min (rollDie 20 word1) (rollDie 20 word2)
  /\ d20_roll (rollD20 word1 word2 disadvantage)
     <= d20_roll (rollD20 word1 word2 normal)
     <= d20_roll (rollD20 word1 word2 advantage).
Proof.
  pose proof (d20_range word1) as H1. pose proof (d20_range word2) as H2.
  split_and!; try reflexivity; try (simpl; lia).
  intros [| |]; simpl; split_and!; try reflexivity; try lia.
  - destruct (Z.max_spec (rollDie 20 word1) (rollDie 20 word2))
      as [[_ ->]|[_ ->]];
      repeat first [apply list_elem_of_here|apply list_elem_of_further].
  - repeat constructor; lia.
  - destruct (Z.min_spec (rollDie 20 word1) (rollDie 20 word2))
      as [[_ ->]|[_ ->]];
      repeat first [apply list_elem_of_here|apply list_elem_of_further].
  - repeat constructor; lia.
  - apply list_elem_of_here.
  - repeat constructor; lia.
Qed.

Lemma rollD20_range word1 word2 advantageStatus :
  1 <= d20_roll (rollD20 word1 word2 advantageStatus) <= 20.
Proof.
  pose proof (d20_range word1). pose proof (d20_range word2).
  destruct advantageStatus; simpl; lia.
Qed.

Lemma rollD20_order word1 word2 :
  d20_roll (rollD20 word1 word2 disadvantage)
  <= d20_roll (rollD20 word1 word2 normal)
  <= d20_roll (rollD20 word1 word2 advantage).
Proof. simpl. lia. Qed.

(* ------------------------------------------------------------------------- *)
(*  DiceEngine: attacks, checks and saves                                    *)
(* ------------------------------------------------------------------------- *)

Lemma succeeds_natural roll0 total0 dc :
  (roll0 = 20 -> succeeds roll0 total0 dc = true)
  /\ (roll0 = 1 -> succeeds roll0 total0 dc = false)
  /\ (roll0 <> 1 -> roll0 <> 20 ->
      succeeds roll0 total0 dc = (dc <=? total0)).
Proof.
  unfold succeeds. split_and!.
  - intros ->. reflexivity.
  - intros ->. reflexivity.
  - intros H1 H20.
    destruct (Z.eqb_spec roll0 20); [contradiction|].
    destruct (Z.eqb_spec roll0 1); [contradiction|]. reflexivity.
Qed.


(** A higher die never turns a success into a failure. *)
Lemma succeeds_monotone roll0 roll1 bonus dc :
  1 <= roll0 <= roll1 ->
  roll1 <= 20 ->
  succeeds roll0 (roll0 + bonus) dc = true ->
  succeeds roll1 (roll1 + bonus) dc = true.
Proof.
  unfold succeeds. intros H H20.
  destruct (Z.eqb_spec roll0 1); [discriminate|].
  destruct (Z.eqb_spec roll1 1); [lia|].
  destruct (Z.eqb_spec roll1 20); [reflexivity|].
  destruct (Z.eqb_spec roll0 20); [lia|].
  intros H0. apply Z.leb_le in H0. apply Z.leb_le. lia.
Qed.

(** A natural 20 always hits and a natural 1 always misses.  rollAttack
    adds the attack bonus to the d20; the attack hits when the die is 20
    whatever the armor class, misses when the die is 1 whatever the bonus,
    and otherwise hits exactly when the total is at least the armor class.
    isCriticalHit and isCriticalMiss say whether the die was 20 or 1.  On
    the same two dice, an attack that hits with disadvantage hits with a
    normal roll, and one that hits with a normal roll hits with
    advantage. *)
Theorem rollAttack_hits word1 word2 attackerId attackerName targetId targetName
    targetAC attackBonus weapon :
  (forall advantageStatus,
     let a := rollAttack word1 word2 attackerId attackerName targetId
                targetName targetAC attackBonus weapon advantageStatus in
     1 <= atk_roll a <= 20
     /\ atk_total a = atk_roll a + attackBonus
     /\ (atk_roll a = 20 -> hits a = true)
     /\ (atk_roll a = 1 -> hits a = false)
     /\ (1 < atk_roll a < 20 -> (hits a = true <-> targetAC <= atk_total a))
     /\ (isCriticalHit a = true <-> atk_roll a = 20)
     /\ (isCriticalMiss a = true <-> atk_roll a = 1))
  /\ (hits (rollAttack word1 word2 attackerId attackerName targetId targetName
              targetAC attackBonus weapon disadvantage) = true ->
      hits (rollAttack word1 word2 attackerId attackerName targetId targetName
              targetAC attackBonus weapon normal) = true)
  /\ (hits (rollAttack word1 word2 attackerId attackerName targetId targetName
              targetAC attackBonus weapon normal) = true ->
      hits (rollAttack word1 word2 attackerId attackerName targetId targetName
              targetAC attackBonus weapon advantage) = true).
Proof.
  pose proof (rollD20_order word1 word2) as Horder.
  pose proof (rollD20_range word1 word2) as Hrange.
  split_and!.
  - intros advantageStatus a. subst a. unfold rollAttack. cbv zeta. cbn [
      atk_roll atk_total hits isCriticalHit isCriticalMiss].
    specialize (Hrange advantageStatus).
    set (d := d20_roll (rollD20 word1 word2 advantageStatus)) in *.
    destruct (succeeds_natural d (d + attackBonus) targetAC)
      as (H20 & H1 & Hother).
    split_and!; auto; try lia.
    all: try apply Z.eqb_eq.
    intros Hd. rewrite Hother by lia. apply Z.leb_le.
  - unfold rollAttack. cbn [hits].
    apply succeeds_monotone; [|apply Hrange].
    pose proof (Hrange disadvantage). lia.
  - unfold rollAttack. cbn [hits].
    apply succeeds_monotone; [|apply Hrange].
    pose proof (Hrange normal). lia.
Qed.

(** Ability checks and saving throws follow the same rule as attacks.
    rollAbilityCheck and rollSavingThrow succeed on a natural 20 whatever
    the DC, fail on a natural 1 whatever the modifiers, and otherwise
    succeed exactly when the total, the die plus the modifier plus the
    proficiency bonus they report, is at least the DC; on the same two
    dice, success with disadvantage gives success with a normal roll, and
    success with a normal roll gives success with advantage. *)
Theorem checks_and_saves_succeed word1 word2 character ability dc skill :
  (forall advantageStatus,
     let c := rollAbilityCheck word1 word2 character ability dc skill
                advantageStatus in
     let s := rollSavingThrow word1 word2 character ability dc
                advantageStatus in
     1 <= chk_roll c <= 20
     /\ sav_roll s = chk_roll c
     /\ chk_total c = chk_roll c + chk_modifier c + chk_proficiencyBonus c
     /\ sav_total s = sav_roll s + sav_modifier s + sav_proficiencyBonus s
     /\ (chk_roll c = 20 -> chk_success c = true /\ sav_success s = true)
     /\ (chk_roll c = 1 -> chk_success c = false /\ sav_success s = false)
     /\ (1 < chk_roll c < 20 ->
         (chk_success c = true <-> dc <= chk_total c)
         /\ (sav_success s = true <-> dc <= sav_total s)))
  /\ (chk_success (rollAbilityCheck word1 word2 character ability dc skill
                     disadvantage) = true ->
      chk_success (rollAbilityCheck word1 word2 character ability dc skill
                     normal) = true)
  /\ (chk_success (rollAbilityCheck word1 word2 character ability dc skill
                     normal) = true ->
      chk_success (rollAbilityCheck word1 word2 character ability dc skill
                     advantage) = true)
  /\ (sav_success (rollSavingThrow word1 word2 character ability dc
                     disadvantage) = true ->
      sav_success (rollSavingThrow word1 word2 character ability dc normal)
      = true)
  /\ (sav_success (rollSavingThrow word1 word2 character ability dc normal)
      = true ->
      sav_success (rollSavingThrow word1 word2 character ability dc advantage)
      = true).
Proof.
  pose proof (rollD20_order word1 word2) as Horder.
  pose proof (rollD20_range word1 word2) as Hrange.
  split_and!.
  - intros advantageStatus c s. subst c s.
    unfold rollAbilityCheck, rollSavingThrow. cbv zeta.
    cbn [chk_roll chk_total chk_modifier chk_proficiencyBonus chk_success
         sav_roll sav_total sav_modifier sav_proficiencyBonus sav_success].
    specialize (Hrange advantageStatus).
    set (d := d20_roll (rollD20 word1 word2 advantageStatus)) in *.
    split_and!; auto; try lia.
    + intros ->. split; reflexivity.
    + intros ->. split; reflexivity.
    + intros Hd. split.
      * match goal with
        | |- succeeds d ?t dc = true <-> _ =>
            rewrite (proj2 (proj2 (succeeds_natural d t dc))) by lia
        end.
        apply Z.leb_le.
      * match goal with
        | |- succeeds d ?t dc = true <-> _ =>
            rewrite (proj2 (proj2 (succeeds_natural d t dc))) by lia
        end.
        apply Z.leb_le.
  - unfold rollAbilityCheck. cbn [chk_success]. rewrite <- !Z.add_assoc.
    apply succeeds_monotone; [|apply Hrange].
    pose proof (Hrange disadvantage). lia.
  - unfold rollAbilityCheck. cbn [chk_success]. rewrite <- !Z.add_assoc.
    apply succeeds_monotone; [|apply Hrange].
    pose proof (Hrange normal). lia.
  - unfold rollSavingThrow. cbn [sav_success]. rewrite <- !Z.add_assoc.
    apply succeeds_monotone; [|apply Hrange].
    pose proof (Hrange disadvantage). lia.
  - unfold rollSavingThrow. cbn [sav_success]. rewrite <- !Z.add_assoc.
    apply succeeds_monotone; [|apply Hrange].
    pose proof (Hrange normal). lia.
Qed.

Lemma getProficiencyBonus_table level :
  getProficiencyBonus level = (level + 3) / 4 + 1.
Proof.
  unfold getProficiencyBonus. f_equal.
  pose proof (Z.div_mod (- level) 4 ltac:(lia)).
  pose proof (Z.mod_pos_bound (- level) 4 ltac:(lia)).
  apply Z.div_unique with (r := 3 - (- level) mod 4); lia.
Qed.

(** The modifier and the proficiency bonus of an ability check.  With a
    skill, rollAbilityCheck uses the modifier of the ability SKILLS gives
    for the skill, whatever ability it is called with, and adds twice the
    proficiency bonus when the skill is among the character's expertise,
    the proficiency bonus when it is only among the skills, and nothing
    otherwise; without a skill it uses the modifier of the ability given
    and adds nothing.  rollSavingThrow adds the proficiency bonus exactly
    when the ability is among the saving throws. *)
Theorem check_modifier_and_proficiency word1 word2 character ability dc
    advantageStatus :
  let scores := sheet_abilityScores character in
  let prof := getProficiencyBonus (sheet_level character) in
  (forall skill,
     let c := rollAbilityCheck word1 word2 character ability dc (Some skill)
                advantageStatus in
     chk_modifier c = getAbilityModifier (scoreOf scores (SKILLS skill))
     /\ chk_proficiencyBonus c
        = (if bool_decide (skill ∈ expertise (proficiencies character))
           then 2 * prof
           else if bool_decide (skill ∈ skills (proficiencies character))
           then prof else 0)
     /\ forall ability',
          chk_total (rollAbilityCheck word1 word2 character ability' dc
                       (Some skill) advantageStatus) = chk_total c
          /\ chk_success (rollAbilityCheck word1 word2 character ability' dc
                            (Some skill) advantageStatus) = chk_success c)
  /\ (let c := rollAbilityCheck word1 word2 character ability dc None
                 advantageStatus in
      chk_modifier c = getAbilityModifier (scoreOf scores ability)
      /\ chk_proficiencyBonus c = 0)
  /\ (let s := rollSavingThrow word1 word2 character ability dc
                 advantageStatus in
      sav_modifier s = getAbilityModifier (scoreOf scores ability)
      /\ sav_proficiencyBonus s
         = if bool_decide (ability ∈ savingThrows (proficiencies character))
           then prof else 0).
Proof.
  intros scores prof.
  assert (forall skill ability0,
            (if negb (bool_decide (SKILLS skill = ability0))
             then getAbilityModifier (scoreOf scores (SKILLS skill))
             else getAbilityModifier (scoreOf scores ability0))
            = getAbilityModifier (scoreOf scores (SKILLS skill))) as Hmod.
  { intros skill ability0.
    destruct (bool_decide (SKILLS skill = ability0)) eqn:E; [|reflexivity].
    apply bool_decide_eq_true in E. rewrite E. reflexivity. }
  split_and!.
  - intros skill c. subst c. unfold rollAbilityCheck. cbv zeta.
    cbn [chk_modifier chk_proficiencyBonus chk_total chk_success].
    fold scores. fold prof. rewrite !Hmod. split_and!.
    + reflexivity.
    + destruct (bool_decide (skill ∈ expertise _)); [lia|reflexivity].
    + intros ability'. rewrite !Hmod. split; reflexivity.
  - split; reflexivity.
  - split; reflexivity.
Qed.

(** The ability modifier and the proficiency bonus.  getAbilityModifier is
    the floor of (score - 10) / 2, the integer m with
    2m <= score - 10 < 2m + 2; it is never lower for a higher score, and is
    within -5..+10 for scores of 1..30.  getProficiencyBonus is
    floor((level - 1) / 4) + 2 for every integer level; it is never lower
    for a higher level, and is within +2..+6 for levels of 1..20. *)
Theorem modifier_and_proficiency_tables :
  (forall score,
     2 * getAbilityModifier score <= score - 10
                                  < 2 * getAbilityModifier score + 2)
  /\ (forall score score',
        score <= score' -> getAbilityModifier score <= getAbilityModifier score')
  /\ (forall score, 1 <= score <= 30 -> -5 <= getAbilityModifier score <= 10)
  /\ (forall level, getProficiencyBonus level = (level - 1) / 4 + 2)
  /\ (forall level level',
        level <= level' -> getProficiencyBonus level <= getProficiencyBonus level')
  /\ (forall level, 1 <= level <= 20 -> 2 <= getProficiencyBonus level <= 6).
Proof.
  assert (forall level, getProficiencyBonus level = (level - 1) / 4 + 2) as Hp.
  { intros level. rewrite getProficiencyBonus_table.
    replace (level + 3) with (level - 1 + 1 * 4) by lia.
    rewrite Z.div_add by lia. lia. }
  unfold getAbilityModifier. split_and!.
  - intros score.
    pose proof (Z.div_mod (score - 10) 2 ltac:(lia)).
    pose proof (Z.mod_pos_bound (score - 10) 2 ltac:(lia)). lia.
  - intros score score' H. apply Z.div_le_mono; lia.
  - intros score H.
    pose proof (Z.div_mod (score - 10) 2 ltac:(lia)).
    pose proof (Z.mod_pos_bound (score - 10) 2 ltac:(lia)). lia.
  - exact Hp.
  - intros level level' H. rewrite !Hp.
    pose proof (Z.div_le_mono (level - 1) (level' - 1) 4 ltac:(lia) ltac:(lia)).
    lia.
  - intros level H. rewrite Hp.
    pose proof (Z.div_mod (level - 1) 4 ltac:(lia)).
    pose proof (Z.mod_pos_bound (level - 1) 4 ltac:(lia)). lia.
Qed.

(* ------------------------------------------------------------------------- *)
(*  DiceEngine: damage                                                       *)
(* ------------------------------------------------------------------------- *)







(* ------------------------------------------------------------------------- *)
(*  DiceEngine: death saves                                                  *)
(* ------------------------------------------------------------------------- *)

(** A death save moves one count and keeps both within 0..3.  For a
    character with at most two successes and two failures so far,
    rollDeathSave returns counts within 0..3 that are not lower than
    before; a save of 10 or more is a success and changes only the
    successes, a lower one is a failure and changes only the failures, by
    two on a natural 1; a natural 20 sets the successes to 3.  stable is
    reported exactly when the successes have reached 3 and dead exactly
    when the failures have, never both. *)
Theorem rollDeathSave_counts word currentSuccesses currentFailures :
  0 <= currentSuccesses <= 2 ->
  0 <= currentFailures <= 2 ->
  let r := rollDeathSave word currentSuccesses currentFailures in
  1 <= ds_roll r <= 20
  /\ currentSuccesses <= newSuccesses r <= 3
  /\ currentFailures <= newFailures r <= 3
  /\ (ds_success r = true <-> 10 <= ds_roll r)
  /\ (ds_success r = true ->
      newFailures r = currentFailures
      /\ newSuccesses r = (if ds_roll r =? 20 then 3 else currentSuccesses + 1))
  /\ (ds_success r = false ->
      newSuccesses r = currentSuccesses
      /\ newFailures r
         = Z.min 3 (currentFailures + (if ds_roll r =? 1 then 2 else 1)))
  /\ (stable r = true <-> newSuccesses r = 3)
  /\ (dead r = true <-> newFailures r = 3)
  /\ (stable r = false \/ dead r = false).
Proof.
  intros Hs Hf r. subst r. unfold rollDeathSave.
  pose proof (d20_range word) as Hd.
  set (d := rollDie 20 word) in *.
  destruct (Z.eqb_spec d 20) as [E20|E20];
    [|destruct (Z.eqb_spec d 1) as [E1|E1];
      [|destruct (Z.leb_spec 10 d) as [E10|E10]]];
    cbn [ds_roll ds_success stable dead newSuccesses newFailures];
    try (destruct (Z.eqb_spec d 1); [lia|]);
    try (destruct (Z.eqb_spec d 20); [lia|]);
    (split_and!; try lia;
     try (left; reflexivity); try (right; reflexivity);
     repeat split; intros; try discriminate; try reflexivity;
     rewrite ?Z.leb_le in *; try lia).
Qed.

Lemma rollDeathSave_counts_witness :
  let r := rollDeathSave 0 2 2 in
  ds_roll r = 1 /\ newFailures r = 3 /\ dead r = true /\ stable r = false.
Proof.
  destruct (rollDeathSave_counts 0 2 2) as (_ & _ & _ & _ & _ & H & _ & Hd & _);
    [lia|lia|].
  cbv zeta. split; [reflexivity|].
  destruct H as [_ H]; [reflexivity|].
  split; [exact H|]. split; [apply Hd; exact H|reflexivity].
Defined.

(* ------------------------------------------------------------------------- *)
(*  DiceEngine: ability scores                                               *)
(* ------------------------------------------------------------------------- *)

Lemma Permutation_four (s : list Z) a b c d :
  s ≡ₚ [a; b; c; d] -> exists w x y z, s = [w; x; y; z].
Proof.
  intros H. apply Permutation_length in H.
  destruct s as [|w [|x [|y [|z [|? ?]]]]]; simpl in H; try lia.
  eauto.
Qed.

(** rollAbilityScore is 4d6, drop the lowest.  It throws four dice
    within 1..6 and returns them from the highest to the lowest; dropped is
    the last of them, no higher than any of the four, and total is the sum
    of the four less the dropped one, within 3..18.  rollAbilityScoreSet
    returns six such totals, one per detail. *)
Theorem rollAbilityScore_drops_the_lowest rng :
  (forall start,
     let r := rollAbilityScore rng start in
     let thrown := rollDice rng start 4 6 in
     as_rolls r ≡ₚ thrown
     /\ StronglySorted (fun a b => b <= a) (as_rolls r)
     /\ Forall (fun x => 1 <= x <= 6) (as_rolls r)
     /\ dropped r ∈ thrown
     /\ Forall (fun x => dropped r <= x) thrown
     /\ as_total r = sumOf thrown - dropped r
     /\ 3 <= as_total r <= 18)
  /\ (let '(scores, details) := rollAbilityScoreSet rng in
      length scores = 6%nat
      /\ scores = as_total <$> details
      /\ Forall (fun x => 3 <= x <= 18) scores).
Proof.
  assert (forall start,
     let r := rollAbilityScore rng start in
     let thrown := rollDice rng start 4 6 in
     as_rolls r ≡ₚ thrown
     /\ StronglySorted (fun a b => b <= a) (as_rolls r)
     /\ Forall (fun x => 1 <= x <= 6) (as_rolls r)
     /\ dropped r ∈ thrown
     /\ Forall (fun x => dropped r <= x) thrown
     /\ as_total r = sumOf thrown - dropped r
     /\ 3 <= as_total r <= 18) as Hone.
  { intros start r thrown. subst r. unfold rollAbilityScore.
    cbn [as_rolls dropped as_total]. fold thrown.
    pose proof (sort_perm (fun a b => b - a) thrown) as Hperm.
    pose proof (sort_descending thrown) as Hsorted.
    assert (Forall (fun x => 1 <= x <= 6) thrown) as Hrange
      by (apply rollDice_range; lia).
    pose proof Hrange as Hrange'. rewrite <- Hperm in Hrange'.
    destruct (Permutation_four _ _ _ _ _ Hperm) as (w & x & y & z & Hs).
    revert Hperm Hsorted Hrange'. rewrite Hs. intros Hperm Hsorted Hrange'.
    change ([w; x; y; z] !!! 3%nat) with z.
    change ([w; x; y; z] !!! 0%nat) with w.
    change ([w; x; y; z] !!! 1%nat) with x.
    change ([w; x; y; z] !!! 2%nat) with y.
    assert (z <= y /\ y <= x /\ x <= w) as Hord.
    { apply StronglySorted_inv in Hsorted as [Hs1 Hw].
      apply StronglySorted_inv in Hs1 as [Hs2 Hx].
      apply StronglySorted_inv in Hs2 as [_ Hy].
      apply Forall_inv in Hw, Hx, Hy. lia. }
    assert (1 <= w <= 6 /\ 1 <= x <= 6 /\ 1 <= y <= 6 /\ 1 <= z <= 6) as Hr.
    { apply Forall_cons in Hrange' as [? Hrange'].
      apply Forall_cons in Hrange' as [? Hrange'].
      apply Forall_cons in Hrange' as [? Hrange'].
      apply Forall_cons in Hrange' as [? _]. auto. }
    split_and!; auto; try lia.
    - rewrite <- Hperm. do 3 apply list_elem_of_further.
      apply list_elem_of_here.
    - rewrite <- Hperm. repeat constructor; lia.
    - rewrite <- (sumOf_perm _ _ Hperm). rewrite !sumOf_cons.
      unfold sumOf. simpl. lia. }
  split; [exact Hone|].
  unfold rollAbilityScoreSet. split_and!.
  - rewrite !length_fmap. reflexivity.
  - reflexivity.
  - rewrite <- list_fmap_compose. apply Forall_fmap, Forall_forall.
    intros i _. simpl. apply (Hone (4 * i)%nat).
Qed.

(* ------------------------------------------------------------------------- *)
(*  Down and up again                                                        *)
(* ------------------------------------------------------------------------- *)

(** A downed player is revived by any healing.  When applyDamage takes the
    last HP of a standing player that carries no unconscious condition, the
    player is reported as downed and has the unconscious condition; an
    applyHealing of a positive amount then reports a revival and leaves the
    player with min(maxHp, amount) HP, no temporary HP, the status active
    and the conditions it had before the damage. *)
Theorem healing_revives_a_downed_player combat targetId amount damageType
    source healAmount source' i target :
  findCombatant targetId (initiativeOrder combat) = Some (i, target) ->
  isPlayer target = true ->
  0 < currentHp target ->
  0 <= tempHp target ->
  tempHp target + currentHp target <= amount ->
  0 < healAmount ->
  0 < maxHp target ->
  unconscious ∉ cond_name <$> conditions target ->
  exists d h revived,
    applyDamage combat targetId amount damageType source = Ok d
    /\ wasDowned d = true
    /\ hasCondition (dmg_combat d) targetId unconscious = true
    /\ applyHealing (dmg_combat d) targetId healAmount source' = Ok h
    /\ wasRevived h = true
    /\ getCombatant (heal_combat h) targetId = Some revived
    /\ currentHp revived = Z.min (maxHp target) healAmount
    /\ tempHp revived = 0
    /\ status revived = active
    /\ conditions revived = conditions target.
Proof.
  intros E Hplayer Hhp Htemp Hamount Hheal Hmax Hawake.
  pose proof (findCombatant_Some _ _ _ _ E) as [Hi Hid].
  unfold applyDamage. rewrite E.
  assert (depleteTempHp (Z.max 0 amount) (tempHp target)
          = (Z.max 0 amount - tempHp target,
             (if 0 <? tempHp target then 0 + tempHp target else 0), 0)) as ->.
  { unfold depleteTempHp.
    destruct (Z.ltb_spec 0 (tempHp target));
      [destruct (Z.leb_spec (tempHp target) (Z.max 0 amount))|];
      try lia; repeat f_equal; lia. }
  replace (Z.max 0 (currentHp target - (Z.max 0 amount - tempHp target)))
    with 0 by lia.
  assert ((0 <? currentHp target) = true) as -> by lia.
  rewrite Hplayer. simpl.
  set (downed := with_damage 0 0 active
                   (conditions target ++ [unconsciousFromDamage]) target).
  assert (findCombatant targetId (<[i := downed]> (initiativeOrder combat))
          = Some (i, downed)) as Efound
    by (apply (findCombatant_insert _ _ _ target); [exact E|exact Hid]).
  eexists. eexists. eexists. split; [reflexivity|]. simpl.
  split; [reflexivity|]. split.
  { unfold hasCondition, getCombatant. simpl. rewrite Efound. simpl.
    rewrite existsb_app. simpl. apply orb_true_r. }
  unfold applyHealing. simpl. rewrite Efound. simpl.
  replace (Z.min (maxHp target) (0 + healAmount))
    with (Z.min (maxHp target) healAmount) by (f_equal; lia).
  assert ((0 <? Z.min (maxHp target) healAmount) = true) as -> by lia.
  split; [reflexivity|]. simpl. split; [reflexivity|]. split.
  { unfold getCombatant. simpl. rewrite list_insert_insert_eq.
    erewrite findCombatant_insert; [reflexivity|exact E|exact Hid]. }
  simpl. split_and!; try reflexivity.
  rewrite List.filter_app. simpl. rewrite app_nil_r.
  apply forallb_filter_id, forallb_forall. intros k Hk.
  apply negb_true_iff, bool_decide_eq_false. intros Hname.
  apply Hawake, list_elem_of_fmap. exists k.
  split; [symmetry; exact Hname|apply list_elem_of_In, Hk].
Qed.

Lemma healing_revives_a_downed_player_witness :
  exists d h revived,
    applyDamage duel "hero" 45 slashing "knockout" = Ok d
    /\ wasDowned d = true
    /\ hasCondition (dmg_combat d) "hero" unconscious = true
    /\ applyHealing (dmg_combat d) "hero" 5 "cure wounds" = Ok h
    /\ wasRevived h = true
    /\ getCombatant (heal_combat h) "hero" = Some revived
    /\ currentHp revived = 5
    /\ tempHp revived = 0
    /\ status revived = active
    /\ conditions revived = [].
Proof.
  apply (healing_revives_a_downed_player duel "hero" 45 slashing "knockout" 5
           "cure wounds" 0%nat
           (createCombatantFromCharacter (mockCharacter "hero")
              {| combatantId := "hero"; combatantName := "Test Hero";
                 roll := 15; modifier := 2; total := 17 |}));
    try reflexivity; simpl; try lia.
  apply not_elem_of_nil.
Defined.
